(** * Cache simulator (riscv/cachesim.h, riscv/cachesim.cc)

    A shallow embedding of the cache simulation engine: the replacement
    generator [lfsr_t], the set-associative engine [cache_sim_t], the
    fully-associative engine [fa_cache_sim_t], the factory [construct]
    and the chaining of engines through [miss_handler].

    Conventions.
    - [uint64_t] / [size_t] values are [Z] in [0, 2^64); [uint32_t] values
      are [Z] in [0, 2^32).  Wrap-around is written out with [wrap64] and
      [wrap32] wherever the C++ arithmetic can overflow.
    - Operations of a constructed engine live in the [option] monad:
      [None] stands for undefined behaviour of the C++ program (array
      index out of range, null dereference, remainder by zero).
    - [construct] returns a sum: the engine, or the way construction
      ended ([help()] and [exit(1)], a failed [new], undefined [atoi]).
    - The text written to [std::cerr] and [std::cout] is not modelled. *)

From Stdlib Require Import ZArith Lia String Ascii List Sorted.
From stdpp Require Import base option list.

Local Open Scope Z_scope.

(** ** Machine integers *)

Definition wrap64 (x : Z) : Z := x mod 2 ^ 64.
Definition wrap32 (x : Z) : Z := x mod 2 ^ 32.

Definition is_u64 (x : Z) : Prop := 0 <= x < 2 ^ 64.
Definition is_u32 (x : Z) : Prop := 0 <= x < 2 ^ 32.

Definition INT_MIN : Z := - 2 ^ 31.
Definition INT_MAX : Z := 2 ^ 31 - 1.

(** [static const uint64_t VALID = 1ULL << 63;]
    [static const uint64_t DIRTY = 1ULL << 62;] *)
Definition VALID : Z := Z.shiftl 1 63.
Definition DIRTY : Z := Z.shiftl 1 62.

(** ** lfsr_t *)

Module lfsr_t.

Record t : Type := mk { reg : Z }.

(** [lfsr_t() : reg(1) {}] *)
Definition new : t := {| reg := 1 |}.

(** [lfsr_t(const lfsr_t& lfsr) : reg(lfsr.reg) {}] *)
Definition copy (lfsr : t) : t := {| reg := reg lfsr |}.

(** [uint32_t next() { return reg = (reg>>1)^(-(reg&1) & 0xd0000001); }]
    The unary minus is taken on an [unsigned int], hence [wrap32].
    The result is the pair (returned value, generator afterwards). *)
Definition next (l : t) : Z * t :=
  let r := Z.lxor (Z.shiftr (reg l) 1)
                  (Z.land (wrap32 (- Z.land (reg l) 1)) 0xd0000001) in
  (r, {| reg := r |}).

(** The generator iterated [n] times: the values returned, in order. *)
Fixpoint run (n : nat) (l : t) : list Z :=
  match n with
  | O => []
  | S n' => let '(v, l') := next l in v :: run n' l'
  end.

End lfsr_t.

(** ** The C library as [construct] uses it *)

Definition isspace (c : ascii) : bool :=
  let n := Z.of_nat (nat_of_ascii c) in
  (n =? 32) || ((9 <=? n) && (n <=? 13)).

Definition isdigit (c : ascii) : bool :=
  let n := Z.of_nat (nat_of_ascii c) in
  (48 <=? n) && (n <=? 57).

Definition digit_value (c : ascii) : Z := Z.of_nat (nat_of_ascii c) - 48.

Fixpoint skip_spaces (s : string) : string :=
  match s with
  | String c r => if isspace c then skip_spaces r else s
  | EmptyString => s
  end.

(** The longest run of decimal digits at the head of [s], read in base
    ten onto the accumulator [acc]; whatever follows is ignored. *)
Fixpoint read_digits (acc : Z) (s : string) : Z :=
  match s with
  | String c r => if isdigit c then read_digits (acc * 10 + digit_value c) r else acc
  | EmptyString => acc
  end.

(** [atoi]: leading white space, an optional sign, then
    decimal digits.  A value that does not fit [int] is undefined
    behaviour: [None]. *)
Definition atoi (s : string) : option Z :=
  let s := skip_spaces s in
  let '(neg, s) :=
    match s with
    | String "-"%char r => (true, r)
    | String "+"%char r => (false, r)
    | _ => (false, s)
    end in
  let v := read_digits 0 s in
  let v := if neg then - v else v in
  if (INT_MIN <=? v) && (v <=? INT_MAX) then Some v else None.

(** [strchr(s, c)] for a character [c] other than NUL: the offset of the
    first occurrence, [None] for the null pointer. *)
Fixpoint strchr (s : string) (c : ascii) : option nat :=
  match s with
  | EmptyString => None
  | String a r => if Ascii.eqb a c then Some O else S <$> strchr r c
  end.

(** The characters of [s] from offset [n] on (the C string at [s + n]). *)
Fixpoint string_from (n : nat) (s : string) : string :=
  match n, s with
  | O, _ => s
  | S n', String _ r => string_from n' r
  | S _, EmptyString => EmptyString
  end.

(** [std::string(s + a, s + b)] *)
Definition string_range (a b : nat) (s : string) : string :=
  substring a (b - a) s.

(** Conversion of an [int] to [size_t] (sign extension, then modulo 2^64). *)
Definition size_t_of_int (v : Z) : Z := wrap64 v.

(** ** std::map<uint64_t, uint64_t>

    The entries as a list of (key, value) pairs in ascending key order,
    which is the iteration order of the container. *)

Abbreviation std_map := (list (Z * Z)).

Module std_map.

Definition size (m : std_map) : Z := Z.of_nat (length m).

(** [m.find(k)]: the value of the entry, [None] for [m.end()]. *)
Fixpoint find (k : Z) (m : std_map) : option Z :=
  match m with
  | [] => None
  | (k', v) :: r => if k' =? k then Some v else find k r
  end.

(** [m[k] = v]: overwrite the entry of [k], or insert it in key order. *)
Fixpoint set (k v : Z) (m : std_map) : std_map :=
  match m with
  | [] => [(k, v)]
  | (k', v') :: r =>
      if k <? k' then (k, v) :: m
      else if k =? k' then (k, v) :: r
      else (k', v') :: set k v r
  end.

(** [it = m.begin(); std::advance(it, n)]: the entry at position [n]. *)
Definition at_offset (n : nat) (m : std_map) : option (Z * Z) := m !! n.

(** [m.erase(it)] for the iterator at position [n]. *)
Definition erase (n : nat) (m : std_map) : std_map := delete n m.

Definition keys (m : std_map) : list Z := fst <$> m.

(** Strictly ascending keys: the container's own invariant. *)
Definition ordered (m : std_map) : Prop := StronglySorted Z.lt (keys m).

End std_map.

(** ** The engines *)

(** A [uint64_t*] into the tag store: an element of the [tags] array of
    [cache_sim_t], or the value of an entry of the map of [fa_cache_sim_t]. *)
Inductive slot : Type :=
| array_slot (i : nat)
| map_slot (k : Z).

(** [cache_sim_t] and, when [fa_tags] is [Some m], its subclass
    [fa_cache_sim_t] whose member [std::map<uint64_t, uint64_t> tags]
    hides the array.  [miss_handler] holds the next level by value: the
    hierarchy is a linear chain, [None] is the null pointer. *)
Record cache_sim_t (N : Type) : Type := mk_cache {
  lfsr : lfsr_t.t;
  miss_handler : option N;
  sets : Z;
  ways : Z;
  linesz : Z;
  idx_shift : Z;
  tags : list Z;
  read_accesses : Z;
  read_misses : Z;
  bytes_read : Z;
  write_accesses : Z;
  write_misses : Z;
  bytes_written : Z;
  writebacks : Z;
  name : string;
  log : bool;
  fa_tags : option std_map
}.

Arguments mk_cache {N}.
Arguments lfsr {N}.
Arguments miss_handler {N}.
Arguments sets {N}.
Arguments ways {N}.
Arguments linesz {N}.
Arguments idx_shift {N}.
Arguments tags {N}.
Arguments read_accesses {N}.
Arguments read_misses {N}.
Arguments bytes_read {N}.
Arguments write_accesses {N}.
Arguments write_misses {N}.
Arguments bytes_written {N}.
Arguments writebacks {N}.
Arguments name {N}.
Arguments log {N}.
Arguments fa_tags {N}.

(** What the next level offers to the engine that points to it. *)
Class MissHandler (N : Type) : Type := {
  mh_access : N -> Z -> Z -> bool -> option N;
  mh_clean_invalidate : N -> Z -> Z -> bool -> bool -> option N
}.

(** A call received by a next level. *)
Inductive call : Type :=
| call_access (addr bytes : Z) (store : bool)
| call_clean_invalidate (addr bytes : Z) (clean inval : bool).

(** How [construct] can end without an engine. *)
Inductive failure : Type :=
| usage_exit      (* help(): the usage text on std::cerr, then exit(1) *)
| bad_alloc       (* operator new[] throws *)
| undefined_atoi. (* atoi of a value outside int *)

Section Engine.

Context {N : Type}.

Abbreviation cache := (cache_sim_t N).

(** *** Field updates *)

Definition set_lfsr (c : cache) (v : lfsr_t.t) : cache :=
  mk_cache v (miss_handler c) (sets c) (ways c) (linesz c) (idx_shift c)
    (tags c) (read_accesses c) (read_misses c) (bytes_read c)
    (write_accesses c) (write_misses c) (bytes_written c) (writebacks c)
    (name c) (log c) (fa_tags c).

(** [void set_miss_handler(cache_sim_t* mh) { miss_handler = mh; }] *)
Definition set_miss_handler (c : cache) (mh : option N) : cache :=
  mk_cache (lfsr c) mh (sets c) (ways c) (linesz c) (idx_shift c)
    (tags c) (read_accesses c) (read_misses c) (bytes_read c)
    (write_accesses c) (write_misses c) (bytes_written c) (writebacks c)
    (name c) (log c) (fa_tags c).

Definition set_tags (c : cache) (v : list Z) : cache :=
  mk_cache (lfsr c) (miss_handler c) (sets c) (ways c) (linesz c) (idx_shift c)
    v (read_accesses c) (read_misses c) (bytes_read c)
    (write_accesses c) (write_misses c) (bytes_written c) (writebacks c)
    (name c) (log c) (fa_tags c).

Definition set_fa_tags (c : cache) (v : option std_map) : cache :=
  mk_cache (lfsr c) (miss_handler c) (sets c) (ways c) (linesz c) (idx_shift c)
    (tags c) (read_accesses c) (read_misses c) (bytes_read c)
    (write_accesses c) (write_misses c) (bytes_written c) (writebacks c)
    (name c) (log c) v.

Definition set_read_accesses (c : cache) (v : Z) : cache :=
  mk_cache (lfsr c) (miss_handler c) (sets c) (ways c) (linesz c) (idx_shift c)
    (tags c) v (read_misses c) (bytes_read c)
    (write_accesses c) (write_misses c) (bytes_written c) (writebacks c)
    (name c) (log c) (fa_tags c).

Definition set_read_misses (c : cache) (v : Z) : cache :=
  mk_cache (lfsr c) (miss_handler c) (sets c) (ways c) (linesz c) (idx_shift c)
    (tags c) (read_accesses c) v (bytes_read c)
    (write_accesses c) (write_misses c) (bytes_written c) (writebacks c)
    (name c) (log c) (fa_tags c).

Definition set_bytes_read (c : cache) (v : Z) : cache :=
  mk_cache (lfsr c) (miss_handler c) (sets c) (ways c) (linesz c) (idx_shift c)
    (tags c) (read_accesses c) (read_misses c) v
    (write_accesses c) (write_misses c) (bytes_written c) (writebacks c)
    (name c) (log c) (fa_tags c).

Definition set_write_accesses (c : cache) (v : Z) : cache :=
  mk_cache (lfsr c) (miss_handler c) (sets c) (ways c) (linesz c) (idx_shift c)
    (tags c) (read_accesses c) (read_misses c) (bytes_read c)
    v (write_misses c) (bytes_written c) (writebacks c)
    (name c) (log c) (fa_tags c).

Definition set_write_misses (c : cache) (v : Z) : cache :=
  mk_cache (lfsr c) (miss_handler c) (sets c) (ways c) (linesz c) (idx_shift c)
    (tags c) (read_accesses c) (read_misses c) (bytes_read c)
    (write_accesses c) v (bytes_written c) (writebacks c)
    (name c) (log c) (fa_tags c).

Definition set_bytes_written (c : cache) (v : Z) : cache :=
  mk_cache (lfsr c) (miss_handler c) (sets c) (ways c) (linesz c) (idx_shift c)
    (tags c) (read_accesses c) (read_misses c) (bytes_read c)
    (write_accesses c) (write_misses c) v (writebacks c)
    (name c) (log c) (fa_tags c).

Definition set_writebacks (c : cache) (v : Z) : cache :=
  mk_cache (lfsr c) (miss_handler c) (sets c) (ways c) (linesz c) (idx_shift c)
    (tags c) (read_accesses c) (read_misses c) (bytes_read c)
    (write_accesses c) (write_misses c) (bytes_written c) v
    (name c) (log c) (fa_tags c).

(** [void set_log(bool _log) { log = _log; }] *)
Definition set_log (c : cache) (v : bool) : cache :=
  mk_cache (lfsr c) (miss_handler c) (sets c) (ways c) (linesz c) (idx_shift c)
    (tags c) (read_accesses c) (read_misses c) (bytes_read c)
    (write_accesses c) (write_misses c) (bytes_written c) (writebacks c)
    (name c) v (fa_tags c).

(** *** Construction *)

(** [for (size_t x = linesz; x>1; x >>= 1) idx_shift++;]
    A [size_t] is exhausted after 64 shifts, so 64 rounds are enough. *)
Fixpoint idx_shift_loop (fuel : nat) (x : Z) (idx_shift : Z) : Z :=
  match fuel with
  | O => idx_shift
  | S fuel' =>
      if 1 <? x then idx_shift_loop fuel' (Z.shiftr x 1) (idx_shift + 1)
      else idx_shift
  end.

(** The largest element count [new uint64_t[n]] accepts: beyond it the
    size in bytes exceeds [PTRDIFF_MAX] and the expression throws.
    Memory itself is taken to be sufficient. *)
Definition max_array_length : Z := 2 ^ 60.

(** [cache_sim_t::init()], run by the constructor on the members
    [sets], [ways], [linesz], [name], [log = false] and a fresh [lfsr].
    [fa] is the map member of the most derived object, if any. *)
Definition init (sets ways linesz : Z) (name : string) (fa : option std_map)
  : failure + cache :=
  if (sets =? 0) || negb (Z.land sets (wrap64 (sets - 1)) =? 0) then inl usage_exit
  else if (linesz <? 8) || negb (Z.land linesz (wrap64 (linesz - 1)) =? 0)
  then inl usage_exit
  else
    let idx_shift := idx_shift_loop 64 linesz 0 in
    let n := wrap64 (sets * ways) in
    if max_array_length <=? n then inl bad_alloc
    else inr (mk_cache lfsr_t.new None sets ways linesz idx_shift
                (replicate (Z.to_nat n) 0) 0 0 0 0 0 0 0 name false fa).

(** [cache_sim_t::cache_sim_t(sets, ways, linesz, name)] *)
Definition new_cache_sim_t (sets ways linesz : Z) (name : string)
  : failure + cache :=
  init sets ways linesz name None.

(** [fa_cache_sim_t::fa_cache_sim_t(ways, linesz, name)
      : cache_sim_t(1, ways, linesz, name)] with an empty map. *)
Definition new_fa_cache_sim_t (ways linesz : Z) (name : string)
  : failure + cache :=
  init 1 ways linesz name (Some []).

(** [cache_sim_t::construct].  [config] holds the characters of the C
    string, none of which is NUL. *)
Definition construct (config name : string) : failure + cache :=
  match strchr config ":" with
  | None => inl usage_exit
  | Some i =>
      let wp := S i in
      match strchr (string_from wp config) ":" with
      | None => inl usage_exit
      | Some j =>
          let bp := (wp + S j)%nat in
          match atoi (string_range 0 wp config),
                atoi (string_range wp bp config),
                atoi (string_from bp config) with
          | Some s, Some w, Some l =>
              let sets := size_t_of_int s in
              let ways := size_t_of_int w in
              let linesz := size_t_of_int l in
              if (4 <? ways) && (sets =? 1)
              then new_fa_cache_sim_t ways linesz name
              else new_cache_sim_t sets ways linesz name
          | _, _, _ => inl undefined_atoi
          end
      end
  end.

(** The members the copy constructor leaves uninitialised hold
    indeterminate values: they are a parameter of the copy. *)
Record indeterminate : Type := mk_indeterminate {
  i_miss_handler : option N;
  i_read_accesses : Z;
  i_read_misses : Z;
  i_bytes_read : Z;
  i_write_accesses : Z;
  i_write_misses : Z;
  i_bytes_written : Z;
  i_writebacks : Z
}.

(** [cache_sim_t::cache_sim_t(const cache_sim_t& rhs)
      : sets(rhs.sets), ways(rhs.ways), linesz(rhs.linesz),
        idx_shift(rhs.idx_shift), name(rhs.name), log(false)]
    with [tags = new uint64_t[sets*ways]] and a [memcpy] of the whole array.  [lfsr] is not
    named and is default-constructed.  The object constructed is a
    [cache_sim_t]: the map of an [fa_cache_sim_t] is no member of the
    base class, so a fully-associative source is sliced and the copy
    is a set-associative engine over the array of the base class. *)
Definition copy (u : indeterminate) (rhs : cache) : cache :=
  mk_cache lfsr_t.new (i_miss_handler u)
    (sets rhs) (ways rhs) (linesz rhs) (idx_shift rhs)
    (take (Z.to_nat (wrap64 (sets rhs * ways rhs))) (tags rhs))
    (i_read_accesses u) (i_read_misses u) (i_bytes_read u)
    (i_write_accesses u) (i_write_misses u) (i_bytes_written u)
    (i_writebacks u)
    (name rhs) false None.

(** The copy constructor of [fa_cache_sim_t], which the class does not
    declare and the compiler defines: the constructor above for the
    base class, then a copy of the member [std::map<uint64_t, uint64_t> tags]. *)
Definition fa_copy (u : indeterminate) (rhs : cache) : cache :=
  set_fa_tags (copy u rhs) (fa_tags rhs).

(** *** Tag lookup and replacement *)

(** The line tag of an address: [addr >> idx_shift]. *)
Definition line_tag (c : cache) (addr : Z) : Z := Z.shiftr addr (idx_shift c).

(** [(addr >> idx_shift) & (sets-1)] *)
Definition set_index (c : cache) (addr : Z) : Z :=
  Z.land (Z.shiftr addr (idx_shift c)) (wrap64 (sets c - 1)).

(** The loop of [cache_sim_t::check_tag]:
    [for (size_t i = 0; i < ways; i++)
       if (tag == (tags[idx*ways + i] & ~DIRTY)) return &tags[idx*ways + i];
     return NULL;]
    [n] counts the rounds still to run, [base] is [idx*ways]. *)
Fixpoint scan_ways (tags : list Z) (tag base i : Z) (n : nat)
  : option (option slot) :=
  match n with
  | O => Some None
  | S n' =>
      let pos := Z.to_nat (wrap64 (base + i)) in
      t ← tags !! pos;
      if tag =? Z.land t (Z.lnot DIRTY) then Some (Some (array_slot pos))
      else scan_ways tags tag base (i + 1) n'
  end.

  (** [uint64_t* cache_sim_t::check_tag(uint64_t addr)] *)
Definition cache_sim_t_check_tag (c : cache) (addr : Z) : option (option slot) :=
  let idx := set_index c addr in
  let tag := Z.lor (Z.shiftr addr (idx_shift c)) VALID in
  scan_ways (tags c) tag (wrap64 (idx * ways c)) 0 (Z.to_nat (ways c)).

(** [uint64_t cache_sim_t::victimize(uint64_t addr)] *)
Definition cache_sim_t_victimize (c : cache) (addr : Z) : option (Z * cache) :=
  let idx := set_index c addr in
  let '(r, l) := lfsr_t.next (lfsr c) in
  if ways c =? 0 then None
  else
    let way := r mod ways c in
    let pos := Z.to_nat (wrap64 (wrap64 (idx * ways c) + way)) in
    victim ← tags c !! pos;
    Some (victim,
          set_tags (set_lfsr c l)
            (<[pos := Z.lor (Z.shiftr addr (idx_shift c)) VALID]> (tags c))).

(** [uint64_t* fa_cache_sim_t::check_tag(uint64_t addr)] *)
Definition fa_cache_sim_t_check_tag (c : cache) (m : std_map) (addr : Z)
  : option (option slot) :=
  let k := Z.shiftr addr (idx_shift c) in
  match std_map.find k m with
  | None => Some None
  | Some _ => Some (Some (map_slot k))
  end.

(** [uint64_t fa_cache_sim_t::victimize(uint64_t addr)] *)
Definition fa_cache_sim_t_victimize (c : cache) (m : std_map) (addr : Z)
  : option (Z * cache) :=
  '(old_tag, c, m) ←
    (if std_map.size m =? ways c then
       let '(r, l) := lfsr_t.next (lfsr c) in
       if ways c =? 0 then None
       else
         let n := Z.to_nat (r mod ways c) in
         it ← std_map.at_offset n m;
         Some (snd it, set_lfsr c l, std_map.erase n m)
     else Some (0, c, m));
  let k := Z.shiftr addr (idx_shift c) in
  Some (old_tag, set_fa_tags c (Some (std_map.set k (Z.lor k VALID) m))).

(** The virtual calls, resolved on the dynamic type. *)
Definition check_tag (c : cache) (addr : Z) : option (option slot) :=
  match fa_tags c with
  | None => cache_sim_t_check_tag c addr
  | Some m => fa_cache_sim_t_check_tag c m addr
  end.

Definition victimize (c : cache) (addr : Z) : option (Z * cache) :=
  match fa_tags c with
  | None => cache_sim_t_victimize c addr
  | Some m => fa_cache_sim_t_victimize c m addr
  end.

(** Reading and writing through a [uint64_t*] returned by [check_tag]. *)
Definition load (c : cache) (p : slot) : option Z :=
  match p with
  | array_slot i => tags c !! i
  | map_slot k => m ← fa_tags c; std_map.find k m
  end.

Definition store (c : cache) (p : slot) (v : Z) : option cache :=
  match p with
  | array_slot i =>
      _ ← tags c !! i; Some (set_tags c (<[i := v]> (tags c)))
  | map_slot k =>
      m ← fa_tags c; _ ← std_map.find k m;
      Some (set_fa_tags c (Some (std_map.set k v m)))
  end.

(** [*p |= DIRTY], [*p &= ~DIRTY], [*p &= ~VALID] *)
Definition or_into (c : cache) (p : slot) (mask : Z) : option cache :=
  v ← load c p; store c p (Z.lor v mask).

Definition and_not_into (c : cache) (p : slot) (mask : Z) : option cache :=
  v ← load c p; store c p (Z.land v (Z.lnot mask)).

(** *** Accesses *)

Context {MH : MissHandler N}.

(** [if (miss_handler) miss_handler->f(...)] *)
Definition to_miss_handler (c : cache) (f : N -> option N) : option cache :=
  match miss_handler c with
  | None => Some c
  | Some n => n' ← f n; Some (set_miss_handler c (Some n'))
  end.

(** [store ? write_accesses++ : read_accesses++;
     (store ? bytes_written : bytes_read) += bytes;] *)
Definition count_access (c : cache) (bytes : Z) (is_store : bool) : cache :=
  let c := if is_store then set_write_accesses c (wrap64 (write_accesses c + 1))
           else set_read_accesses c (wrap64 (read_accesses c + 1)) in
  if is_store then set_bytes_written c (wrap64 (bytes_written c + bytes))
  else set_bytes_read c (wrap64 (bytes_read c + bytes)).

(** [store ? write_misses++ : read_misses++;] *)
Definition count_miss (c : cache) (is_store : bool) : cache :=
  if is_store then set_write_misses c (wrap64 (write_misses c + 1))
  else set_read_misses c (wrap64 (read_misses c + 1)).

(** [(victim & ~(VALID | DIRTY)) << idx_shift] *)
Definition dirty_addr (c : cache) (victim : Z) : Z :=
  wrap64 (Z.shiftl (Z.land victim (Z.lnot (Z.lor VALID DIRTY))) (idx_shift c)).

(** [addr & ~(linesz-1)] *)
Definition line_addr (c : cache) (addr : Z) : Z :=
  Z.land addr (Z.lnot (wrap64 (linesz c - 1))).

(** [void cache_sim_t::access(uint64_t addr, size_t bytes, bool store)] *)
Definition access (c : cache) (addr bytes : Z) (is_store : bool) : option cache :=
  let c := count_access c bytes is_store in
  hit_way ← check_tag c addr;
  match hit_way with
  | Some p => if is_store then or_into c p DIRTY else Some c
  | None =>
      let c := count_miss c is_store in
      '(victim, c) ← victimize c addr;
      c ← (if Z.land victim (Z.lor VALID DIRTY) =? Z.lor VALID DIRTY then
             c ← to_miss_handler c
                   (fun n => mh_access n (dirty_addr c victim) (linesz c) true);
             Some (set_writebacks c (wrap64 (writebacks c + 1)))
           else Some c);
      c ← to_miss_handler c
            (fun n => mh_access n (line_addr c addr) (linesz c) false);
      if is_store then
        p ← check_tag c addr;
        match p with
        | Some p => or_into c p DIRTY
        | None => None
        end
      else Some c
  end.

(** The body of the loop of [clean_invalidate] at [cur_addr]. *)
Definition clean_invalidate_line (c : cache) (cur_addr : Z) (clean inval : bool)
  : option cache :=
  hit_way ← check_tag c cur_addr;
  match hit_way with
  | Some p =>
      c ← (if clean then
             v ← load c p;
             if negb (Z.land v DIRTY =? 0) then
               and_not_into (set_writebacks c (wrap64 (writebacks c + 1))) p DIRTY
             else Some c
           else Some c);
      if inval then and_not_into c p VALID else Some c
  | None => Some c
  end.

(** [while (cur_addr < end_addr) { ...; cur_addr += linesz; }]
    with at most [rounds] rounds. *)
Fixpoint clean_invalidate_loop (rounds : nat) (c : cache)
    (cur_addr end_addr : Z) (clean inval : bool) : option cache :=
  match rounds with
  | O => Some c
  | S rounds' =>
      if cur_addr <? end_addr then
        c ← clean_invalidate_line c cur_addr clean inval;
        clean_invalidate_loop rounds' c (wrap64 (cur_addr + linesz c))
          end_addr clean inval
      else Some c
  end.

(** [uint64_t start_addr = addr & ~(linesz-1);]
    [uint64_t end_addr = (addr + bytes + linesz-1) & ~(linesz-1);] *)
Definition start_addr (c : cache) (addr : Z) : Z := line_addr c addr.

Definition end_addr (c : cache) (addr bytes : Z) : Z :=
  Z.land (wrap64 (addr + bytes + linesz c - 1)) (Z.lnot (wrap64 (linesz c - 1))).

(** The number of rounds the loop runs before [cur_addr < end_addr]
    fails: the lines between the two bounds. *)
Definition rounds (c : cache) (addr bytes : Z) : nat :=
  Z.to_nat ((end_addr c addr bytes - start_addr c addr) / linesz c).

(** [void cache_sim_t::clean_invalidate(uint64_t addr, size_t bytes,
                                        bool clean, bool inval)] *)
Definition clean_invalidate (c : cache) (addr bytes : Z) (clean inval : bool)
  : option cache :=
  c ← clean_invalidate_loop (rounds c addr bytes) c
        (start_addr c addr) (end_addr c addr bytes) clean inval;
  to_miss_handler c (fun n => mh_clean_invalidate n addr bytes clean inval).

End Engine.

(** ** Hierarchies *)

(** An engine is itself a next level: [miss_handler->access(...)] and
    [miss_handler->clean_invalidate(...)] are calls of the same methods. *)
#[export] Instance cache_miss_handler {N : Type} {MH : MissHandler N}
  : MissHandler (cache_sim_t N) :=
  {| mh_access := access; mh_clean_invalidate := clean_invalidate |}.

(** The last level of a chain points to nothing. *)
#[export] Instance no_miss_handler : MissHandler Empty_set :=
  {| mh_access := fun (n : Empty_set) _ _ _ => match n with end;
     mh_clean_invalidate := fun (n : Empty_set) _ _ _ _ => match n with end |}.

(** A next level that only records the calls it receives, in order. *)
#[export] Instance recorder : MissHandler (list call) :=
  {| mh_access := fun n addr bytes st => Some (n ++ [call_access addr bytes st]);
     mh_clean_invalidate := fun n addr bytes clean inval =>
       Some (n ++ [call_clean_invalidate addr bytes clean inval]) |}.

(** A chain of [S n] engines, first level outermost. *)
Fixpoint hierarchy (n : nat) : Type :=
  match n with
  | O => cache_sim_t Empty_set
  | S n' => cache_sim_t (hierarchy n')
  end.

(** Delivering a sequence of calls to a next level, one after the other. *)
Definition deliver {N : Type} {MH : MissHandler N} (n : N) (k : call) : option N :=
  match k with
  | call_access addr bytes st => mh_access n addr bytes st
  | call_clean_invalidate addr bytes clean inval =>
      mh_clean_invalidate n addr bytes clean inval
  end.

Fixpoint deliver_all {N : Type} {MH : MissHandler N} (n : N) (ks : list call)
  : option N :=
  match ks with
  | [] => Some n
  | k :: ks' => n' ← deliver n k; deliver_all n' ks'
  end.

(** What the next level of [c] becomes when [c] issues the calls [ks] to
    it; nothing is issued through a null [miss_handler]. *)
Definition issued {N : Type} {MH : MissHandler N} (mh : option N) (ks : list call)
  : option (option N) :=
  match mh with
  | None => Some None
  | Some n => Some <$> deliver_all n ks
  end.

(** ** Engine states *)

(** The facts about an engine that construction establishes and every
    operation keeps. *)
Record well_formed {N : Type} (c : cache_sim_t N) : Prop := mk_well_formed {
  wf_sets : 1 <= sets c < 2 ^ 64;
  wf_ways : 0 <= ways c;
  wf_size : sets c * ways c < max_array_length;
  wf_idx_shift : 3 <= idx_shift c < 64;
  wf_linesz : linesz c = 2 ^ idx_shift c;
  wf_tags : Z.of_nat (length (tags c)) = sets c * ways c;
  wf_lfsr : is_u32 (lfsr_t.reg (lfsr c));
  wf_fa : match fa_tags c with
          | None => True
          | Some m => std_map.ordered m /\ std_map.size m <= ways c
          end
}.

(** The states an engine obtained from the factory can be in. *)
Inductive reachable {N : Type} {MH : MissHandler N} : cache_sim_t N -> Prop :=
| reach_construct config name c :
    construct config name = inr c -> reachable c
| reach_access c addr bytes is_store c' :
    reachable c -> is_u64 addr -> is_u64 bytes ->
    access c addr bytes is_store = Some c' -> reachable c'
| reach_clean_invalidate c addr bytes clean inval c' :
    reachable c -> is_u64 addr -> is_u64 bytes ->
    clean_invalidate c addr bytes clean inval = Some c' -> reachable c'
| reach_set_log c b :
    reachable c -> reachable (set_log c b)
| reach_set_miss_handler c mh :
    reachable c -> reachable (set_miss_handler c mh)
| reach_copy u c :
    reachable c -> reachable (copy u c)
| reach_fa_copy u c m :
    reachable c -> fa_tags c = Some m -> reachable (fa_copy u c).

(** The variant the factory chose. *)
Definition is_fully_associative {N : Type} (c : cache_sim_t N) : bool :=
  match fa_tags c with Some _ => true | None => false end.

(** The value of the slot an address hits, if it hits. *)
Definition resident_entry {N : Type} (c : cache_sim_t N) (addr : Z) : option Z :=
  match check_tag c addr with
  | Some (Some p) => load c p
  | _ => None
  end.

Definition is_hit {N : Type} (c : cache_sim_t N) (addr : Z) : Prop :=
  exists p, check_tag c addr = Some (Some p).

Definition is_miss {N : Type} (c : cache_sim_t N) (addr : Z) : Prop :=
  check_tag c addr = Some None.

Definition has_flag (v flag : Z) : bool := negb (Z.land v flag =? 0).

(** ** The configuration as [construct] reads it *)

(** The three character sequences handed to [atoi]: from the start of the
    configuration through the first colon, from there through the second
    colon, and the rest.  [None] when a separator is missing. *)
Definition config_fields (config : string) : option (string * string * string) :=
  i ← strchr config ":";
  j ← strchr (string_from (S i) config) ":";
  Some (string_range 0 (S i) config,
        string_range (S i) (S i + S j) config,
        string_from (S i + S j) config).

(** The parsed configuration (sets, ways, linesz) as [size_t] values. *)
Definition parsed (config : string) : option (Z * Z * Z) :=
  '(a, b, c) ← config_fields config;
  s ← atoi a; w ← atoi b; l ← atoi c;
  Some (size_t_of_int s, size_t_of_int w, size_t_of_int l).

(** The number a field denotes: leading white space, an optional sign,
    then the value of the leading decimal digits, 0 when there is none.
    [atoi] returns it when it fits [int]. *)
Definition field_value (s : string) : Z :=
  let s := skip_spaces s in
  let '(neg, s) :=
    match s with
    | String "-"%char r => (true, r)
    | String "+"%char r => (false, r)
    | _ => (false, s)
    end in
  let v := read_digits 0 s in
  if neg then - v else v.

Definition fits_int (v : Z) : Prop := INT_MIN <= v <= INT_MAX.

Definition power_of_two (x : Z) : Prop := exists k, 0 <= k /\ x = 2 ^ k.

(** Whether the word [t] of a slot compares equal to the candidate [tag]:
    the test [tag == (t & ~DIRTY)] of [cache_sim_t::check_tag]. *)
Definition compares (tag t : Z) : bool := tag =? Z.land t (Z.lnot DIRTY).

#[export] Instance slot_eq_dec : EqDecision slot.
Proof. solve_decision. Defined.

(** The seven statistics counters, in the order of their declaration. *)
Definition statistics {N : Type} (c : cache_sim_t N)
  : Z * Z * Z * Z * Z * Z * Z :=
  (read_accesses c, read_misses c, bytes_read c,
   write_accesses c, write_misses c, bytes_written c, writebacks c).

(** The calls a missing access makes to the next level: the write of the
    evicted line when it was valid and dirty, then the fetch. *)
Definition miss_calls {N : Type} (c : cache_sim_t N) (addr victim : Z) : list call :=
  (if Z.testbit victim 63 && Z.testbit victim 62
   then [call_access (dirty_addr c victim) (linesz c) true]
   else [])
  ++ [call_access (line_addr c addr) (linesz c) false].

(** ** Scenarios

    An engine built by the factory, linked to a recording next level,
    after a sequence of calls. *)
Definition scenario (config : string) (ops : list call)
  : option (cache_sim_t (list call)) :=
  match construct config "D$" with
  | inr c => deliver_all (set_miss_handler c (Some [])) ops
  | inl _ => None
  end.

(** The arguments of a call are 64-bit values. *)
Definition call_u64 (k : call) : Prop :=
  match k with
  | call_access addr bytes _ => is_u64 addr /\ is_u64 bytes
  | call_clean_invalidate addr bytes _ _ => is_u64 addr /\ is_u64 bytes
  end.

(** ** Vocabulary for [clean_invalidate] *)

(** The addresses [cur_addr] takes in the loop, in order. *)
Definition visited_lines {N : Type} (c : cache_sim_t N) (addr bytes : Z) : list Z :=
  (fun k => start_addr c addr + Z.of_nat k * linesz c) <$> seq 0 (rounds c addr bytes).

(** The loop body applied to a list of addresses in turn. *)
Fixpoint clean_invalidate_lines {N : Type} (c : cache_sim_t N) (lines : list Z)
    (clean inval : bool) : option (cache_sim_t N) :=
  match lines with
  | [] => Some c
  | a :: rest =>
      c' ← clean_invalidate_line c a clean inval;
      clean_invalidate_lines c' rest clean inval
  end.

(** The slot an address hits. *)
Definition slot_of {N : Type} (c : cache_sim_t N) (addr : Z) : option slot :=
  match check_tag c addr with
  | Some (Some p) => Some p
  | _ => None
  end.

(** Whether [p] is the slot of one of the addresses. *)
Definition touched {N : Type} (c : cache_sim_t N) (lines : list Z) (p : slot) : bool :=
  existsb (fun a => bool_decide (slot_of c a = Some p)) lines.

(** The address hits a slot whose DIRTY is set. *)
Definition resident_dirty {N : Type} (c : cache_sim_t N) (addr : Z) : bool :=
  match resident_entry c addr with
  | Some v => has_flag v DIRTY
  | None => false
  end.

(** What the loop body makes of the word of a slot it hits. *)
Definition maintained (clean inval : bool) (v : Z) : Z :=
  let v := if clean && has_flag v DIRTY then Z.land v (Z.lnot DIRTY) else v in
  if inval then Z.land v (Z.lnot VALID) else v.

(** A counter incremented [k] times. *)
Definition incremented (k : nat) (counter : Z) : Z :=
  Nat.iter k (fun w => wrap64 (w + 1)) counter.

(** How many of the addresses hit a slot whose DIRTY is set. *)
Definition dirty_lines {N : Type} (c : cache_sim_t N) (lines : list Z) : nat :=
  length (List.filter (resident_dirty c) lines).

(** The line of the address is resident: the lookup finds it in a slot
    that has VALID. *)
Definition resident {N : Type} (c : cache_sim_t N) (addr : Z) : bool :=
  match resident_entry c addr with
  | Some v => Z.testbit v 63
  | None => false
  end.

(** The line of the address is resident and its slot has DIRTY. *)
Definition resident_and_dirty {N : Type} (c : cache_sim_t N) (addr : Z) : bool :=
  match resident_entry c addr with
  | Some v => Z.testbit v 63 && Z.testbit v 62
  | None => false
  end.

(** How many of the addresses are those of resident dirty lines. *)
Definition resident_dirty_lines {N : Type} (c : cache_sim_t N) (lines : list Z) : nat :=
  length (List.filter (resident_and_dirty c) lines).

(** The lookup finds none of the addresses in a slot without VALID. *)
Definition found_valid {N : Type} (c : cache_sim_t N) (lines : list Z) : Prop :=
  forall a p v, a ∈ lines -> check_tag c a = Some (Some p) -> load c p = Some v ->
                Z.testbit v 63 = true.

(** The state [c] of an engine that started the loop of
    [clean_invalidate] in state [c0] and has run the rounds of the
    addresses [done]. *)
Record maintained_from {N : Type} (c0 c : cache_sim_t N)
    (clean inval : bool) (done : list Z) : Prop := mk_maintained_from {
  mf_well_formed : well_formed c;
  mf_shape : c = set_fa_tags (set_tags (set_writebacks c0 (writebacks c)) (tags c))
                   (fa_tags c);
  mf_variant : is_fully_associative c = is_fully_associative c0;
  mf_writebacks :
    writebacks c = incremented (if clean then dirty_lines c0 done else O) (writebacks c0);
  mf_load : forall q v, load c0 q = Some v ->
    load c q = Some (if touched c0 done q then maintained clean inval v else v);
  mf_check_tag_clean : inval = false -> forall b, check_tag c b = check_tag c0 b;
  mf_check_tag : forall b, is_u64 b -> line_tag c0 b ∉ (line_tag c0 <$> done) ->
    check_tag c b = check_tag c0 b
}.

(** ** The tracer adapters (riscv/cachesim.h) *)

(** Modelled from the spec: the enumeration [access_type] of
    [memtracer.h], which is not among the sources; its kinds are the
    three the adapters test for. *)
Inductive access_type : Type := LOAD | STORE | FETCH.

#[export] Instance access_type_eq_dec : EqDecision access_type.
Proof. solve_decision. Defined.

(** [cache_memtracer_t]: the adapter owns one engine, [cache]. *)
Record cache_memtracer_t (N : Type) : Type := mk_memtracer {
  cache : cache_sim_t N
}.

Arguments mk_memtracer {N}.
Arguments cache {N}.

(** [cache_memtracer_t(const char* config, const char* name)
      { cache = cache_sim_t::construct(config, name); }] *)
Definition new_cache_memtracer_t {N : Type} (config name : string)
  : failure + cache_memtracer_t N :=
  match construct config name with
  | inr c => inr (mk_memtracer c)
  | inl f => inl f
  end.

(** [icache_sim_t::interested_in_range]: [return type == FETCH;]
    The two addresses are not used. *)
Definition icache_sim_t_interested_in_range (begin_ end_ : Z) (type : access_type)
  : bool :=
  bool_decide (type = FETCH).

(** [icache_sim_t::trace]:
    [if (type == FETCH) cache->access(addr, bytes, false);] *)
Definition icache_sim_t_trace {N : Type} {MH : MissHandler N}
    (t : cache_memtracer_t N) (addr bytes : Z) (type : access_type)
  : option (cache_memtracer_t N) :=
  if bool_decide (type = FETCH)
  then mk_memtracer <$> access (cache t) addr bytes false
  else Some t.

(** [dcache_sim_t::interested_in_range]:
    [return type == LOAD || type == STORE;] *)
Definition dcache_sim_t_interested_in_range (begin_ end_ : Z) (type : access_type)
  : bool :=
  bool_decide (type = LOAD) || bool_decide (type = STORE).

(** [dcache_sim_t::trace]:
    [if (type == LOAD || type == STORE) cache->access(addr, bytes, type == STORE);] *)
Definition dcache_sim_t_trace {N : Type} {MH : MissHandler N}
    (t : cache_memtracer_t N) (addr bytes : Z) (type : access_type)
  : option (cache_memtracer_t N) :=
  if bool_decide (type = LOAD) || bool_decide (type = STORE)
  then mk_memtracer <$> access (cache t) addr bytes (bool_decide (type = STORE))
  else Some t.

(** The pass-through methods of [cache_memtracer_t]. *)
Definition memtracer_set_miss_handler {N : Type}
    (t : cache_memtracer_t N) (mh : option N) : cache_memtracer_t N :=
  mk_memtracer (set_miss_handler (cache t) mh).

Definition memtracer_set_log {N : Type}
    (t : cache_memtracer_t N) (v : bool) : cache_memtracer_t N :=
  mk_memtracer (set_log (cache t) v).

Definition memtracer_clean_invalidate {N : Type} {MH : MissHandler N}
    (t : cache_memtracer_t N) (addr bytes : Z) (clean inval : bool)
  : option (cache_memtracer_t N) :=
  mk_memtracer <$> clean_invalidate (cache t) addr bytes clean inval.

(** A memory event offered by the dispatcher. *)
Record event : Type := mk_event {
  ev_addr : Z;
  ev_bytes : Z;
  ev_type : access_type
}.

(** The events of a trace offered to the instruction-cache adapter, one
    after the other. *)
Fixpoint icache_trace_all {N : Type} {MH : MissHandler N}
    (t : cache_memtracer_t N) (evs : list event) : option (cache_memtracer_t N) :=
  match evs with
  | [] => Some t
  | e :: rest =>
      t' ← icache_sim_t_trace t (ev_addr e) (ev_bytes e) (ev_type e);
      icache_trace_all t' rest
  end.

(** The events of a trace offered to the data-cache adapter. *)
Fixpoint dcache_trace_all {N : Type} {MH : MissHandler N}
    (t : cache_memtracer_t N) (evs : list event) : option (cache_memtracer_t N) :=
  match evs with
  | [] => Some t
  | e :: rest =>
      t' ← dcache_sim_t_trace t (ev_addr e) (ev_bytes e) (ev_type e);
      dcache_trace_all t' rest
  end.

(** How many events of a trace have the given type. *)
Definition count_events (type : access_type) (evs : list event) : nat :=
  length (List.filter (fun e => bool_decide (ev_type e = type)) evs).

(** ** More vocabulary *)

(** The tag store of an engine: the array and, if any, the map. *)
Definition tag_store {N : Type} (c : cache_sim_t N) : list Z * option std_map :=
  (tags c, fa_tags c).

(** The configuration of an engine and the fields no access changes. *)
Definition configuration {N : Type} (c : cache_sim_t N)
  : Z * Z * Z * Z * string * bool :=
  (sets c, ways c, linesz c, idx_shift c, name c, log c).

(** No slot has DIRTY set. *)
Definition no_dirty {N : Type} (c : cache_sim_t N) : Prop :=
  forall p v, load c p = Some v -> Z.testbit v 62 = false.

(** A next level, if there is one, is in a state that is [ready]. *)
Definition next_ready {N : Type} (ready : N -> Prop) (mh : option N) : Prop :=
  match mh with
  | None => True
  | Some n => ready n
  end.

(** An engine that is well formed and has at least one way, before a
    next level that is [ready]. *)
Definition level_ready {N : Type} (ready : N -> Prop) (c : cache_sim_t N) : Prop :=
  well_formed c /\ 0 < ways c /\ next_ready ready (miss_handler c).

(** A chain of engines in which every level is well formed and has at
    least one way. *)
Fixpoint chain_ready (n : nat) : hierarchy n -> Prop :=
  match n with
  | O => fun c => level_ready (fun _ => True) c
  | S n' => fun c => level_ready (chain_ready n') c
  end.

(** The methods a chain offers, level by level. *)
Fixpoint hierarchy_handler (n : nat) : MissHandler (hierarchy n) :=
  match n with
  | O => @cache_miss_handler Empty_set no_miss_handler
  | S n' => @cache_miss_handler (hierarchy n') (hierarchy_handler n')
  end.

(** The six counters of accesses, in the order of their declaration:
    [statistics] without [writebacks]. *)
Definition access_statistics {N : Type} (c : cache_sim_t N)
  : Z * Z * Z * Z * Z * Z :=
  (read_accesses c, read_misses c, bytes_read c,
   write_accesses c, write_misses c, bytes_written c).

(** The misses of both directions. *)
Definition misses {N : Type} (c : cache_sim_t N) : Z :=
  read_misses c + write_misses c.

(** No two ways of a set of a set-associative engine hold the same valid
    line: a word with VALID agrees with no other word of its set once
    DIRTY is masked off. *)
Definition unique_ways {N : Type} (c : cache_sim_t N) : Prop :=
  fa_tags c = None ->
  forall idx j j' t t',
    0 <= idx < sets c -> 0 <= j < ways c -> 0 <= j' < ways c ->
    tags c !! Z.to_nat (idx * ways c + j) = Some t ->
    tags c !! Z.to_nat (idx * ways c + j') = Some t' ->
    Z.testbit t 63 = true ->
    Z.land t (Z.lnot DIRTY) = Z.land t' (Z.lnot DIRTY) ->
    j = j'.

(** The array of the base class is not used by a fully-associative
    engine, whose lines are in the map: it holds the zeros [init] wrote. *)
Definition base_array_unused {N : Type} (c : cache_sim_t N) : Prop :=
  is_fully_associative c = true ->
  forall i t, tags c !! i = Some t -> t = 0.

(** * Properties *)

(** ** Bits of tag words *)

Lemma VALID_eq : VALID = 2 ^ 63.
Proof. reflexivity. Qed.

Lemma DIRTY_eq : DIRTY = 2 ^ 62.
Proof. reflexivity. Qed.

Lemma testbit_VALID i : Z.testbit VALID i = (i =? 63).
Proof.
  rewrite VALID_eq. destruct (Z.ltb_spec i 0).
  - rewrite Z.testbit_neg_r by lia. symmetry. apply Z.eqb_neq. lia.
  - rewrite Z.pow2_bits_eqb by lia. apply Z.eqb_sym.
Qed.

Lemma testbit_DIRTY i : Z.testbit DIRTY i = (i =? 62).
Proof.
  rewrite DIRTY_eq. destruct (Z.ltb_spec i 0).
  - rewrite Z.testbit_neg_r by lia. symmetry. apply Z.eqb_neq. lia.
  - rewrite Z.pow2_bits_eqb by lia. apply Z.eqb_sym.
Qed.

Lemma testbit_above x n i : 0 <= x < 2 ^ n -> n <= i -> Z.testbit x i = false.
Proof.
  intros [H0 H1] Hi.
  destruct (Z.eq_dec x 0) as [->|Hx]; [apply Z.testbit_0_l|].
  apply Z.bits_above_log2; [lia|].
  assert (0 <= n) by (destruct (Z.le_gt_cases 0 n); [lia|]; rewrite Z.pow_neg_r in H1; lia).
  assert (Z.log2 x < n) by (apply Z.log2_lt_pow2; lia). lia.
Qed.

(** Rewriting the bit at position [i] of a word built from the flags. *)
Ltac flag_bits :=
  repeat first
    [ rewrite Z.land_spec | rewrite Z.lor_spec | rewrite Z.lxor_spec
    | rewrite testbit_VALID | rewrite testbit_DIRTY
    | rewrite Z.lnot_spec by lia ].

Ltac by_bits i Hi := apply Z.bits_inj'; intros i Hi; flag_bits.

Lemma shiftr_u64_bound addr s :
  is_u64 addr -> 0 <= s -> 0 <= Z.shiftr addr s < 2 ^ (64 - s) \/ (64 < s /\ Z.shiftr addr s = 0).
Proof.
  intros [H0 H1] Hs. rewrite Z.shiftr_div_pow2 by lia.
  destruct (Z.le_gt_cases s 64).
  - left. split; [apply Z.div_pos; lia|].
    apply Z.div_lt_upper_bound; [lia|]. rewrite <- Z.pow_add_r by lia.
    replace (s + (64 - s)) with 64 by lia. lia.
  - right. split; [lia|]. apply Z.div_small. split; [lia|].
    assert (2 ^ 64 <= 2 ^ s) by (apply Z.pow_le_mono_r; lia). lia.
Qed.

Lemma tag_bound addr s :
  is_u64 addr -> 3 <= s -> 0 <= Z.shiftr addr s < 2 ^ 61.
Proof.
  intros Ha Hs. destruct (shiftr_u64_bound addr s Ha) as [[H0 H1]|[_ ->]]; [lia| |lia].
  split; [lia|]. assert (2 ^ (64 - s) <= 2 ^ 61); [|lia].
  destruct (Z.le_gt_cases s 64).
  - apply Z.pow_le_mono_r; lia.
  - rewrite Z.pow_neg_r by lia. lia.
Qed.

Lemma lor_VALID_add t : 0 <= t < 2 ^ 63 -> Z.lor t VALID = t + 2 ^ 63.
Proof.
  intros Ht. rewrite <- VALID_eq.
  assert (Hdisj : Z.land t VALID = 0).
  { by_bits i Hi. rewrite Z.testbit_0_l.
    destruct (Z.eqb_spec i 63) as [->|]; [|apply andb_false_r].
    rewrite (testbit_above t 63) by lia. reflexivity. }
  rewrite <- Z.lxor_lor by exact Hdisj.
  symmetry. apply Z.add_nocarry_lxor. exact Hdisj.
Qed.

Lemma lor_VALID_inj a b :
  0 <= a < 2 ^ 63 -> 0 <= b < 2 ^ 63 -> Z.lor a VALID = Z.lor b VALID -> a = b.
Proof. intros Ha Hb. rewrite !lor_VALID_add by lia. lia. Qed.

Lemma stored_tag_clean t :
  0 <= t < 2 ^ 62 -> Z.land (Z.lor t VALID) (Z.lnot DIRTY) = Z.lor t VALID.
Proof.
  intros Ht. by_bits i Hi.
  destruct (Z.eqb_spec i 62) as [->|].
  - rewrite (testbit_above t 62 62) by lia. reflexivity.
  - apply andb_true_r.
Qed.

Lemma land_lnot_DIRTY_idem v :
  Z.land (Z.land v (Z.lnot DIRTY)) (Z.lnot DIRTY) = Z.land v (Z.lnot DIRTY).
Proof. by_bits i Hi. destruct (Z.testbit v i), (i =? 62); reflexivity. Qed.

Lemma lor_DIRTY_compare v :
  Z.land (Z.lor v DIRTY) (Z.lnot DIRTY) = Z.land v (Z.lnot DIRTY).
Proof. by_bits i Hi. destruct (Z.testbit v i), (i =? 62); reflexivity. Qed.

Ltac flag_consts :=
  change (63 =? 63) with true; change (62 =? 62) with true;
  change (63 =? 62) with false; change (62 =? 63) with false;
  cbn [negb andb orb].

Lemma land_lnot_VALID_compare v t :
  Z.land (Z.land v (Z.lnot VALID)) (Z.lnot DIRTY) <> Z.lor t VALID.
Proof.
  intros H. apply (f_equal (fun x => Z.testbit x 63)) in H. revert H.
  cbv beta. flag_bits. flag_consts.
  rewrite andb_false_r, orb_true_r. discriminate.
Qed.

Lemma has_both_flags v :
  (Z.land v (Z.lor VALID DIRTY) =? Z.lor VALID DIRTY)
  = Z.testbit v 63 && Z.testbit v 62.
Proof.
  destruct (Z.eqb_spec (Z.land v (Z.lor VALID DIRTY)) (Z.lor VALID DIRTY)) as [H|H].
  - pose proof (f_equal (fun x => Z.testbit x 63) H) as H63.
    pose proof (f_equal (fun x => Z.testbit x 62) H) as H62.
    revert H63 H62. cbv beta. flag_bits. flag_consts.
    rewrite !andb_true_r. intros -> ->. reflexivity.
  - destruct (Z.testbit v 63) eqn:E63, (Z.testbit v 62) eqn:E62; trivial.
    exfalso. apply H. by_bits i Hi.
    destruct (Z.eqb_spec i 63) as [->|]; [rewrite E63; reflexivity|].
    destruct (Z.eqb_spec i 62) as [->|]; [rewrite E62; reflexivity|].
    apply andb_false_r.
Qed.

Lemma has_flag_testbit_DIRTY v : has_flag v DIRTY = Z.testbit v 62.
Proof.
  unfold has_flag.
  destruct (Z.eqb_spec (Z.land v DIRTY) 0) as [H|H]; cbn [negb].
  - apply (f_equal (fun x => Z.testbit x 62)) in H. revert H.
    cbv beta. flag_bits. rewrite Z.testbit_0_l. flag_consts.
    rewrite andb_true_r. auto.
  - destruct (Z.testbit v 62) eqn:E; trivial. exfalso. apply H.
    by_bits i Hi. rewrite Z.testbit_0_l.
    destruct (Z.eqb_spec i 62) as [->|]; [rewrite E; reflexivity|apply andb_false_r].
Qed.

(** ** The replacement generator *)

Lemma lxor_bound a b n : 0 <= n -> 0 <= a < 2 ^ n -> 0 <= b < 2 ^ n -> 0 <= Z.lxor a b < 2 ^ n.
Proof.
  intros Hn Ha Hb. assert (H0 : 0 <= Z.lxor a b) by (apply Z.lxor_nonneg; lia).
  split; [exact H0|].
  destruct (Z.eq_dec (Z.lxor a b) 0) as [->|Hne]; [lia|].
  assert (0 < n).
  { destruct (Z.eq_dec n 0) as [->|]; [|lia]. exfalso. apply Hne.
    change (2 ^ 0) with 1 in *. replace a with 0 by lia. replace b with 0 by lia.
    reflexivity. }
  apply Z.log2_lt_pow2; [lia|].
  assert (Hl : Z.log2 (Z.lxor a b) <= Z.max (Z.log2 a) (Z.log2 b)) by (apply Z.log2_lxor; lia).
  assert (Z.log2 a < n).
  { destruct (Z.eq_dec a 0) as [->|]; [simpl; lia|apply Z.log2_lt_pow2; lia]. }
  assert (Z.log2 b < n).
  { destruct (Z.eq_dec b 0) as [->|]; [simpl; lia|apply Z.log2_lt_pow2; lia]. }
  lia.
Qed.

Lemma land_1_odd r : Z.land r 1 = if Z.odd r then 1 else 0.
Proof.
  change 1 with (Z.ones 1) at 1. rewrite Z.land_ones by lia.
  change (2 ^ 1) with 2. rewrite Zmod_odd. reflexivity.
Qed.

Lemma shiftr_1_u32 r : is_u32 r -> 0 <= Z.shiftr r 1 < 2 ^ 32.
Proof.
  intros Hr. rewrite Z.shiftr_div_pow2 by lia. change (2 ^ 1) with 2.
  unfold is_u32 in Hr. split; [apply Z.div_pos; lia|].
  apply Z.div_lt_upper_bound; lia.
Qed.

(** The mask [-(reg&1) & 0xd0000001] is the polynomial or zero. *)
Lemma lfsr_mask r :
  Z.land (wrap32 (- Z.land r 1)) 0xd0000001 = if Z.testbit r 0 then 0xd0000001 else 0.
Proof. rewrite Z.bit0_odd, land_1_odd. destruct (Z.odd r); reflexivity. Qed.

Lemma lfsr_next_range (l : lfsr_t.t) :
  is_u32 (lfsr_t.reg l) ->
  is_u32 (fst (lfsr_t.next l)) /\ lfsr_t.reg (snd (lfsr_t.next l)) = fst (lfsr_t.next l).
Proof.
  intros Hreg. split; [|reflexivity].
  unfold lfsr_t.next. cbn [fst]. rewrite lfsr_mask.
  pose proof (shiftr_1_u32 _ Hreg) as Hs.
  destruct (Z.testbit (lfsr_t.reg l) 0).
  - apply lxor_bound; lia.
  - rewrite Z.lxor_0_r. exact Hs.
Qed.

(** C4. The generator starts from the register value 1; [next] shifts
    the 32-bit register right by one bit, XORs the result with
    0xD0000001 exactly when the bit shifted out was 1, stores that
    value and returns it; the value stays a 32-bit word. *)
Theorem lfsr_next_spec (l : lfsr_t.t) (Hreg : is_u32 (lfsr_t.reg l)) :
  lfsr_t.reg lfsr_t.new = 1 /\
  fst (lfsr_t.next l) =
    (if Z.testbit (lfsr_t.reg l) 0
     then Z.lxor (Z.shiftr (lfsr_t.reg l) 1) 0xD0000001
     else Z.shiftr (lfsr_t.reg l) 1) /\
  lfsr_t.reg (snd (lfsr_t.next l)) = fst (lfsr_t.next l) /\
  is_u32 (fst (lfsr_t.next l)).
Proof.
  split; [reflexivity|]. split.
  - unfold lfsr_t.next. cbn [fst]. rewrite lfsr_mask.
    destruct (Z.testbit (lfsr_t.reg l) 0); [reflexivity|apply Z.lxor_0_r].
  - destruct (lfsr_next_range l Hreg) as [Hr Hs]. split; assumption.
Qed.

Lemma lfsr_next_spec_witness :
  is_u32 (lfsr_t.reg lfsr_t.new) /\
  fst (lfsr_t.next lfsr_t.new) = 0xD0000001.
Proof.
  assert (H : is_u32 (lfsr_t.reg lfsr_t.new)) by (unfold is_u32; simpl; lia).
  split; [exact H|].
  destruct (lfsr_next_spec lfsr_t.new H) as (_ & -> & _). reflexivity.
Defined.

(** The first values drawn from a fresh generator. *)
Example lfsr_first_values :
  lfsr_t.run 4 lfsr_t.new = [0xD0000001; 0xB8000001; 0x8C000001; 0x96000001].
Proof. reflexivity. Qed.

(** ** Powers of two and the checks of [init] *)

Lemma wrap64_small x : is_u64 x -> wrap64 x = x.
Proof. intros H. apply Z.mod_small. exact H. Qed.

Lemma wrap64_range x : is_u64 (wrap64 x).
Proof. apply Z.mod_pos_bound. reflexivity. Qed.

Lemma land_pred_pow2 k : 0 <= k -> Z.land (2 ^ k) (2 ^ k - 1) = 0.
Proof.
  intros Hk. rewrite Z.sub_1_r, <- Z.ones_equiv, Z.land_ones by lia.
  apply Z.mod_same. apply Z.pow_nonzero; lia.
Qed.

Lemma pow2_of_land_pred x :
  0 < x -> Z.land x (x - 1) = 0 -> x = 2 ^ Z.log2 x.
Proof.
  intros Hx Hland.
  destruct (Z.log2_spec x Hx) as [Hlo Hhi].
  destruct (Z.eq_dec x (2 ^ Z.log2 x)) as [|Hne]; [assumption|exfalso].
  assert (Hpos : 0 < 2 ^ Z.log2 x) by (apply Z.pow_pos_nonneg; [lia|apply Z.log2_nonneg]).
  assert (Hpred : Z.log2 (x - 1) = Z.log2 x).
  { apply Z.log2_unique; [apply Z.log2_nonneg|]. lia. }
  assert (Hb1 : Z.testbit x (Z.log2 x) = true) by (apply Z.bit_log2; lia).
  assert (Hb2 : Z.testbit (x - 1) (Z.log2 x) = true).
  { rewrite <- Hpred at 1. apply Z.bit_log2. lia. }
  apply (f_equal (fun y => Z.testbit y (Z.log2 x))) in Hland.
  rewrite Z.land_spec, Hb1, Hb2, Z.testbit_0_l in Hland. discriminate.
Qed.

(** The check [x == 0 || (x & (x-1))] of [init] passes exactly for the
    powers of two. *)
Lemma pow2_check x :
  is_u64 x ->
  ((x =? 0) || negb (Z.land x (wrap64 (x - 1)) =? 0) = false
   <-> exists k, 0 <= k < 64 /\ x = 2 ^ k).
Proof.
  intros Hx. rewrite orb_false_iff, negb_false_iff, Z.eqb_neq, Z.eqb_eq. split.
  - intros [Hne Hland]. unfold is_u64 in Hx.
    rewrite wrap64_small in Hland by (unfold is_u64; lia).
    exists (Z.log2 x). split; [|apply pow2_of_land_pred; lia].
    split; [apply Z.log2_nonneg|]. apply Z.log2_lt_pow2; lia.
  - intros (k & Hk & ->).
    assert (0 < 2 ^ k) by (apply Z.pow_pos_nonneg; lia).
    split; [lia|]. rewrite wrap64_small by (unfold is_u64 in *; lia).
    apply land_pred_pow2. lia.
Qed.

Lemma idx_shift_loop_pow2 fuel k acc :
  0 <= k -> (Z.to_nat k <= fuel)%nat -> idx_shift_loop fuel (2 ^ k) acc = acc + k.
Proof.
  revert k acc. induction fuel as [|fuel IH]; intros k acc Hk Hfuel; cbn [idx_shift_loop].
  - replace k with 0 by lia. lia.
  - destruct (Z.ltb_spec 1 (2 ^ k)) as [Hlt|Hge].
    + assert (0 < k).
      { destruct (Z.eq_dec k 0) as [->|]; [simpl in Hlt; lia|lia]. }
      rewrite Z.shiftr_div_pow2 by lia.
      change (2 ^ 1) with 2.
      assert (Hk2 : 2 ^ k = 2 ^ (k - 1) * 2).
      { replace k with (Z.succ (k - 1)) at 1 by lia.
        rewrite Z.pow_succ_r by lia. lia. }
      rewrite Hk2.
      rewrite Z.div_mul by lia. rewrite IH by lia. lia.
    + destruct (Z.eq_dec k 0) as [->|]; [lia|].
      assert (2 ^ 1 <= 2 ^ k) by (apply Z.pow_le_mono_r; lia).
      change (2 ^ 1) with 2 in *. lia.
Qed.

Lemma pow2_ge_8 k : 0 <= k -> 8 <= 2 ^ k -> 3 <= k.
Proof.
  intros Hk H. destruct (Z.le_gt_cases 3 k); [assumption|].
  assert (2 ^ k <= 2 ^ 2) by (apply Z.pow_le_mono_r; lia).
  change (2 ^ 2) with 4 in *. lia.
Qed.

(** ** Lines *)

Lemma line_addr_shift {N} (c : cache_sim_t N) addr :
  3 <= idx_shift c < 64 -> linesz c = 2 ^ idx_shift c ->
  line_addr c addr = Z.shiftl (Z.shiftr addr (idx_shift c)) (idx_shift c).
Proof.
  intros Hs Hl. unfold line_addr. rewrite Hl.
  assert (Hp : 2 ^ idx_shift c < 2 ^ 64) by (apply Z.pow_lt_mono_r; lia).
  assert (0 < 2 ^ idx_shift c) by (apply Z.pow_pos_nonneg; lia).
  rewrite wrap64_small by (unfold is_u64; lia).
  rewrite Z.sub_1_r, <- Z.ones_equiv, <- Z.ldiff_land.
  apply Z.ldiff_ones_r. lia.
Qed.

Lemma shiftl_inj a b s : 0 <= s -> Z.shiftl a s = Z.shiftl b s -> a = b.
Proof.
  intros Hs. rewrite !Z.shiftl_mul_pow2 by lia. intros H.
  apply Z.mul_cancel_r in H; [assumption|]. apply Z.pow_nonzero; lia.
Qed.

Lemma same_line_iff {N} (c : cache_sim_t N) a b :
  3 <= idx_shift c < 64 -> linesz c = 2 ^ idx_shift c ->
  (line_addr c a = line_addr c b <-> line_tag c a = line_tag c b).
Proof.
  intros Hs Hl. rewrite !line_addr_shift by assumption. unfold line_tag. split.
  - apply shiftl_inj. lia.
  - intros ->. reflexivity.
Qed.

(** ** Construction *)

Section Construction.

Context {N : Type}.

Lemma construct_fields (config name : string) :
  construct (N:=N) config name =
    match config_fields config with
    | None => inl usage_exit
    | Some (a, b, c) =>
        match atoi a, atoi b, atoi c with
        | Some s, Some w, Some l =>
            if (4 <? size_t_of_int w) && (size_t_of_int s =? 1)
            then new_fa_cache_sim_t (size_t_of_int w) (size_t_of_int l) name
            else new_cache_sim_t (size_t_of_int s) (size_t_of_int w) (size_t_of_int l) name
        | _, _, _ => inl undefined_atoi
        end
    end.
Proof.
  unfold construct, config_fields.
  destruct (strchr config ":") as [i|]; cbn [mbind option_bind]; [|reflexivity].
  destruct (strchr (string_from (S i) config) ":") as [j|];
    cbn [mbind option_bind]; reflexivity.
Qed.

Lemma atoi_range s v : atoi s = Some v -> INT_MIN <= v <= INT_MAX.
Proof.
  unfold atoi.
  match goal with |- context [let '(neg, s) := ?m in _] => destruct m as [neg s'] end.
  destruct ((INT_MIN <=? _) && _) eqn:E; [|discriminate].
  intros [= <-]. apply andb_true_iff in E as [E1 E2].
  apply Z.leb_le in E1, E2. split; assumption.
Qed.

Lemma size_t_of_int_cases v :
  INT_MIN <= v <= INT_MAX ->
  (0 <= v /\ size_t_of_int v = v) \/
  (v < 0 /\ size_t_of_int v = 2 ^ 64 + v).
Proof.
  unfold INT_MIN, INT_MAX, size_t_of_int, wrap64. intros H.
  destruct (Z.le_gt_cases 0 v).
  - left. split; [assumption|]. apply Z.mod_small. lia.
  - right. split; [assumption|]. symmetry.
    apply (Z.mod_unique_pos v (2 ^ 64) (-1)); lia.
Qed.

Lemma size_t_of_int_range v : is_u64 (size_t_of_int v).
Proof. apply wrap64_range. Qed.

(** A power of two that is the image of an [int] is at most 2^30. *)
Lemma pow2_size_t_of_int v k :
  INT_MIN <= v <= INT_MAX -> 0 <= k < 64 -> size_t_of_int v = 2 ^ k ->
  0 < v /\ v = 2 ^ k /\ k <= 30.
Proof.
  intros Hv Hk He. unfold INT_MIN, INT_MAX in Hv.
  assert (0 < 2 ^ k) by (apply Z.pow_pos_nonneg; lia).
  destruct (size_t_of_int_cases v) as [[H0 E]|[H0 E]]; [exact Hv| |].
  - rewrite E in He. split; [lia|]. split; [assumption|].
    destruct (Z.le_gt_cases k 30); [assumption|].
    assert (2 ^ 31 <= 2 ^ k) by (apply Z.pow_le_mono_r; lia). lia.
  - rewrite E in He.
    assert (2 ^ k <= 2 ^ 63) by (apply Z.pow_le_mono_r; lia). lia.
Qed.

Lemma init_inr sets ways linesz name fa (c : cache_sim_t N) :
  is_u64 sets -> is_u64 linesz ->
  init sets ways linesz name fa = inr c ->
  (exists k, 0 <= k < 64 /\ sets = 2 ^ k) /\
  (exists s, 3 <= s < 64 /\ linesz = 2 ^ s /\ idx_shift c = s) /\
  wrap64 (sets * ways) < max_array_length /\
  c = mk_cache lfsr_t.new None sets ways linesz (idx_shift c)
        (replicate (Z.to_nat (wrap64 (sets * ways))) 0)
        0 0 0 0 0 0 0 name false fa.
Proof.
  intros Hs Hl. unfold init.
  destruct ((sets =? 0) || _) eqn:E1; [discriminate|].
  destruct ((linesz <? 8) || _) eqn:E2; [discriminate|].
  destruct (Z.leb_spec max_array_length (wrap64 (sets * ways))); [discriminate|].
  intros Heq. apply (inj inr) in Heq. subst c. cbn [idx_shift].
  apply pow2_check in E1; [|assumption].
  apply orb_false_iff in E2 as [E2a E2b]. apply Z.ltb_ge in E2a.
  assert (E2 : (linesz =? 0) || negb (Z.land linesz (wrap64 (linesz - 1)) =? 0) = false).
  { rewrite E2b, orb_false_r. apply Z.eqb_neq. lia. }
  apply pow2_check in E2 as (s & Hsr & ->); [|assumption].
  split; [assumption|]. split; [|split; [assumption|reflexivity]].
  exists s. rewrite idx_shift_loop_pow2 by lia.
  split; [|split; [reflexivity|lia]].
  split; [apply pow2_ge_8; lia|lia].
Qed.

Lemma init_succeeds sets ways linesz name fa k s :
  0 <= k < 64 -> sets = 2 ^ k -> 3 <= s < 64 -> linesz = 2 ^ s ->
  wrap64 (sets * ways) < max_array_length ->
  exists c : cache_sim_t N, init sets ways linesz name fa = inr c.
Proof.
  intros Hk -> Hs -> Hn. unfold init.
  assert (Hk64 : 2 ^ k < 2 ^ 64) by (apply Z.pow_lt_mono_r; lia).
  assert (Hs64 : 2 ^ s < 2 ^ 64) by (apply Z.pow_lt_mono_r; lia).
  assert (0 < 2 ^ k) by (apply Z.pow_pos_nonneg; lia).
  assert (2 ^ 3 <= 2 ^ s) by (apply Z.pow_le_mono_r; lia).
  change (2 ^ 3) with 8 in *.
  assert (E1 : (2 ^ k =? 0) || negb (Z.land (2 ^ k) (wrap64 (2 ^ k - 1)) =? 0) = false).
  { apply pow2_check; [unfold is_u64; lia|]. eauto. }
  assert (E2 : (2 ^ s =? 0) || negb (Z.land (2 ^ s) (wrap64 (2 ^ s - 1)) =? 0) = false).
  { apply pow2_check; [unfold is_u64; lia|]. exists s. split; [lia|reflexivity]. }
  rewrite E1. apply orb_false_iff in E2 as [_ ->].
  destruct (Z.ltb_spec (2 ^ s) 8); [lia|]. cbn [orb].
  destruct (Z.leb_spec max_array_length (wrap64 (2 ^ k * ways))); [lia|].
  eauto.
Qed.

Lemma init_rejects sets ways linesz name fa :
  is_u64 sets -> is_u64 linesz ->
  ~ power_of_two sets \/ ~ power_of_two linesz \/ linesz < 8 ->
  init (N:=N) sets ways linesz name fa = inl usage_exit.
Proof.
  intros Hs Hl Hbad. unfold init.
  destruct ((sets =? 0) || _) eqn:E1; [reflexivity|].
  destruct ((linesz <? 8) || _) eqn:E2; [reflexivity|].
  exfalso. apply pow2_check in E1 as (k & Hk & ->); [|assumption].
  apply orb_false_iff in E2 as [E2a E2b]. apply Z.ltb_ge in E2a.
  assert (E2 : (linesz =? 0) || negb (Z.land linesz (wrap64 (linesz - 1)) =? 0) = false).
  { rewrite E2b, orb_false_r. apply Z.eqb_neq. lia. }
  apply pow2_check in E2 as (s & Hsr & ->); [|assumption].
  destruct Hbad as [Hb|[Hb|Hb]]; [apply Hb|apply Hb|lia].
  - exists k. split; [lia|reflexivity].
  - exists s. split; [lia|reflexivity].
Qed.

End Construction.

Section Factory.

Context {N : Type}.

Lemma parsed_ints config s w l :
  parsed config = Some (s, w, l) ->
  exists a b c sv wv lv,
    config_fields config = Some (a, b, c) /\
    atoi a = Some sv /\ atoi b = Some wv /\ atoi c = Some lv /\
    s = size_t_of_int sv /\ w = size_t_of_int wv /\ l = size_t_of_int lv.
Proof.
  unfold parsed. destruct (config_fields config) as [[[a b] c]|]; [|discriminate].
  cbn [mbind option_bind].
  destruct (atoi a) as [sv|] eqn:Ea; [|discriminate].
  destruct (atoi b) as [wv|] eqn:Eb; [|discriminate].
  destruct (atoi c) as [lv|] eqn:Ec; [|discriminate].
  cbn [mbind option_bind]. intros [= <- <- <-].
  exists a, b, c, sv, wv, lv. repeat split; assumption.
Qed.

Lemma construct_parsed config name s w l :
  parsed config = Some (s, w, l) ->
  construct (N:=N) config name =
    if (4 <? w) && (s =? 1) then new_fa_cache_sim_t w l name
    else new_cache_sim_t s w l name.
Proof.
  intros H. apply parsed_ints in H
    as (a & b & c & sv & wv & lv & Hf & Ha & Hb & Hc & -> & -> & ->).
  rewrite construct_fields, Hf, Ha, Hb, Hc. reflexivity.
Qed.

Lemma construct_inr_parsed config name (c : cache_sim_t N) :
  construct config name = inr c -> exists s w l, parsed config = Some (s, w, l).
Proof.
  rewrite construct_fields. unfold parsed.
  destruct (config_fields config) as [[[a b] d]|]; [|discriminate].
  cbn [mbind option_bind].
  destruct (atoi a) as [sv|]; [|discriminate].
  destruct (atoi b) as [wv|]; [|destruct (atoi d); discriminate].
  destruct (atoi d) as [lv|]; [|discriminate].
  cbn [mbind option_bind]. eauto.
Qed.

(** A [ways] read from a negative [int] makes the allocation fail, so
    an engine that exists has [sets * ways] below the array bound. *)
Lemma alloc_no_wrap s wv :
  1 <= s <= 2 ^ 30 -> INT_MIN <= wv <= INT_MAX ->
  wrap64 (s * size_t_of_int wv) < max_array_length ->
  0 <= wv /\ size_t_of_int wv = wv /\ s * wv < max_array_length.
Proof.
  intros Hs Hw Hn. unfold INT_MIN, INT_MAX, max_array_length in *.
  destruct (size_t_of_int_cases wv) as [[H0 E]|[H0 E]];
    [unfold INT_MIN, INT_MAX; lia| |]; rewrite E in Hn.
  - assert (0 <= s * wv < 2 ^ 64) by nia.
    rewrite wrap64_small in Hn by assumption. auto.
  - exfalso.
    assert (Hm : wrap64 (s * (2 ^ 64 + wv)) = 2 ^ 64 + s * wv).
    { unfold wrap64. symmetry.
      apply (Z.mod_unique_pos _ _ (s - 1)); nia. }
    rewrite Hm in Hn. nia.
Qed.

Lemma init_well_formed s w l name fa (c : cache_sim_t N) :
  1 <= s <= 2 ^ 30 -> is_u64 l -> 0 <= w ->
  s * w < max_array_length ->
  fa = None \/ fa = Some [] ->
  init s w l name fa = inr c ->
  well_formed c /\ s = sets c /\ w = ways c /\
  l = linesz c /\ fa_tags c = fa.
Proof.
  intros Hs Hl Hw Hn Hfa Hinit.
  apply init_inr in Hinit as (_ & (sh & Hsh & -> & Hidx) & _ & ->);
    [|unfold is_u64; lia|assumption].
  cbn [sets ways linesz fa_tags idx_shift] in *.
  split; [|auto]. constructor;
    cbn [sets ways linesz fa_tags idx_shift tags lfsr]; try lia.
  - rewrite Hidx. reflexivity.
  - rewrite length_replicate, wrap64_small by (unfold is_u64, max_array_length in *; nia).
    apply Z2Nat.id. nia.
  - unfold is_u32. cbn. lia.
  - destruct Hfa as [->| ->]; [exact I|]. split; [constructor|].
    unfold std_map.size. cbn. lia.
Qed.

Lemma construct_well_formed config name (c : cache_sim_t N) :
  construct config name = inr c ->
  exists s w l, parsed config = Some (s, w, l) /\
    well_formed c /\ ways c = w /\ linesz c = l /\ sets c = s /\
    (is_fully_associative c = true <-> 4 < w /\ s = 1).
Proof.
  intros Hc. destruct (construct_inr_parsed _ _ _ Hc) as (s & w & l & Hp).
  exists s, w, l. split; [assumption|].
  rewrite (construct_parsed _ _ _ _ _ Hp) in Hc.
  apply parsed_ints in Hp
    as (a & b & d & sv & wv & lv & _ & Ha & Hb & Hd & -> & -> & ->).
  apply atoi_range in Ha, Hb, Hd.
  pose proof (size_t_of_int_range lv) as Hl.
  destruct (Z.ltb_spec 4 (size_t_of_int wv)) as [H4|H4];
    destruct (Z.eqb_spec (size_t_of_int sv) 1) as [H1|H1]; cbn [andb] in Hc.
  - (* fully associative *)
    unfold new_fa_cache_sim_t in Hc.
    pose proof Hc as Hi. apply init_inr in Hi as (_ & _ & Hn & _);
      [|unfold is_u64; lia|assumption].
    destruct (alloc_no_wrap 1 wv) as (Hw0 & Ew & Hsz); [lia|assumption|assumption|].
    rewrite Ew in *.
    apply init_well_formed in Hc as (Hwf & E1 & E2 & E3 & E4);
      [|lia|assumption|lia|lia|auto].
    split; [assumption|]. rewrite H1. do 3 (split; [lia|]).
    unfold is_fully_associative. rewrite E4. split; auto.
  - unfold new_cache_sim_t in Hc. pose proof Hc as Hi.
    apply init_inr in Hi as ((k & Hk & Ek) & _ & Hn & _);
      [|apply size_t_of_int_range|assumption].
    destruct (pow2_size_t_of_int sv k) as (Hs0 & Es & Hk30); [assumption..|].
    rewrite Ek in *.
    assert (Hs : 1 <= 2 ^ k <= 2 ^ 30).
    { split; [assert (0 < 2 ^ k) by (apply Z.pow_pos_nonneg; lia); lia|].
      apply Z.pow_le_mono_r; lia. }
    destruct (alloc_no_wrap (2 ^ k) wv) as (Hw0 & Ew & Hsz); [assumption..|].
    rewrite Ew in *.
    apply init_well_formed in Hc as (Hwf & E1 & E2 & E3 & E4);
      [|assumption|assumption|lia|lia|auto].
    split; [assumption|]. do 3 (split; [lia|]).
    unfold is_fully_associative. rewrite E4. split; [discriminate|lia].
  - unfold new_cache_sim_t in Hc. pose proof Hc as Hi.
    apply init_inr in Hi as ((k & Hk & Ek) & _ & Hn & _);
      [|apply size_t_of_int_range|assumption].
    destruct (pow2_size_t_of_int sv k) as (Hs0 & Es & Hk30); [assumption..|].
    rewrite Ek in *.
    assert (Hs : 1 <= 2 ^ k <= 2 ^ 30).
    { split; [assert (0 < 2 ^ k) by (apply Z.pow_pos_nonneg; lia); lia|].
      apply Z.pow_le_mono_r; lia. }
    destruct (alloc_no_wrap (2 ^ k) wv) as (Hw0 & Ew & Hsz); [assumption..|].
    rewrite Ew in *.
    apply init_well_formed in Hc as (Hwf & E1 & E2 & E3 & E4);
      [|assumption|assumption|lia|lia|auto].
    split; [assumption|]. do 3 (split; [lia|]).
    unfold is_fully_associative. rewrite E4. split; [discriminate|lia].
  - unfold new_cache_sim_t in Hc. pose proof Hc as Hi.
    apply init_inr in Hi as ((k & Hk & Ek) & _ & Hn & _);
      [|apply size_t_of_int_range|assumption].
    destruct (pow2_size_t_of_int sv k) as (Hs0 & Es & Hk30); [assumption..|].
    rewrite Ek in *.
    assert (Hs : 1 <= 2 ^ k <= 2 ^ 30).
    { split; [assert (0 < 2 ^ k) by (apply Z.pow_pos_nonneg; lia); lia|].
      apply Z.pow_le_mono_r; lia. }
    destruct (alloc_no_wrap (2 ^ k) wv) as (Hw0 & Ew & Hsz); [assumption..|].
    rewrite Ew in *.
    apply init_well_formed in Hc as (Hwf & E1 & E2 & E3 & E4);
      [|assumption|assumption|lia|lia|auto].
    split; [assumption|]. do 3 (split; [lia|]).
    unfold is_fully_associative. rewrite E4. split; [discriminate|lia].
Qed.

End Factory.

Lemma power_of_two_u64 x : is_u64 x -> power_of_two x -> exists k, 0 <= k < 64 /\ x = 2 ^ k.
Proof.
  intros [_ Hx] (k & Hk & ->). exists k. split; [|reflexivity].
  split; [assumption|]. apply (Z.pow_lt_mono_r_iff 2); lia.
Qed.

(** [atoi] returns the number the field denotes when it fits [int],
    and is undefined otherwise. *)
Lemma atoi_field_value (s : string) :
  (fits_int (field_value s) -> atoi s = Some (field_value s)) /\
  (~ fits_int (field_value s) -> atoi s = None).
Proof.
  unfold atoi, field_value, fits_int.
  destruct (match skip_spaces s with
            | String "-"%char r => (true, r)
            | String "+"%char r => (false, r)
            | _ => (false, skip_spaces s)
            end) as [neg s'].
  set (v := if neg then - read_digits 0 s' else read_digits 0 s').
  destruct (Z.leb_spec INT_MIN v), (Z.leb_spec v INT_MAX); cbn [andb];
    split; intros; try reflexivity; lia.
Qed.

(** C1 (amended). The three fields are read with [atoi]: a field is the
    value of its leading decimal digits, whatever follows them is ignored.
    A configuration with fewer than two separators is rejected with the
    usage text.  When the number one of the three fields denotes does not
    fit [int], [atoi], and with it the construction, is undefined.
    Otherwise the values read are the numbers the fields denote, and: a
    configuration whose value of sets is not a power of two, or whose
    value of linesz is not a power of two or is below 8, is rejected with
    the usage text; a configuration whose sets is a power of two, whose
    linesz is a power of two of at least 8 and whose ways is at least 1
    yields an engine with these parameters, provided the tag array of
    sets * ways entries can be allocated. *)
Theorem construct_validates {N : Type} (config name : string) :
  (config_fields config = None ->
   construct (N:=N) config name = inl usage_exit) /\
  (forall s w l, parsed config = Some (s, w, l) ->
     (~ power_of_two s \/ ~ power_of_two l \/ l < 8 ->
      construct (N:=N) config name = inl usage_exit) /\
     (power_of_two s -> power_of_two l -> 8 <= l -> 1 <= w ->
      s * w < max_array_length ->
      exists c : cache_sim_t N,
        construct config name = inr c /\
        sets c = s /\ ways c = w /\ linesz c = l)) /\
  (forall a b d, config_fields config = Some (a, b, d) ->
     (fits_int (field_value a) -> fits_int (field_value b) ->
      fits_int (field_value d) ->
      parsed config = Some (size_t_of_int (field_value a),
                            size_t_of_int (field_value b),
                            size_t_of_int (field_value d))) /\
     (~ (fits_int (field_value a) /\ fits_int (field_value b) /\
         fits_int (field_value d)) ->
      construct (N:=N) config name = inl undefined_atoi)).
Proof.
  split; [|split].
  3: {
    intros a b d Hf. split.
    - intros Ha Hb Hd. unfold parsed. rewrite Hf. cbn [mbind option_bind].
      rewrite (proj1 (atoi_field_value a) Ha), (proj1 (atoi_field_value b) Hb),
        (proj1 (atoi_field_value d) Hd). reflexivity.
    - intros Hn. rewrite construct_fields, Hf.
      destruct (atoi a) as [sv|] eqn:Ea; [|reflexivity].
      destruct (atoi b) as [wv|] eqn:Eb; [|reflexivity].
      destruct (atoi d) as [lv|] eqn:Ed; [|reflexivity].
      exfalso. apply Hn.
      assert (Hfit : forall s v, atoi s = Some v -> fits_int (field_value s)).
      { intros s v Hs. destruct (atoi_field_value s) as [_ Hnone].
        unfold fits_int in *.
        destruct (Z.le_gt_cases INT_MIN (field_value s));
          destruct (Z.le_gt_cases (field_value s) INT_MAX); try lia;
          rewrite Hnone in Hs by lia; discriminate. }
      split; [|split]; eapply Hfit; eassumption. }
  - intros Hf. rewrite construct_fields, Hf. reflexivity.
  - intros s w l Hp. pose proof (construct_parsed (N:=N) config name s w l Hp) as Hc.
    pose proof Hp as Hi. apply parsed_ints in Hi
      as (a & b & d & sv & wv & lv & _ & Ha & Hb & Hd & Es & Ew & El).
    assert (Hs : is_u64 s) by (subst s; apply size_t_of_int_range).
    assert (Hw : is_u64 w) by (subst w; apply size_t_of_int_range).
    assert (Hl : is_u64 l) by (subst l; apply size_t_of_int_range).
    split.
    + intros Hbad. rewrite Hc.
      destruct (Z.ltb_spec 4 w); destruct (Z.eqb_spec s 1) as [->|]; cbn [andb];
        apply init_rejects; assumption.
    + intros Hps Hpl Hl8 Hw1 Hsz.
      destruct (power_of_two_u64 s Hs Hps) as (k & Hk & Ek).
      destruct (power_of_two_u64 l Hl Hpl) as (sh & Hsh & Esh).
      assert (Hsh3 : 3 <= sh) by (apply pow2_ge_8; [lia|rewrite <- Esh; lia]).
      assert (Hs1 : 1 <= s).
      { rewrite Ek. assert (0 < 2 ^ k) by (apply Z.pow_pos_nonneg; lia). lia. }
      assert (Hn : wrap64 (s * w) < max_array_length).
      { rewrite wrap64_small; [assumption|].
        unfold is_u64, max_array_length in *. nia. }
      assert (Hex : exists c : cache_sim_t N, construct config name = inr c).
      { rewrite Hc.
        destruct ((4 <? w) && (s =? 1)) eqn:E.
        - apply andb_true_iff in E as [_ E]. apply Z.eqb_eq in E. subst s.
          apply (init_succeeds 1 w l name _ 0 sh); try lia; try reflexivity; assumption.
        - apply (init_succeeds s w l name _ k sh); try lia; assumption. }
      destruct Hex as (c & Hcc). exists c. split; [assumption|].
      destruct (construct_well_formed _ _ _ Hcc) as (s' & w' & l' & Hp' & _ & E1 & E2 & E3 & _).
      rewrite Hp in Hp'. injection Hp' as <- <- <-. auto.
Qed.

Lemma construct_validates_witness :
  (exists c : cache_sim_t Empty_set,
     construct "16:4:64" "D$" = inr c /\ sets c = 16 /\ ways c = 4 /\ linesz c = 64) /\
  construct (N:=Empty_set) "16:64" "D$" = inl usage_exit /\
  construct (N:=Empty_set) "16:4:48" "D$" = inl usage_exit.
Proof.
  split; [|split].
  - destruct (construct_validates (N:=Empty_set) "16:4:64" "D$") as (_ & H & _).
    destruct (H 16 4 64 eq_refl) as [_ Hok]. apply Hok.
    + exists 4. split; [lia|reflexivity].
    + exists 6. split; [lia|reflexivity].
    + lia.
    + lia.
    + reflexivity.
  - destruct (construct_validates (N:=Empty_set) "16:64" "D$") as (H & _).
    apply H. reflexivity.
  - destruct (construct_validates (N:=Empty_set) "16:4:48" "D$") as (_ & H & _).
    destruct (H 16 4 48 eq_refl) as [Hbad _]. apply Hbad.
    right. left. intros (k & Hk & E).
    assert (k < 6).
    { apply (Z.pow_lt_mono_r_iff 2); [lia|lia|]. rewrite <- E. reflexivity. }
    assert (Hc : k = 0 \/ k = 1 \/ k = 2 \/ k = 3 \/ k = 4 \/ k = 5) by lia.
    destruct Hc as [->|[->|[->|[->|[->| ->]]]]]; discriminate.
Defined.

(** C1, as stated, fails: a configuration whose first field is not
    numeric is accepted, read as its leading digits. *)
Lemma construct_accepts_non_numeric_field :
  exists c : cache_sim_t Empty_set,
    construct "4x:2:64" "D$" = inr c /\ sets c = 4 /\ ways c = 2 /\ linesz c = 64.
Proof. eexists. split; [vm_compute; reflexivity|]. repeat split. Qed.

(** Characters after the third field are ignored as well. *)
Example construct_accepts_trailing_text :
  exists c : cache_sim_t Empty_set,
    construct "16:4:64:8 bytes" "D$" = inr c /\ sets c = 16 /\ ways c = 4 /\ linesz c = 64.
Proof. eexists. split; [vm_compute; reflexivity|]. repeat split. Qed.

(** [init] checks [sets] and [linesz] only: zero ways are accepted, and
    the first miss of such an engine takes a remainder by zero. *)
Example construct_zero_ways :
  exists c : cache_sim_t Empty_set,
    construct "4:0:64" "D$" = inr c /\ ways c = 0 /\ access c 0 1 false = None.
Proof. eexists. split; [vm_compute; reflexivity|]. split; reflexivity. Qed.

Example atoi_values :
  atoi "64" = Some 64 /\ atoi " +16:" = Some 16 /\ atoi "-3" = Some (-3) /\
  atoi "4x:" = Some 4 /\ atoi "x4" = Some 0 /\ atoi "" = Some 0 /\
  atoi "2147483647" = Some INT_MAX /\ atoi "2147483648" = None.
Proof. repeat split. Qed.

(** A field whose number does not fit [int]: the value [atoi] returns
    is not defined, and the model stops there. *)
Example construct_field_beyond_int :
  ~ fits_int (field_value "4294967312:") /\
  construct (N:=Empty_set) "4294967312:4:64" "D$" = inl undefined_atoi.
Proof.
  split; [|vm_compute; reflexivity].
  unfold fits_int. vm_compute. intros [_ H]. apply H. reflexivity.
Qed.

Example construct_rejects_missing_field :
  construct (N:=Empty_set) "16:64" "D$" = inl usage_exit.
Proof. reflexivity. Qed.

Example construct_rejects_letters :
  construct (N:=Empty_set) "abc:2:64" "D$" = inl usage_exit.
Proof. reflexivity. Qed.

(** C7. The factory calls the constructor of the fully-associative
    engine exactly when the parsed configuration has ways > 4 and
    sets = 1, and the constructor of the set-associative engine in every
    other case; the engine it returns is of that variant. *)
Theorem factory_selects_variant {N : Type} (config name : string) (s w l : Z)
    (Hp : parsed config = Some (s, w, l)) :
  construct (N:=N) config name =
    (if (4 <? w) && (s =? 1) then new_fa_cache_sim_t w l name
     else new_cache_sim_t s w l name) /\
  forall c : cache_sim_t N, construct config name = inr c ->
    sets c = s /\ ways c = w /\
    (is_fully_associative c = true <-> 4 < w /\ s = 1) /\
    (is_fully_associative c = false <-> ~ (4 < w /\ s = 1)).
Proof.
  split; [apply construct_parsed; assumption|].
  intros c Hc.
  destruct (construct_well_formed _ _ _ Hc)
    as (s' & w' & l' & Hp' & _ & Ew & _ & Es & Hfa).
  rewrite Hp in Hp'. injection Hp' as <- <- <-.
  do 2 (split; [assumption|]).
  rewrite <- Hfa. destruct (is_fully_associative c); split; split; congruence.
Qed.

Lemma factory_selects_variant_witness :
  parsed "1:8:64" = Some (1, 8, 64) /\
  exists c : cache_sim_t Empty_set,
    construct "1:8:64" "D$" = inr c /\ is_fully_associative c = true.
Proof.
  assert (Hp : parsed "1:8:64" = Some (1, 8, 64)) by reflexivity.
  split; [exact Hp|].
  destruct (factory_selects_variant (N:=Empty_set) "1:8:64" "D$" 1 8 64 Hp) as [_ H].
  eexists. split; [vm_compute; reflexivity|].
  match goal with |- is_fully_associative ?c = true =>
    destruct (H c) as (_ & _ & Hfa & _); [vm_compute; reflexivity|]
  end.
  apply Hfa. split; [lia|reflexivity].
Defined.

Example factory_small_single_set :
  exists c : cache_sim_t Empty_set,
    construct "1:4:64" "D$" = inr c /\ is_fully_associative c = false.
Proof. eexists. split; [vm_compute; reflexivity|reflexivity]. Qed.

Example factory_two_ways :
  exists c : cache_sim_t Empty_set,
    construct "4:2:64" "D$" = inr c /\ is_fully_associative c = false.
Proof. eexists. split; [vm_compute; reflexivity|reflexivity]. Qed.

(** ** The ordered map *)

Section StdMap.

Implicit Types (m : std_map) (k v : Z) (n : nat).

Lemma find_set_eq k v m : std_map.find k (std_map.set k v m) = Some v.
Proof.
  induction m as [|[k' v'] r IH]; cbn.
  - rewrite Z.eqb_refl. reflexivity.
  - destruct (Z.ltb_spec k k'); cbn; [rewrite Z.eqb_refl; reflexivity|].
    destruct (Z.eqb_spec k k'); cbn; [rewrite Z.eqb_refl; reflexivity|].
    destruct (Z.eqb_spec k' k); [lia|assumption].
Qed.

Lemma find_set_ne k k2 v m :
  k <> k2 -> std_map.find k2 (std_map.set k v m) = std_map.find k2 m.
Proof.
  intros Hne. induction m as [|[k' v'] r IH]; cbn.
  - destruct (Z.eqb_spec k k2); [contradiction|reflexivity].
  - destruct (Z.ltb_spec k k'); cbn.
    { destruct (Z.eqb_spec k k2); [contradiction|reflexivity]. }
    destruct (Z.eqb_spec k k') as [->|]; cbn.
    { destruct (Z.eqb_spec k' k2); [contradiction|reflexivity]. }
    destruct (Z.eqb_spec k' k2); [reflexivity|assumption].
Qed.

Lemma set_ordered_lower k v a m :
  a < k -> Forall (Z.lt a) (std_map.keys m) ->
  Forall (Z.lt a) (std_map.keys (std_map.set k v m)).
Proof.
  unfold std_map.keys. intros Ha.
  induction m as [|[k' v'] r IH]; cbn; intros Hall.
  - constructor; [assumption|constructor].
  - inversion Hall as [|? ? Hk' Hr]; subst.
    destruct (Z.ltb_spec k k'); cbn.
    + constructor; [assumption|]. constructor; assumption.
    + destruct (Z.eqb_spec k k'); cbn; constructor; auto.
Qed.

Lemma ordered_set k v m : std_map.ordered m -> std_map.ordered (std_map.set k v m).
Proof.
  unfold std_map.ordered, std_map.keys.
  induction m as [|[k' v'] r IH]; cbn; intros Hs.
  - constructor; constructor.
  - apply StronglySorted_inv in Hs as [Hr Hall].
    destruct (Z.ltb_spec k k') as [Hlt|Hge]; cbn.
    + constructor; [constructor; assumption|].
      constructor; [assumption|].
      eapply Forall_impl; [exact Hall|]. cbn. intros; lia.
    + destruct (Z.eqb_spec k k') as [->|Hne]; cbn.
      * constructor; assumption.
      * constructor; [auto|]. apply set_ordered_lower; [lia|assumption].
Qed.

Lemma ordered_below_find a k m :
  Forall (Z.lt a) (std_map.keys m) -> k <= a -> std_map.find k m = None.
Proof.
  unfold std_map.keys. induction m as [|[k' v'] r IH]; cbn; intros Hall Hk; [reflexivity|].
  inversion Hall; subst. destruct (Z.eqb_spec k' k); [lia|auto].
Qed.

Lemma length_set_present k v m :
  std_map.ordered m -> is_Some (std_map.find k m) ->
  length (std_map.set k v m) = length m.
Proof.
  unfold std_map.ordered, std_map.keys.
  induction m as [|[k' v'] r IH]; cbn; intros Hs [x Hx]; [discriminate|].
  apply StronglySorted_inv in Hs as [Hr Hall].
  destruct (Z.eqb_spec k' k) as [->|Hne].
  - rewrite Z.ltb_irrefl, Z.eqb_refl. reflexivity.
  - destruct (Z.ltb_spec k k') as [Hlt|Hge]; cbn.
    + rewrite (ordered_below_find k' k r) in Hx by (assumption || lia). discriminate.
    + destruct (Z.eqb_spec k k'); [lia|]. cbn. f_equal. apply IH; eauto.
Qed.

Lemma length_set_le k v m : (length (std_map.set k v m) <= S (length m))%nat.
Proof.
  induction m as [|[k' v'] r IH]; cbn; [lia|].
  destruct (Z.ltb_spec k k'); cbn; [lia|].
  destruct (Z.eqb_spec k k'); cbn; lia.
Qed.

Lemma ordered_erase n m : std_map.ordered m -> std_map.ordered (std_map.erase n m).
Proof.
  unfold std_map.ordered, std_map.keys, std_map.erase.
  revert n. induction m as [|[k' v'] r IH]; intros n Hs; [destruct n; assumption|].
  apply StronglySorted_inv in Hs as [Hr Hall].
  destruct n as [|n]; cbn; [assumption|].
  constructor; [auto|].
  apply Forall_forall. intros x Hx.
  rewrite Forall_forall in Hall. apply Hall.
  apply list_elem_of_fmap in Hx as (y & -> & Hy).
  apply list_elem_of_fmap. exists y. split; [reflexivity|].
  eapply list_elem_of_delete_inv. exact Hy.
Qed.

Lemma find_at_offset n k v m :
  std_map.ordered m -> std_map.at_offset n m = Some (k, v) -> std_map.find k m = Some v.
Proof.
  unfold std_map.ordered, std_map.keys, std_map.at_offset.
  revert n. induction m as [|[k' v'] r IH]; intros n Hs; [destruct n; discriminate|].
  apply StronglySorted_inv in Hs as [Hr Hall].
  destruct n as [|n]; cbn.
  - intros [= -> ->]. rewrite Z.eqb_refl. reflexivity.
  - intros Hn. destruct (Z.eqb_spec k' k) as [->|]; [|eauto].
    exfalso. rewrite Forall_forall in Hall.
    assert (k < k); [|lia]. apply Hall.
    apply list_elem_of_fmap. exists (k, v). split; [reflexivity|].
    eapply list_elem_of_lookup_2. exact Hn.
Qed.

Lemma find_erase n k v k2 m :
  std_map.ordered m -> std_map.at_offset n m = Some (k, v) ->
  std_map.find k2 (std_map.erase n m) =
    if k2 =? k then None else std_map.find k2 m.
Proof.
  unfold std_map.ordered, std_map.keys, std_map.at_offset, std_map.erase.
  revert n. induction m as [|[k' v'] r IH]; intros n Hs; [destruct n; discriminate|].
  apply StronglySorted_inv in Hs as [Hr Hall].
  destruct n as [|n].
  - cbn. intros [= -> ->]. destruct (Z.eqb_spec k2 k) as [->|Hne].
    + apply (ordered_below_find k); [assumption|lia].
    + destruct (Z.eqb_spec k k2); [congruence|reflexivity].
  - change (((k', v') :: r) !! S n) with (r !! n).
    change (delete (S n) ((k', v') :: r)) with ((k', v') :: delete n r).
    cbn [std_map.find]. intros Hn. rewrite (IH n Hr Hn).
    destruct (Z.eqb_spec k' k2) as [->|]; [|reflexivity].
    destruct (Z.eqb_spec k2 k) as [->|]; [|reflexivity].
    exfalso. rewrite Forall_forall in Hall.
    assert (k < k); [|lia]. apply Hall.
    apply list_elem_of_fmap. exists (k, v). split; [reflexivity|].
    eapply list_elem_of_lookup_2. exact Hn.
Qed.

Lemma length_erase n m :
  is_Some (std_map.at_offset n m) -> length (std_map.erase n m) = pred (length m).
Proof.
  unfold std_map.at_offset, std_map.erase. intros H.
  rewrite length_delete by assumption. lia.
Qed.

End StdMap.

(** ** The set-associative tag array *)

Lemma land_le_r a b : 0 <= a -> 0 <= b -> 0 <= Z.land a b <= b.
Proof.
  intros Ha Hb. split; [apply Z.land_nonneg; auto|].
  assert (Hdisj : Z.land (Z.land a b) (Z.ldiff b a) = 0).
  { apply Z.bits_inj'. intros i Hi.
    rewrite !Z.land_spec, Z.ldiff_spec, Z.testbit_0_l.
    destruct (Z.testbit a i), (Z.testbit b i); reflexivity. }
  assert (Hsum : Z.land a b + Z.ldiff b a = b).
  { rewrite Z.add_nocarry_lxor, Z.lxor_lor by assumption.
    apply Z.bits_inj'. intros i Hi.
    rewrite Z.lor_spec, Z.land_spec, Z.ldiff_spec.
    destruct (Z.testbit a i), (Z.testbit b i); reflexivity. }
  assert (0 <= Z.ldiff b a) by (apply Z.ldiff_nonneg; auto). lia.
Qed.

Section Scan.

Variables (tags : list Z) (tag base : Z).
Hypothesis Hbase : 0 <= base.
Hypothesis Hlen : Z.of_nat (length tags) < 2 ^ 64.

Lemma scan_pos j : 0 <= j -> base + j < Z.of_nat (length tags) ->
  wrap64 (base + j) = base + j /\ is_Some (tags !! Z.to_nat (base + j)).
Proof.
  intros Hj Hlt. split.
  - apply wrap64_small. unfold is_u64. lia.
  - apply lookup_lt_is_Some. lia.
Qed.

(** What [scan_ways] returns: the first position of the range whose
    word compares equal, or the null pointer when there is none. *)
Lemma scan_ways_spec n i :
  0 <= i -> base + i + Z.of_nat n <= Z.of_nat (length tags) ->
  (exists j t,
      i <= j < i + Z.of_nat n /\
      scan_ways tags tag base i n = Some (Some (array_slot (Z.to_nat (base + j)))) /\
      tags !! Z.to_nat (base + j) = Some t /\ compares tag t = true /\
      forall j' t', i <= j' < j -> tags !! Z.to_nat (base + j') = Some t' ->
                    compares tag t' = false)
  \/ (scan_ways tags tag base i n = Some None /\
      forall j t, i <= j < i + Z.of_nat n -> tags !! Z.to_nat (base + j) = Some t ->
                  compares tag t = false).
Proof.
  revert i. induction n as [|n IH]; intros i Hi Hr; cbn [scan_ways].
  - right. split; [reflexivity|]. intros; lia.
  - destruct (scan_pos i) as [-> [t Ht]]; [lia..|]. rewrite Ht. cbn [mbind option_bind].
    fold (compares tag t). destruct (compares tag t) eqn:Ecmp.
    + left. exists i, t. split; [lia|]. repeat split; auto. intros; lia.
    + destruct (IH (i + 1)) as [(j & t' & Hj & Hscan & Hjt & Hc & Hfirst)|[Hscan Hnone]];
        [lia..| |].
      * left. exists j, t'. split; [lia|]. repeat split; auto.
        intros j' t'' Hj' Hl. destruct (Z.eq_dec j' i) as [->|].
        -- rewrite Ht in Hl. injection Hl as <-. assumption.
        -- apply (Hfirst j'); [lia|assumption].
      * right. split; [assumption|]. intros j t' Hj Hl.
        destruct (Z.eq_dec j i) as [->|].
        -- rewrite Ht in Hl. injection Hl as <-. assumption.
        -- apply (Hnone j); [lia|assumption].
Qed.

End Scan.

(** The scan only looks at the comparison of each word with the tag. *)
Lemma scan_ways_ext tags tags' tag base n i :
  (forall pos, compares tag <$> tags !! pos = compares tag <$> tags' !! pos) ->
  scan_ways tags tag base i n = scan_ways tags' tag base i n.
Proof.
  intros Hext. revert i. induction n as [|n IH]; intros i; cbn [scan_ways]; [reflexivity|].
  specialize (Hext (Z.to_nat (wrap64 (base + i)))).
  destruct (tags !! _) as [t|], (tags' !! _) as [t'|]; try discriminate; cbn in *;
    [|reflexivity].
  fold (compares tag t) (compares tag t'). injection Hext as ->.
  destruct (compares tag t'); [reflexivity|apply IH].
Qed.

(** ** Slots of a well-formed engine *)

Section Slots.

Context {N : Type}.
Implicit Types (c : cache_sim_t N) (p q : slot).

Lemma set_index_range c addr :
  well_formed c -> is_u64 addr -> 0 <= set_index c addr < sets c.
Proof.
  intros Hwf Ha. unfold set_index.
  destruct Hwf as [Hs Hw Hn Hsh _ _ _ _].
  assert (Hs64 : is_u64 (sets c - 1)) by (unfold is_u64; lia).
  rewrite wrap64_small by assumption.
  assert (0 <= Z.shiftr addr (idx_shift c)).
  { apply Z.shiftr_nonneg. apply Ha. }
  pose proof (land_le_r (Z.shiftr addr (idx_shift c)) (sets c - 1)). lia.
Qed.

Lemma way_position c idx j :
  well_formed c -> 0 <= idx < sets c -> 0 <= j < ways c ->
  wrap64 (idx * ways c) = idx * ways c /\
  wrap64 (idx * ways c + j) = idx * ways c + j /\
  0 <= idx * ways c + j < Z.of_nat (length (tags c)).
Proof.
  intros Hwf Hi Hj. destruct Hwf as [Hs Hw Hn Hsh _ Ht _ _].
  unfold max_array_length in Hn. rewrite Ht.
  assert (0 <= idx * ways c + j < sets c * ways c) by nia.
  repeat split; try lia; apply wrap64_small; unfold is_u64; nia.
Qed.

Lemma set_base c idx :
  well_formed c -> 0 <= idx < sets c ->
  wrap64 (idx * ways c) = idx * ways c /\ 0 <= idx * ways c /\
  idx * ways c + ways c <= Z.of_nat (length (tags c)) /\
  Z.of_nat (length (tags c)) < 2 ^ 64.
Proof.
  intros Hwf Hi. destruct Hwf as [Hs Hw Hn Hsh _ Ht _ _].
  unfold max_array_length in Hn. rewrite Ht.
  repeat split; try nia. apply wrap64_small; unfold is_u64; nia.
Qed.

(** *** [check_tag] *)

(** The set-associative lookup returns the first way of the set whose
    word compares equal to the tag with VALID. *)
Lemma sa_check_tag_spec c addr :
  well_formed c -> is_u64 addr ->
  let base := set_index c addr * ways c in
  let tag := Z.lor (line_tag c addr) VALID in
  (exists j t,
      0 <= j < ways c /\
      cache_sim_t_check_tag c addr = Some (Some (array_slot (Z.to_nat (base + j)))) /\
      tags c !! Z.to_nat (base + j) = Some t /\ compares tag t = true /\
      forall j' t', 0 <= j' < j -> tags c !! Z.to_nat (base + j') = Some t' ->
                    compares tag t' = false)
  \/ (cache_sim_t_check_tag c addr = Some None /\
      forall j t, 0 <= j < ways c -> tags c !! Z.to_nat (base + j) = Some t ->
                  compares tag t = false).
Proof.
  intros Hwf Ha base tag. unfold cache_sim_t_check_tag.
  pose proof (set_index_range c addr Hwf Ha) as Hidx.
  destruct (set_base c _ Hwf Hidx) as (-> & Hb0 & Hb1 & Hl).
  pose proof (wf_ways _ Hwf) as Hw.
  destruct (scan_ways_spec (tags c) tag base Hb0 Hl (Z.to_nat (ways c)) 0)
    as [(j & t & Hj & Hscan & Ht & Hc & Hfirst)|[Hscan Hnone]];
    [lia|subst base; lia| |].
  - left. exists j, t. rewrite Z2Nat.id in Hj by lia. auto.
  - right. split; [assumption|]. intros j t Hj. apply Hnone. lia.
Qed.

Lemma check_tag_total c addr :
  well_formed c -> is_u64 addr -> exists r, check_tag c addr = Some r.
Proof.
  intros Hwf Ha. unfold check_tag. destruct (fa_tags c) as [m|] eqn:Efa.
  - unfold fa_cache_sim_t_check_tag. destruct (std_map.find _ m); eauto.
  - destruct (sa_check_tag_spec c addr Hwf Ha) as [(j & t & _ & -> & _)|[-> _]]; eauto.
Qed.

(** A slot returned by [check_tag] can be read, and in the array its
    word compares equal to the tag of the address. *)
Lemma hit_load c addr p :
  well_formed c -> is_u64 addr -> check_tag c addr = Some (Some p) ->
  exists v, load c p = Some v /\
    match fa_tags c with
    | None => compares (Z.lor (line_tag c addr) VALID) v = true
    | Some _ => p = map_slot (line_tag c addr)
    end.
Proof.
  intros Hwf Ha. unfold check_tag, load. destruct (fa_tags c) as [m|] eqn:Efa.
  - unfold fa_cache_sim_t_check_tag, line_tag.
    destruct (std_map.find _ m) as [v|] eqn:Ef; [|discriminate].
    intros [= <-]. exists v. cbn. auto.
  - destruct (sa_check_tag_spec c addr Hwf Ha)
      as [(j & t & _ & -> & Ht & Hc & _)|[-> _]]; [|discriminate].
    intros [= <-]. exists t. auto.
Qed.

Lemma compares_tag a b v :
  0 <= a < 2 ^ 63 -> 0 <= b < 2 ^ 63 ->
  compares (Z.lor a VALID) v = true -> compares (Z.lor b VALID) v = true -> a = b.
Proof.
  unfold compares. intros Ha Hb H1 H2.
  apply Z.eqb_eq in H1, H2. apply lor_VALID_inj; congruence.
Qed.

Lemma line_tag_bound c addr :
  well_formed c -> is_u64 addr -> 0 <= line_tag c addr < 2 ^ 61.
Proof. intros Hwf Ha. apply tag_bound; [assumption|]. apply (wf_idx_shift _ Hwf). Qed.

(** The tag comparison is exact: a slot is the slot of one line only. *)
Lemma hit_exact c a b p :
  well_formed c -> is_u64 a -> is_u64 b ->
  check_tag c a = Some (Some p) -> check_tag c b = Some (Some p) ->
  line_tag c a = line_tag c b.
Proof.
  intros Hwf Ha Hb H1 H2.
  destruct (hit_load c a p Hwf Ha H1) as (v & Hv & Hm).
  destruct (hit_load c b p Hwf Hb H2) as (v' & Hv' & Hm').
  rewrite Hv in Hv'. injection Hv' as <-.
  pose proof (line_tag_bound c a Hwf Ha). pose proof (line_tag_bound c b Hwf Hb).
  destruct (fa_tags c).
  - congruence.
  - eapply compares_tag; eauto; lia.
Qed.

End Slots.

(** ** Writing through a slot *)

Section Store.

Context {N : Type}.
Implicit Types (c : cache_sim_t N) (p q : slot).

Lemma store_shape c p v c' :
  store c p v = Some c' ->
  c' = set_fa_tags (set_tags c (tags c')) (fa_tags c') /\
  is_fully_associative c' = is_fully_associative c.
Proof.
  unfold store, is_fully_associative. destruct p as [i|k].
  - destruct (tags c !! i); [|discriminate]. cbn. intros [= <-]. cbn.
    destruct c; auto.
  - destruct (fa_tags c) as [m|] eqn:E; [|discriminate]. cbn.
    destruct (std_map.find k m); [|discriminate]. cbn. intros [= <-]. cbn.
    destruct c; auto.
Qed.

Lemma store_load c p v v' :
  load c p = Some v ->
  exists c', store c p v' = Some c' /\ load c' p = Some v' /\
             (forall q, q <> p -> load c' q = load c q).
Proof.
  unfold store, load. destruct p as [i|k].
  - intros Hv. rewrite Hv. cbn. eexists. split; [reflexivity|]. cbn. split.
    + apply list_lookup_insert_eq. apply lookup_lt_is_Some. eauto.
    + intros [j|k] Hq; [|reflexivity]. apply list_lookup_insert_ne. congruence.
  - destruct (fa_tags c) as [m|] eqn:E; [|discriminate]. cbn. intros Hv. rewrite Hv. cbn.
    eexists. split; [reflexivity|]. cbn. split; [apply find_set_eq|].
    intros [j|k'] Hq; [reflexivity|]. cbn. apply find_set_ne. congruence.
Qed.

Lemma store_well_formed c p v c' :
  well_formed c -> store c p v = Some c' -> well_formed c'.
Proof.
  intros Hwf Hst. destruct Hwf as [H1 H2 H3 H4 H5 H6 H7 H8].
  unfold store in Hst. destruct p as [i|k].
  - destruct (tags c !! i); [|discriminate]. cbn in Hst. injection Hst as <-.
    constructor; cbn; auto. rewrite length_insert. assumption.
  - destruct (fa_tags c) as [m|] eqn:E; [|discriminate]. cbn in Hst.
    destruct (std_map.find k m) eqn:Ef; [|discriminate]. cbn in Hst. injection Hst as <-.
    destruct H8 as [Ho Hsz].
    constructor; cbn; auto. split; [apply ordered_set; assumption|].
    unfold std_map.size in *. rewrite length_set_present; eauto.
Qed.

(** [check_tag] sees a write through a slot only through the comparison
    of the written word with the tag looked for. *)
Lemma store_check_tag c p v v' c' b :
  load c p = Some v -> store c p v' = Some c' ->
  (fa_tags c = None ->
   compares (Z.lor (line_tag c b) VALID) v' = compares (Z.lor (line_tag c b) VALID) v) ->
  check_tag c' b = check_tag c b.
Proof.
  unfold load, store, check_tag. destruct p as [i|k].
  - intros Hv. rewrite Hv. cbn. intros [= <-]. cbn. intros Hcmp.
    destruct (fa_tags c) as [m|]; [reflexivity|].
    unfold cache_sim_t_check_tag, set_index. cbn.
    apply scan_ways_ext. intros pos.
    destruct (Nat.eq_dec pos i) as [->|Hne].
    + rewrite list_lookup_insert_eq by (apply lookup_lt_is_Some; eauto).
      rewrite Hv. cbn. f_equal. apply Hcmp. reflexivity.
    + rewrite list_lookup_insert_ne by congruence. reflexivity.
  - destruct (fa_tags c) as [m|] eqn:E; [|discriminate]. cbn. intros Hv. rewrite Hv. cbn.
    intros [= <-] _. cbn. unfold fa_cache_sim_t_check_tag. cbn.
    destruct (Z.eq_dec k (Z.shiftr b (idx_shift c))) as [<-|Hne].
    + rewrite find_set_eq, Hv. reflexivity.
    + rewrite find_set_ne by assumption. reflexivity.
Qed.

Lemma compares_flag_DIRTY tag v :
  compares tag (Z.lor v DIRTY) = compares tag v /\
  compares tag (Z.land v (Z.lnot DIRTY)) = compares tag v.
Proof.
  unfold compares. rewrite lor_DIRTY_compare, land_lnot_DIRTY_idem. auto.
Qed.

End Store.

(** ** Replacement *)

Section Victimize.

Context {N : Type}.
Implicit Types (c : cache_sim_t N) (p q : slot).

Lemma lfsr_next_nonneg (l : lfsr_t.t) :
  is_u32 (lfsr_t.reg l) ->
  0 <= fst (lfsr_t.next l) /\ is_u32 (lfsr_t.reg (snd (lfsr_t.next l))).
Proof.
  intros H. destruct (lfsr_next_range l H) as (Hr & E).
  rewrite E. split; [apply Hr|assumption].
Qed.

Lemma compares_installed t : 0 <= t < 2 ^ 62 -> compares (Z.lor t VALID) (Z.lor t VALID) = true.
Proof. intros H. unfold compares. rewrite stored_tag_clean by assumption. apply Z.eqb_refl. Qed.

Lemma sa_victimize_total c addr :
  well_formed c -> is_u64 addr -> 0 < ways c ->
  is_Some (cache_sim_t_victimize c addr).
Proof.
  intros Hwf Ha Hw. unfold cache_sim_t_victimize.
  destruct (lfsr_t.next (lfsr c)) as [r l] eqn:En.
  destruct (Z.eqb_spec (ways c) 0); [lia|].
  pose proof (lfsr_next_nonneg (lfsr c) (wf_lfsr _ Hwf)) as [Hr _]. rewrite En in Hr. cbn in Hr.
  pose proof (set_index_range c addr Hwf Ha) as Hidx.
  assert (Hway : 0 <= r mod ways c < ways c) by (apply Z.mod_pos_bound; lia).
  destruct (way_position c _ _ Hwf Hidx Hway) as (-> & -> & Hpos).
  destruct (tags c !! Z.to_nat (set_index c addr * ways c + r mod ways c)) eqn:E.
  - cbn. eauto.
  - apply lookup_ge_None in E. lia.
Qed.

Lemma sa_victimize_installs c addr victim c' :
  well_formed c -> is_u64 addr -> fa_tags c = None ->
  cache_sim_t_victimize c addr = Some (victim, c') ->
  exists pos way,
    0 <= way < ways c /\ pos = Z.to_nat (set_index c addr * ways c + way) /\
    way = fst (lfsr_t.next (lfsr c)) mod ways c /\
    tags c !! pos = Some victim /\
    c' = set_tags (set_lfsr c (snd (lfsr_t.next (lfsr c))))
           (<[pos := Z.lor (line_tag c addr) VALID]> (tags c)) /\
    well_formed c' /\
    (exists p, check_tag c' addr = Some (Some p)) /\
    (check_tag c addr = Some None ->
     check_tag c' addr = Some (Some (array_slot pos))).
Proof.
  intros Hwf Ha Hfa. unfold cache_sim_t_victimize.
  destruct (lfsr_t.next (lfsr c)) as [r l] eqn:En. cbn [fst snd].
  destruct (Z.eqb_spec (ways c) 0) as [|Hw0]; [discriminate|].
  pose proof (wf_ways _ Hwf) as Hw.
  pose proof (lfsr_next_nonneg (lfsr c) (wf_lfsr _ Hwf)) as [Hr Hl].
  rewrite En in Hr, Hl. cbn in Hr, Hl.
  pose proof (set_index_range c addr Hwf Ha) as Hidx.
  assert (Hway : 0 <= r mod ways c < ways c) by (apply Z.mod_pos_bound; lia).
  destruct (way_position c _ _ Hwf Hidx Hway) as (-> & -> & Hpos).
  set (pos := Z.to_nat (set_index c addr * ways c + r mod ways c)).
  destruct (tags c !! pos) as [v|] eqn:Ev; [|discriminate].
  cbn. intros [= <- <-].
  set (T := Z.lor (Z.shiftr addr (idx_shift c)) VALID).
  set (c' := set_tags (set_lfsr c l) (<[pos := T]> (tags c))).
  assert (Hwf' : well_formed c').
  { destruct Hwf. constructor; cbn; auto. rewrite length_insert. assumption. }
  exists pos, (r mod ways c). do 5 (split; [auto|]). split; [assumption|].
  assert (HT : compares T T = true).
  { apply compares_installed. pose proof (line_tag_bound c addr Hwf Ha).
    unfold line_tag in *. lia. }
  assert (Hnew : tags c' !! pos = Some T).
  { cbn. apply list_lookup_insert_eq. apply lookup_lt_is_Some. eauto. }
  assert (Hck : check_tag c' addr = cache_sim_t_check_tag c' addr).
  { unfold check_tag. cbn. rewrite Hfa. reflexivity. }
  destruct (sa_check_tag_spec c' addr Hwf' Ha) as
    [(j & t & Hj & Hscan & Ht & Hc & Hfirst)|[Hscan Hnone]].
  - split; [rewrite Hck; eauto|].
    intros Hmiss. rewrite Hck, Hscan. do 3 f_equal.
    change (set_index c' addr) with (set_index c addr) in *.
    change (ways c') with (ways c) in *.
    change (line_tag c' addr) with (Z.shiftr addr (idx_shift c)) in *. fold T in Hc, Hfirst.
    destruct (Z.lt_trichotomy j (r mod ways c)) as [Hlt|[->|Hgt]]; [|reflexivity|].
    + exfalso. unfold check_tag in Hmiss. rewrite Hfa in Hmiss.
      destruct (sa_check_tag_spec c addr Hwf Ha) as [(j0 & t0 & _ & E0 & _)|[_ Hnone]];
        [congruence|].
      cbn in Ht. rewrite list_lookup_insert_ne in Ht by (subst pos; lia).
      assert (Hf : compares (Z.lor (line_tag c addr) VALID) t = false)
        by (apply (Hnone j); [lia|assumption]).
      unfold line_tag in Hf. fold T in Hf. congruence.
    + exfalso.
      assert (Hf : compares T T = false) by (apply (Hfirst (r mod ways c)); [lia|exact Hnew]).
      congruence.
  - exfalso.
    assert (Hf : compares (Z.lor (line_tag c' addr) VALID) T = false)
      by (apply (Hnone (r mod ways c)); [exact Hway|exact Hnew]).
    change (line_tag c' addr) with (Z.shiftr addr (idx_shift c)) in Hf. fold T in Hf.
    congruence.
Qed.

Lemma fa_victimize_total c m addr :
  well_formed c -> fa_tags c = Some m -> 0 < ways c ->
  is_Some (fa_cache_sim_t_victimize c m addr).
Proof.
  intros Hwf Hfa Hw. unfold fa_cache_sim_t_victimize.
  destruct (Z.eqb_spec (std_map.size m) (ways c)) as [Hsz|Hsz]; [|cbn; eauto].
  destruct (lfsr_t.next (lfsr c)) as [r l] eqn:En.
  destruct (Z.eqb_spec (ways c) 0); [lia|].
  pose proof (lfsr_next_nonneg (lfsr c) (wf_lfsr _ Hwf)) as [Hr _]. rewrite En in Hr. cbn in Hr.
  assert (Hway : 0 <= r mod ways c < ways c) by (apply Z.mod_pos_bound; lia).
  unfold std_map.at_offset, std_map.size in *.
  destruct (m !! Z.to_nat (r mod ways c)) eqn:E; [cbn; eauto|].
  apply lookup_ge_None in E. lia.
Qed.

Lemma fa_victimize_installs c m addr victim c' :
  well_formed c -> fa_tags c = Some m ->
  fa_cache_sim_t_victimize c m addr = Some (victim, c') ->
  exists m0 l0,
    ((std_map.size m = ways c /\
      (exists k, std_map.at_offset
                   (Z.to_nat (fst (lfsr_t.next (lfsr c)) mod ways c)) m = Some (k, victim)) /\
      m0 = std_map.erase (Z.to_nat (fst (lfsr_t.next (lfsr c)) mod ways c)) m /\
      l0 = snd (lfsr_t.next (lfsr c)))
     \/ (std_map.size m <> ways c /\ victim = 0 /\ m0 = m /\ l0 = lfsr c)) /\
    c' = set_fa_tags (set_lfsr c l0)
           (Some (std_map.set (line_tag c addr) (Z.lor (line_tag c addr) VALID) m0)) /\
    well_formed c'.
Proof.
  intros Hwf Hfa. unfold fa_cache_sim_t_victimize.
  pose proof (wf_fa _ Hwf) as Hm. rewrite Hfa in Hm. destruct Hm as [Hord Hsz].
  destruct (Z.eqb_spec (std_map.size m) (ways c)) as [Esz|Esz].
  - destruct (lfsr_t.next (lfsr c)) as [r l] eqn:En. cbn [fst snd].
    destruct (Z.eqb_spec (ways c) 0) as [|Hw0]; [discriminate|].
    destruct (std_map.at_offset _ m) as [[k v]|] eqn:Eat; [|discriminate].
    cbn. intros [= <- <-].
    pose proof (lfsr_next_nonneg (lfsr c) (wf_lfsr _ Hwf)) as [_ Hl].
    rewrite En in Hl. cbn in Hl.
    eexists _, _. split; [left; eauto|]. split; [destruct c; reflexivity|].
    destruct Hwf. constructor; cbn; auto.
    split; [apply ordered_set, ordered_erase; assumption|].
    unfold std_map.size in *.
    pose proof (length_set_le (Z.shiftr addr (idx_shift c))
                  (Z.lor (Z.shiftr addr (idx_shift c)) VALID)
                  (std_map.erase (Z.to_nat (r mod ways c)) m)).
    rewrite length_erase in H by eauto.
    assert (length m <> O) by lia. lia.
  - cbn. intros [= <- <-].
    eexists _, _. split; [right; eauto|]. split; [destruct c; reflexivity|].
    destruct Hwf. constructor; cbn; auto.
    split; [apply ordered_set; assumption|].
    unfold std_map.size in *.
    pose proof (length_set_le (Z.shiftr addr (idx_shift c))
                  (Z.lor (Z.shiftr addr (idx_shift c)) VALID) m). lia.
Qed.

End Victimize.

(** ** What the operations keep *)

Section Preservation.

Context {N : Type} {MH : MissHandler N}.
Implicit Types (c : cache_sim_t N) (p q : slot).

(** Well-formedness, [check_tag] and [load] read the tag store, the
    generator and the configuration only. *)
Lemma well_formed_ext c c' :
  sets c' = sets c -> ways c' = ways c -> linesz c' = linesz c ->
  idx_shift c' = idx_shift c -> tags c' = tags c -> lfsr c' = lfsr c ->
  fa_tags c' = fa_tags c -> well_formed c -> well_formed c'.
Proof.
  intros E1 E2 E3 E4 E5 E6 E7 [H1 H2 H3 H4 H5 H6 H7 H8].
  constructor; rewrite ?E1, ?E2, ?E3, ?E4, ?E5, ?E6, ?E7; assumption.
Qed.

Lemma check_tag_ext c c' addr :
  sets c' = sets c -> ways c' = ways c -> idx_shift c' = idx_shift c ->
  tags c' = tags c -> fa_tags c' = fa_tags c ->
  check_tag c' addr = check_tag c addr.
Proof.
  intros E1 E2 E3 E4 E5.
  unfold check_tag, cache_sim_t_check_tag, fa_cache_sim_t_check_tag, set_index.
  rewrite E1, E2, E3, E4, E5. reflexivity.
Qed.

Lemma load_ext c c' p :
  tags c' = tags c -> fa_tags c' = fa_tags c -> load c' p = load c p.
Proof. intros E1 E2. unfold load. rewrite E1, E2. reflexivity. Qed.

Lemma to_miss_handler_shape c f c' :
  to_miss_handler c f = Some c' -> c' = set_miss_handler c (miss_handler c').
Proof.
  unfold to_miss_handler. destruct (miss_handler c) as [n|] eqn:E.
  - destruct (f n); [|discriminate]. cbn. intros [= <-]. reflexivity.
  - intros [= <-]. rewrite E. destruct c; cbn in *. subst. reflexivity.
Qed.

Lemma well_formed_count c bytes st :
  well_formed c -> well_formed (count_miss (count_access c bytes st) st).
Proof. apply well_formed_ext; destruct st; reflexivity. Qed.

Lemma check_tag_count c bytes st addr :
  check_tag (count_miss (count_access c bytes st) st) addr = check_tag c addr /\
  check_tag (count_access c bytes st) addr = check_tag c addr.
Proof. split; apply check_tag_ext; destruct st; reflexivity. Qed.

(** One read-modify-write of a slot. *)
Lemma or_into_store c p v mask :
  load c p = Some v -> or_into c p mask = store c p (Z.lor v mask).
Proof. intros H. unfold or_into. rewrite H. reflexivity. Qed.

Lemma and_not_into_store c p v mask :
  load c p = Some v -> and_not_into c p mask = store c p (Z.land v (Z.lnot mask)).
Proof. intros H. unfold and_not_into. rewrite H. reflexivity. Qed.

Lemma or_into_well_formed c p mask c' :
  well_formed c -> or_into c p mask = Some c' -> well_formed c'.
Proof.
  unfold or_into. intros Hwf. destruct (load c p); [|discriminate]. cbn.
  apply store_well_formed. assumption.
Qed.

Lemma and_not_into_well_formed c p mask c' :
  well_formed c -> and_not_into c p mask = Some c' -> well_formed c'.
Proof.
  unfold and_not_into. intros Hwf. destruct (load c p); [|discriminate]. cbn.
  apply store_well_formed. assumption.
Qed.

Lemma victimize_total c addr :
  well_formed c -> is_u64 addr -> 0 < ways c -> is_Some (victimize c addr).
Proof.
  intros Hwf Ha Hw. unfold victimize. destruct (fa_tags c) eqn:E.
  - apply fa_victimize_total; assumption.
  - apply sa_victimize_total; assumption.
Qed.

(** After [victimize] the address hits; if it missed before, the slot it
    hits holds the tag with VALID and nothing else. *)
Lemma victimize_installs c addr victim c' :
  well_formed c -> is_u64 addr -> victimize c addr = Some (victim, c') ->
  well_formed c' /\
  c' = set_fa_tags (set_tags (set_lfsr c (lfsr c')) (tags c')) (fa_tags c') /\
  is_fully_associative c' = is_fully_associative c /\
  (exists p, check_tag c' addr = Some (Some p)) /\
  (check_tag c addr = Some None ->
   resident_entry c' addr = Some (Z.lor (line_tag c addr) VALID)).
Proof.
  intros Hwf Ha. unfold victimize. destruct (fa_tags c) as [m|] eqn:Efa.
  - intros Hv.
    destruct (fa_victimize_installs c m addr victim c' Hwf Efa Hv)
      as (m0 & l0 & _ & -> & Hwf').
    split; [assumption|]. split; [destruct c; reflexivity|].
    split; [unfold is_fully_associative; cbn; rewrite Efa; reflexivity|].
    assert (Hck : check_tag
              (set_fa_tags (set_lfsr c l0)
                 (Some (std_map.set (line_tag c addr) (Z.lor (line_tag c addr) VALID) m0)))
              addr = Some (Some (map_slot (line_tag c addr)))).
    { unfold check_tag, fa_cache_sim_t_check_tag. cbn.
      fold (line_tag c addr). rewrite find_set_eq. reflexivity. }
    split; [eauto|]. intros _. unfold resident_entry. rewrite Hck.
    cbn. apply find_set_eq.
  - intros Hv.
    destruct (sa_victimize_installs c addr victim c' Hwf Ha Efa Hv)
      as (pos & way & Hway & Epos & _ & Hvic & -> & Hwf' & Hhit & Hmiss).
    split; [assumption|]. split; [destruct c; reflexivity|].
    split; [reflexivity|]. split; [assumption|].
    intros Hm. unfold resident_entry. rewrite (Hmiss Hm). cbn.
    apply list_lookup_insert_eq. apply lookup_lt_is_Some. eauto.
Qed.

Lemma access_well_formed c addr bytes st c' :
  well_formed c -> is_u64 addr -> access c addr bytes st = Some c' -> well_formed c'.
Proof.
  intros Hwf Ha. unfold access.
  assert (Hwf0 : well_formed (count_access c bytes st))
    by (revert Hwf; apply well_formed_ext; destruct st; reflexivity).
  destruct (check_tag (count_access c bytes st) addr) as [[p|]|]; cbn [mbind option_bind]; [| |discriminate].
  - destruct st; [apply or_into_well_formed; assumption|intros [= <-]; assumption].
  - pose proof (well_formed_count c bytes st Hwf) as Hwf1.
    destruct (victimize _ addr) as [[victim c2]|] eqn:Ev; [|discriminate]. cbn [mbind option_bind].
    destruct (victimize_installs _ _ _ _ Hwf1 Ha Ev) as (Hwf2 & _).
    destruct (Z.land victim (Z.lor VALID DIRTY) =? Z.lor VALID DIRTY).
    + destruct (to_miss_handler c2 _) as [c3|] eqn:E3; [|discriminate]. cbn [mbind option_bind].
      apply to_miss_handler_shape in E3.
      assert (Hwf3 : well_formed (set_writebacks c3 (wrap64 (writebacks c3 + 1)))).
      { rewrite E3. revert Hwf2. apply well_formed_ext; reflexivity. }
      destruct (to_miss_handler _ _) as [c4|] eqn:E4; [|discriminate]. cbn [mbind option_bind].
      apply to_miss_handler_shape in E4.
      assert (Hwf4 : well_formed c4).
      { rewrite E4. revert Hwf3. apply well_formed_ext; reflexivity. }
      destruct st; [|intros [= <-]; assumption].
      destruct (check_tag c4 addr) as [[p|]|]; cbn [mbind option_bind]; try discriminate.
      apply or_into_well_formed. assumption.
    + cbn [mbind option_bind]. destruct (to_miss_handler _ _) as [c4|] eqn:E4; [|discriminate]. cbn [mbind option_bind].
      apply to_miss_handler_shape in E4.
      assert (Hwf4 : well_formed c4).
      { rewrite E4. revert Hwf2. apply well_formed_ext; reflexivity. }
      destruct st; [|intros [= <-]; assumption].
      destruct (check_tag c4 addr) as [[p|]|]; cbn [mbind option_bind]; try discriminate.
      apply or_into_well_formed. assumption.
Qed.

Lemma clean_invalidate_line_well_formed c cur clean inval c' :
  well_formed c -> clean_invalidate_line c cur clean inval = Some c' -> well_formed c'.
Proof.
  intros Hwf. unfold clean_invalidate_line.
  destruct (check_tag c cur) as [[p|]|]; cbn [mbind option_bind]; [| |discriminate].
  - assert (Hstep : forall c1, (if clean then
               v ← load c p;
               if negb (Z.land v DIRTY =? 0)
               then and_not_into (set_writebacks c (wrap64 (writebacks c + 1))) p DIRTY
               else Some c
             else Some c) = Some c1 -> well_formed c1).
    { intros c1. destruct clean; [|intros [= <-]; assumption].
      destruct (load c p); [|discriminate]. cbn [mbind option_bind].
      destruct (negb _); [|intros [= <-]; assumption].
      apply and_not_into_well_formed. revert Hwf. apply well_formed_ext; reflexivity. }
    destruct (if clean then _ else _) as [c1|]; [|discriminate]. cbn [mbind option_bind].
    specialize (Hstep c1 eq_refl).
    destruct inval; [|intros [= <-]; assumption].
    apply and_not_into_well_formed. assumption.
  - intros [= <-]. assumption.
Qed.

Lemma clean_invalidate_loop_well_formed n c cur e clean inval c' :
  well_formed c -> clean_invalidate_loop n c cur e clean inval = Some c' -> well_formed c'.
Proof.
  revert c cur. induction n as [|n IH]; intros c cur Hwf; cbn [clean_invalidate_loop].
  - intros [= <-]. assumption.
  - destruct (cur <? e); [|intros [= <-]; assumption].
    destruct (clean_invalidate_line c cur clean inval) as [c1|] eqn:E1; [|discriminate].
    cbn. apply clean_invalidate_line_well_formed in E1; [|assumption].
    (* the step uses [linesz] of the engine before the round *)
    intros H. eapply IH; [exact E1|exact H].
Qed.

Lemma clean_invalidate_well_formed c addr bytes clean inval c' :
  well_formed c -> clean_invalidate c addr bytes clean inval = Some c' -> well_formed c'.
Proof.
  intros Hwf. unfold clean_invalidate.
  destruct (clean_invalidate_loop _ _ _ _ _ _) as [c1|] eqn:E1; [|discriminate]. cbn [mbind option_bind].
  apply clean_invalidate_loop_well_formed in E1; [|assumption].
  intros E2. apply to_miss_handler_shape in E2. rewrite E2.
  revert E1. apply well_formed_ext; reflexivity.
Qed.

Lemma copy_well_formed u c : well_formed c -> well_formed (copy u c).
Proof.
  intros [H1 H2 H3 H4 H5 H6 H7 H8]. constructor; cbn; auto.
  - rewrite length_take. unfold max_array_length in *.
    rewrite wrap64_small by (unfold is_u64; nia). lia.
  - unfold is_u32. lia.
Qed.

Lemma fa_copy_well_formed u c : well_formed c -> well_formed (fa_copy u c).
Proof.
  intros Hwf. pose proof (copy_well_formed u c Hwf) as [H1 H2 H3 H4 H5 H6 H7 _].
  destruct Hwf as [_ _ _ _ _ _ _ H8]. constructor; auto.
Qed.

Lemma reachable_well_formed c : reachable c -> well_formed c.
Proof.
  induction 1 as [config name c Hc|c addr bytes st c' _ IH Ha _ Hacc
                 |c addr bytes clean inval c' _ IH _ _ Hci|c b _ IH|c mh _ IH|u c _ IH
                 |u c m _ IH _].
  - destruct (construct_well_formed _ _ _ Hc) as (s & w & l & _ & Hwf & _). exact Hwf.
  - eapply access_well_formed; eauto.
  - eapply clean_invalidate_well_formed; eauto.
  - revert IH. apply well_formed_ext; reflexivity.
  - revert IH. apply well_formed_ext; reflexivity.
  - apply copy_well_formed. assumption.
  - apply fa_copy_well_formed. assumption.
Qed.

End Preservation.

(** ** A missing access *)

Section Access.

Context {N : Type} {MH : MissHandler N}.
Implicit Types (c : cache_sim_t N) (p q : slot).

Lemma issued_app (mh : option N) ks1 ks2 :
  issued mh (ks1 ++ ks2) = issued mh ks1 ≫= fun mh1 => issued mh1 ks2.
Proof.
  destruct mh as [n|]; cbn; [|reflexivity].
  revert n. induction ks1 as [|k ks1 IH]; intros n; cbn.
  - destruct (deliver_all n ks2); reflexivity.
  - destruct (deliver n k) as [n'|]; cbn; [apply IH|reflexivity].
Qed.

Lemma to_miss_handler_issued c k :
  to_miss_handler c (fun n => deliver n k) =
    mh' ← issued (miss_handler c) [k]; Some (set_miss_handler c mh').
Proof.
  unfold to_miss_handler, issued. destruct (miss_handler c) as [n|] eqn:E; cbn.
  - destruct (deliver n k); reflexivity.
  - rewrite <- E. destruct c; reflexivity.
Qed.

Lemma victimize_count c bytes st addr :
  victimize (count_miss (count_access c bytes st) st) addr =
    (fun r => (fst r, count_miss (count_access (snd r) bytes st) st)) <$> victimize c addr.
Proof.
  destruct c as [lf mh se wa li sh tg ra rm br wacc wm bw wb nm lg fa].
  unfold victimize, cache_sim_t_victimize, fa_cache_sim_t_victimize, set_index.
  destruct st; cbn [count_miss count_access fa_tags lfsr ways sets idx_shift tags
                    set_write_misses set_bytes_written set_write_accesses
                    set_read_misses set_bytes_read set_read_accesses
                    write_accesses bytes_written write_misses
                    read_accesses bytes_read read_misses linesz miss_handler
                    writebacks name log];
    destruct fa as [m|];
    destruct (lfsr_t.next lf) as [r l];
    repeat match goal with
      | |- context [if ?b then _ else _] => destruct b
      | |- context [std_map.at_offset ?n ?m] => destruct (std_map.at_offset n m)
      | |- context [tg !! ?n] => destruct (tg !! n)
      end; reflexivity.
Qed.

Lemma mark_dirty c addr p T :
  well_formed c -> check_tag c addr = Some (Some p) -> load c p = Some T ->
  exists c', or_into c p DIRTY = Some c' /\ well_formed c' /\
    c' = set_fa_tags (set_tags c (tags c')) (fa_tags c') /\
    check_tag c' addr = Some (Some p) /\
    load c' p = Some (Z.lor T DIRTY).
Proof.
  intros Hwf Hck Hl. rewrite (or_into_store c p T DIRTY Hl).
  destruct (store_load c p T (Z.lor T DIRTY) Hl) as (c' & Hst & Hl' & _).
  exists c'. split; [assumption|].
  split; [eapply store_well_formed; eauto|].
  split; [apply (store_shape _ _ _ _ Hst)|].
  split; [|assumption].
  rewrite <- Hck. eapply store_check_tag; eauto.
  intros _. apply compares_flag_DIRTY.
Qed.

(** The end of a missing access: the fetch, then the DIRTY mark of a store. *)
Lemma miss_tail c3 addr (st : bool) p T fetch :
  well_formed c3 -> check_tag c3 addr = Some (Some p) -> load c3 p = Some T ->
  match issued (miss_handler c3) [fetch] with
  | None =>
      (c1 ← to_miss_handler c3 (fun n => deliver n fetch);
       if st then
         r ← check_tag c1 addr;
         match r return option (cache_sim_t N) with
         | Some p1 => or_into c1 p1 DIRTY
         | None => None
         end
       else Some c1) = None
  | Some mh' =>
      exists c',
        (c1 ← to_miss_handler c3 (fun n => deliver n fetch);
         if st then
           r ← check_tag c1 addr;
           match r return option (cache_sim_t N) with
           | Some p1 => or_into c1 p1 DIRTY
           | None => None
           end
         else Some c1) = Some c' /\
        well_formed c' /\ miss_handler c' = mh' /\
        statistics c' = statistics c3 /\ lfsr c' = lfsr c3 /\
        check_tag c' addr = Some (Some p) /\
        load c' p = Some (Z.lor T (if st then DIRTY else 0))
  end.
Proof.
  intros Hwf Hck Hl. rewrite to_miss_handler_issued.
  destruct (issued (miss_handler c3) [fetch]) as [mh'|]; cbn [mbind option_bind];
    [|reflexivity].
  set (c4 := set_miss_handler c3 mh').
  assert (Hwf4 : well_formed c4) by (revert Hwf; apply well_formed_ext; reflexivity).
  assert (Hck4 : check_tag c4 addr = Some (Some p))
    by (rewrite <- Hck; apply check_tag_ext; reflexivity).
  assert (Hl4 : load c4 p = Some T) by (rewrite <- Hl; apply load_ext; reflexivity).
  destruct st.
  - rewrite Hck4. cbn [mbind option_bind].
    destruct (mark_dirty c4 addr p T Hwf4 Hck4 Hl4) as (c' & -> & Hwf' & Hsh & Hck' & Hl').
    exists c'. split; [reflexivity|]. split; [assumption|].
    rewrite Hsh. cbn. repeat split; try reflexivity.
    + rewrite <- Hsh. assumption.
    + rewrite <- Hsh. assumption.
  - exists c4. rewrite Z.lor_0_r. split; [reflexivity|]. split; [assumption|].
    repeat split; auto.
Qed.

(** The missing access, step by step. *)
Lemma access_miss c addr bytes st victim cv :
  well_formed c -> is_u64 addr ->
  check_tag c addr = Some None -> victimize c addr = Some (victim, cv) ->
  match issued (miss_handler c) (miss_calls c addr victim) with
  | None => access c addr bytes st = None
  | Some mh' =>
      exists c', access c addr bytes st = Some c' /\
        well_formed c' /\
        miss_handler c' = mh' /\
        statistics c' =
          statistics
            (set_writebacks (count_miss (count_access c bytes st) st)
               (if Z.testbit victim 63 && Z.testbit victim 62
                then wrap64 (writebacks c + 1) else writebacks c)) /\
        lfsr c' = lfsr cv /\
        (exists p, check_tag c' addr = Some (Some p) /\
           load c' p = Some (Z.lor (Z.lor (line_tag c addr) VALID)
                               (if st then DIRTY else 0)))
  end.
Proof.
  intros Hwf Ha Hmiss Hv.
  destruct (victimize_installs c addr victim cv Hwf Ha Hv)
    as (Hwfv & Hshape & _ & _ & Hres).
  specialize (Hres Hmiss). unfold resident_entry in Hres.
  destruct (check_tag cv addr) as [[p|]|] eqn:Hckv; try discriminate.
  unfold access.
  destruct (check_tag_count c bytes st addr) as [_ ->]. rewrite Hmiss.
  cbn [mbind option_bind].
  rewrite victimize_count, Hv. cbn [fmap option_fmap option_map mbind option_bind fst snd].
  rewrite has_both_flags. unfold miss_calls.
  set (c2 := count_miss (count_access cv bytes st) st).
  set (T := Z.lor (line_tag c addr) VALID) in *.
  assert (Hwf2 : well_formed c2) by (apply well_formed_count; assumption).
  assert (Hck2 : check_tag c2 addr = Some (Some p))
    by (rewrite <- Hckv; apply check_tag_count).
  assert (Hl2 : load c2 p = Some T)
    by (rewrite <- Hres; apply load_ext; destruct st; reflexivity).
  assert (Hmh : miss_handler c2 = miss_handler c)
    by (subst c2; rewrite Hshape; destruct st; reflexivity).
  assert (Hlin : linesz c2 = linesz c)
    by (subst c2; rewrite Hshape; destruct st; reflexivity).
  assert (Hsh : idx_shift c2 = idx_shift c)
    by (subst c2; rewrite Hshape; destruct st; reflexivity).
  assert (Hst2 : statistics c2 = statistics (count_miss (count_access c bytes st) st))
    by (subst c2; rewrite Hshape; destruct st; reflexivity).
  assert (Hlf2 : lfsr c2 = lfsr cv) by (subst c2; destruct st; reflexivity).
  assert (Hwb2 : writebacks c2 = writebacks c)
    by (subst c2; rewrite Hshape; destruct st; reflexivity).
  destruct (Z.testbit victim 63 && Z.testbit victim 62).
  - (* the evicted line is written back first *)
    rewrite issued_app.
    change (fun n : N => mh_access n (dirty_addr c2 victim) (linesz c2) true)
      with (fun n : N => deliver n (call_access (dirty_addr c2 victim) (linesz c2) true)).
    assert (Hda : dirty_addr c2 victim = dirty_addr c victim)
      by (unfold dirty_addr; rewrite Hsh; reflexivity).
    rewrite to_miss_handler_issued, Hmh, Hda, Hlin.
    destruct (issued (miss_handler c) [call_access (dirty_addr c victim) (linesz c) true])
      as [mh1|]; cbn [mbind option_bind]; [|reflexivity].
    set (c3 := set_writebacks (set_miss_handler c2 mh1)
                 (wrap64 (writebacks (set_miss_handler c2 mh1) + 1))).
    assert (Hwf3 : well_formed c3) by (revert Hwf2; apply well_formed_ext; reflexivity).
    assert (Hck3 : check_tag c3 addr = Some (Some p))
      by (rewrite <- Hck2; apply check_tag_ext; reflexivity).
    assert (Hl3 : load c3 p = Some T) by (rewrite <- Hl2; apply load_ext; reflexivity).
    pose proof (miss_tail c3 addr st p T
                  (call_access (line_addr c addr) (linesz c) false) Hwf3 Hck3 Hl3) as Ht.
    change (miss_handler c3) with mh1 in Ht.
    change (line_addr c3 addr) with (line_addr c2 addr).
    change (linesz c3) with (linesz c2).
    assert (Hla : line_addr c2 addr = line_addr c addr)
      by (unfold line_addr; rewrite Hlin; reflexivity).
    change (fun n : N => mh_access n (line_addr c2 addr) (linesz c2) false)
      with (fun n : N => deliver n (call_access (line_addr c2 addr) (linesz c2) false)).
    rewrite Hla, Hlin.
    destruct (issued mh1 [call_access (line_addr c addr) (linesz c) false]) as [mh'|];
      [|exact Ht].
    destruct Ht as (c' & Hacc & Hwf' & Hmh' & Hst' & Hlf' & Hck' & Hl').
    exists c'. split; [exact Hacc|]. split; [assumption|]. split; [assumption|].
    split; [|split; [rewrite Hlf'; exact Hlf2|eauto]].
    rewrite Hst'. unfold statistics in *. cbn. cbn in Hst2.
    injection Hst2 as -> -> -> -> -> ->. rewrite Hwb2. destruct st; reflexivity.
  - cbn [app mbind option_bind].
    pose proof (miss_tail c2 addr st p T
                  (call_access (line_addr c addr) (linesz c) false) Hwf2 Hck2 Hl2) as Ht.
    rewrite Hmh in Ht.
    assert (Hla : line_addr c2 addr = line_addr c addr)
      by (unfold line_addr; rewrite Hlin; reflexivity).
    change (fun n : N => mh_access n (line_addr c2 addr) (linesz c2) false)
      with (fun n : N => deliver n (call_access (line_addr c2 addr) (linesz c2) false)).
    rewrite Hla, Hlin.
    destruct (issued (miss_handler c) [call_access (line_addr c addr) (linesz c) false])
      as [mh'|]; [|exact Ht].
    destruct Ht as (c' & Hacc & Hwf' & Hmh' & Hst' & Hlf' & Hck' & Hl').
    exists c'. split; [exact Hacc|]. split; [assumption|]. split; [assumption|].
    split; [|split; [rewrite Hlf'; exact Hlf2|eauto]].
    rewrite Hst'. unfold statistics in *. cbn. cbn in Hst2.
    injection Hst2 as -> -> -> -> -> ->. rewrite Hwb2. destruct st; reflexivity.
Qed.

End Access.

Section AccessSpec.

Context {N : Type} {MH : MissHandler N}.
Implicit Types (c : cache_sim_t N) (p q : slot).

Lemma access_hit c addr bytes (st : bool) p :
  well_formed c -> is_u64 addr -> check_tag c addr = Some (Some p) ->
  exists c' v, access c addr bytes st = Some c' /\
    well_formed c' /\
    statistics c' = statistics (count_access c bytes st) /\
    miss_handler c' = miss_handler c /\ lfsr c' = lfsr c /\
    check_tag c' addr = Some (Some p) /\
    load c p = Some v /\
    load c' p = Some (if st then Z.lor v DIRTY else v).
Proof.
  intros Hwf Ha Hck.
  destruct (hit_load c addr p Hwf Ha Hck) as (v & Hv & _).
  unfold access. destruct (check_tag_count c bytes st addr) as [_ ->]. rewrite Hck.
  cbn [mbind option_bind].
  set (c0 := count_access c bytes st).
  assert (Hwf0 : well_formed c0)
    by (revert Hwf; apply well_formed_ext; destruct st; reflexivity).
  assert (Hck0 : check_tag c0 addr = Some (Some p))
    by (rewrite <- Hck; apply check_tag_count).
  assert (Hl0 : load c0 p = Some v)
    by (rewrite <- Hv; apply load_ext; destruct st; reflexivity).
  destruct st.
  - destruct (mark_dirty c0 addr p v Hwf0 Hck0 Hl0) as (c' & -> & Hwf' & Hsh & Hck' & Hl').
    exists c', v. split; [reflexivity|]. split; [assumption|].
    split; [rewrite Hsh; reflexivity|]. split; [rewrite Hsh; reflexivity|].
    split; [rewrite Hsh; reflexivity|]. auto.
  - exists c0, v. split; [reflexivity|]. split; [assumption|]. repeat split; auto.
Qed.

(** An access of a well-formed engine with at least one way can only
    fail when the next level fails. *)
Lemma access_total c addr bytes st :
  well_formed c -> is_u64 addr -> 0 < ways c ->
  (forall ks, is_Some (issued (miss_handler c) ks)) ->
  is_Some (access c addr bytes st).
Proof.
  intros Hwf Ha Hw Hmh.
  destruct (check_tag_total c addr Hwf Ha) as [[p|] Hck].
  - destruct (access_hit c addr bytes st p Hwf Ha Hck) as (c' & v & -> & _). eauto.
  - destruct (victimize_total c addr Hwf Ha Hw) as [[victim cv] Hv].
    pose proof (access_miss c addr bytes st victim cv Hwf Ha Hck Hv) as H.
    destruct (Hmh (miss_calls c addr victim)) as [mh' E]. rewrite E in H.
    destruct H as (c' & -> & _). eauto.
Qed.

(** The address written back is the line address of the evicted line. *)
Lemma dirty_addr_line c b flags :
  well_formed c -> is_u64 b ->
  Z.land flags (Z.lnot (Z.lor VALID DIRTY)) = 0 ->
  dirty_addr c (Z.lor (line_tag c b) flags) = line_addr c b.
Proof.
  intros Hwf Hb Hflags. unfold dirty_addr.
  pose proof (wf_idx_shift _ Hwf) as Hsh. pose proof (wf_linesz _ Hwf) as Hlin.
  pose proof (line_tag_bound c b Hwf Hb) as Ht.
  assert (E : Z.land (Z.lor (line_tag c b) flags) (Z.lnot (Z.lor VALID DIRTY))
              = line_tag c b).
  { rewrite Z.land_lor_distr_l, Hflags, Z.lor_0_r.
    by_bits i Hi.
    destruct (Z.eqb_spec i 63) as [->|]; [rewrite (testbit_above _ 61) by lia; reflexivity|].
    destruct (Z.eqb_spec i 62) as [->|]; [rewrite (testbit_above _ 61) by lia; reflexivity|].
    apply andb_true_r. }
  rewrite E, line_addr_shift by assumption. unfold line_tag.
  apply wrap64_small. rewrite <- line_addr_shift by assumption.
  unfold line_addr, is_u64 in *.
  assert (Hm : is_u64 (linesz c - 1)).
  { rewrite Hlin. unfold is_u64.
    assert (0 < 2 ^ idx_shift c) by (apply Z.pow_pos_nonneg; lia).
    assert (2 ^ idx_shift c < 2 ^ 64) by (apply Z.pow_lt_mono_r; lia). lia. }
  rewrite (wrap64_small _ Hm).
  rewrite <- Z.ldiff_land.
  assert (0 <= Z.ldiff b (linesz c - 1)) by (apply Z.ldiff_nonneg; lia).
  assert (Z.ldiff b (linesz c - 1) <= b); [|lia].
  apply Z.ldiff_le; [lia|].
  apply Z.bits_inj'. intros i Hi. rewrite !Z.ldiff_spec, Z.testbit_0_l.
  destruct (Z.testbit b i), (Z.testbit (linesz c - 1) i); reflexivity.
Qed.

End AccessSpec.

(** ** The claims about accesses *)

(** C5. On a missing access the direction's miss counter is incremented
    and a victim is chosen.  When the evicted word has both VALID and
    DIRTY, [writebacks] is incremented once and a linked next level
    receives one [access (dirty_addr, linesz, true)]; then a linked next
    level receives one [access (line address, linesz, false)], whether or
    not a writeback occurred; nothing else is sent.  Afterwards the
    address hits a slot holding its tag with VALID, and with DIRTY
    exactly when the access is a store.  The access fails only if the
    next level does.  The address written back is the line address of
    the line whose tag the evicted word holds. *)
Theorem access_miss_spec {N : Type} {MH : MissHandler N}
    (c : cache_sim_t N) (addr bytes : Z) (st : bool) (victim : Z) (cv : cache_sim_t N)
    (Hwf : well_formed c) (Ha : is_u64 addr)
    (Hmiss : is_miss c addr) (Hv : victimize c addr = Some (victim, cv)) :
  match issued (miss_handler c) (miss_calls c addr victim) with
  | None => access c addr bytes st = None
  | Some mh' =>
      exists c', access c addr bytes st = Some c' /\
        well_formed c' /\
        miss_handler c' = mh' /\
        statistics c' =
          statistics
            (set_writebacks (count_miss (count_access c bytes st) st)
               (if Z.testbit victim 63 && Z.testbit victim 62
                then wrap64 (writebacks c + 1) else writebacks c)) /\
        lfsr c' = lfsr cv /\
        (exists p, check_tag c' addr = Some (Some p) /\
           load c' p = Some (Z.lor (Z.lor (line_tag c addr) VALID)
                               (if st then DIRTY else 0)))
  end /\
  (forall b, is_u64 b ->
     dirty_addr c (Z.lor (Z.lor (line_tag c b) VALID) DIRTY) = line_addr c b).
Proof.
  split; [apply access_miss; assumption|].
  intros b Hb. rewrite <- Z.lor_assoc. apply dirty_addr_line; [assumption..|].
  by_bits i Hi. rewrite Z.testbit_0_l.
  destruct (i =? 63), (i =? 62); reflexivity.
Qed.

Lemma access_miss_spec_witness :
  exists c, scenario "1:1:64" [call_access 0 8 true] = Some c /\
    is_miss c 64 /\
    exists c', access c 64 8 false = Some c' /\
      miss_handler c' = Some [call_access 0 64 false;
                              call_access 0 64 true; call_access 64 64 false] /\
      writebacks c' = 1 /\ read_misses c' = 1 /\ write_misses c' = 1.
Proof.
  eexists. split; [vm_compute; reflexivity|].
  match goal with |- is_miss ?c _ /\ _ => set (c0 := c) end.
  assert (Hwf : well_formed c0).
  { constructor; cbn; try lia; try exact I; try reflexivity. unfold is_u32. cbn. lia. }
  assert (Ha : is_u64 64) by (unfold is_u64; lia).
  assert (Hmiss : is_miss c0 64) by reflexivity.
  split; [exact Hmiss|].
  destruct (victimize c0 64) as [[victim cv]|] eqn:Ev; [|vm_compute in Ev; discriminate].
  pose proof (access_miss_spec c0 64 8 false victim cv Hwf Ha Hmiss Ev) as [H _].
  assert (Evic : victim = Z.lor (Z.lor 0 VALID) DIRTY).
  { vm_compute in Ev. injection Ev as <- _. reflexivity. }
  subst victim.
  change (issued (miss_handler c0) (miss_calls c0 64 (Z.lor (Z.lor 0 VALID) DIRTY)))
    with (Some (Some [call_access 0 64 false; call_access 0 64 true;
                      call_access 64 64 false])) in H.
  destruct H as (c' & Hacc & _ & Hmh & Hst & _).
  exists c'. split; [exact Hacc|]. split; [exact Hmh|].
  unfold statistics in Hst. cbn in Hst. injection Hst as _ ? _ _ ? _ ?. auto.
Defined.

(** ** Reachability of scenarios *)

Lemma deliver_reachable {N : Type} {MH : MissHandler N} (c : cache_sim_t N) k c' :
  reachable c -> call_u64 k -> deliver c k = Some c' -> reachable c'.
Proof.
  intros Hr Hk Hd. destruct k as [a b s|a b cl iv]; destruct Hk as [Ha Hb]; cbn in Hd.
  - exact (reach_access c a b s c' Hr Ha Hb Hd).
  - exact (reach_clean_invalidate c a b cl iv c' Hr Ha Hb Hd).
Qed.

Lemma deliver_all_reachable {N : Type} {MH : MissHandler N} ks (c : cache_sim_t N) c' :
  reachable c -> Forall call_u64 ks -> deliver_all c ks = Some c' -> reachable c'.
Proof.
  revert c. induction ks as [|k ks IH]; intros c Hr Hks; cbn [deliver_all].
  - intros [= <-]. exact Hr.
  - inversion Hks as [|? ? Hk Hks']; subst.
    destruct (deliver c k) as [c1|] eqn:Ed; [|discriminate]. cbn [mbind option_bind].
    apply IH; [|assumption]. exact (deliver_reachable c k c1 Hr Hk Ed).
Qed.

Lemma scenario_reachable config ops c :
  scenario config ops = Some c -> Forall call_u64 ops -> reachable c.
Proof.
  unfold scenario. destruct (construct config "D$") as [|c0] eqn:Ec; [discriminate|].
  intros Hd Hops. eapply deliver_all_reachable; [|exact Hops|exact Hd].
  apply reach_set_miss_handler. exact (reach_construct _ _ _ Ec).
Qed.

(** Two levels: a store miss then a read miss in a one-line first level
    send a fetch, the write of the evicted line and a second fetch to the
    second level, where the write hits the line fetched first. *)
Example two_level_chain :
  exists (l2 : hierarchy 0) (l1 l1' : hierarchy 1) (l2' : hierarchy 0),
    construct "16:4:64" "L2$" = inr l2 /\
    match construct "1:1:64" "D$" with
    | inr c => Some (set_miss_handler c (Some l2))
    | inl _ => None
    end = Some l1 /\
    deliver_all l1 [call_access 0 8 true; call_access 64 8 false] = Some l1' /\
    statistics l1' = (1, 1, 8, 1, 1, 8, 1) /\
    miss_handler l1' = Some l2' /\
    statistics l2' = (2, 2, 128, 1, 0, 64, 0) /\
    resident_dirty l2' 0 = true.
Proof.
  eexists _, _, _, _. split; [vm_compute; reflexivity|].
  split; [vm_compute; reflexivity|]. split; [vm_compute; reflexivity|].
  repeat split.
Qed.

(** C9. In every reachable state of either variant, once [victimize]
    has installed the entry of a 64-bit address, [check_tag] of that
    address returns a slot that can be read and written: the store-miss
    step has a pointer to dereference.  Accordingly an access for which
    [victimize] returns can only fail through the next level. *)
Theorem victimize_then_check_tag {N : Type} {MH : MissHandler N}
    (c : cache_sim_t N) (addr victim : Z) (c' : cache_sim_t N)
    (Hr : reachable c) (Ha : is_u64 addr)
    (Hv : victimize c addr = Some (victim, c')) :
  (exists p v c'', check_tag c' addr = Some (Some p) /\ load c' p = Some v /\
                   or_into c' p DIRTY = Some c'') /\
  (forall bytes st, access c addr bytes st = None ->
     issued (miss_handler c) (miss_calls c addr victim) = None).
Proof.
  pose proof (reachable_well_formed c Hr) as Hwf.
  destruct (victimize_installs c addr victim c' Hwf Ha Hv) as (Hwf' & _ & _ & [p Hp] & _).
  split.
  - destruct (hit_load c' addr p Hwf' Ha Hp) as (v & Hl & _).
    destruct (mark_dirty c' addr p v Hwf' Hp Hl) as (c'' & Hor & _).
    exists p, v, c''. auto.
  - intros bytes st Hnone.
    destruct (check_tag_total c addr Hwf Ha) as [[q|] Hck].
    + destruct (access_hit c addr bytes st q Hwf Ha Hck) as (c1 & v & E & _). congruence.
    + pose proof (access_miss c addr bytes st victim c' Hwf Ha Hck Hv) as H.
      destruct (issued (miss_handler c) (miss_calls c addr victim)); [|reflexivity].
      destruct H as (c1 & E & _). congruence.
Qed.

Lemma victimize_then_check_tag_witness :
  exists c : cache_sim_t (list call),
    construct "16:4:64" "D$" = inr c /\
    exists victim c' p, victimize c 4096 = Some (victim, c') /\
                        check_tag c' 4096 = Some (Some p).
Proof.
  eexists. split; [vm_compute; reflexivity|].
  match goal with |- exists _ _ _, victimize ?c _ = _ /\ _ => set (c0 := c) end.
  assert (Hr : reachable c0) by (apply (reach_construct "16:4:64" "D$"); vm_compute; reflexivity).
  assert (Ha : is_u64 4096) by (unfold is_u64; lia).
  destruct (victimize c0 4096) as [[victim c']|] eqn:Ev; [|vm_compute in Ev; discriminate].
  destruct (victimize_then_check_tag c0 4096 victim c' Hr Ha Ev) as [(p & v & c'' & Hp & _) _].
  exists victim, c', p. auto.
Defined.

(** C8. In a reachable fully-associative engine the map is held in
    ascending key order and never has more than [ways] entries.
    [victimize] removes an entry exactly when the map has [ways] entries:
    the one at offset [next() mod ways] of the iteration order, whose
    value it returns; otherwise it removes nothing and returns 0.  In
    both cases the entry of the address is then set to its tag with
    VALID and the bound on the number of entries still holds. *)
Theorem fa_victimize_spec {N : Type} {MH : MissHandler N}
    (c : cache_sim_t N) (m : std_map)
    (Hr : reachable c) (Hfa : fa_tags c = Some m) :
  std_map.ordered m /\ std_map.size m <= ways c /\
  forall addr victim c', is_u64 addr -> victimize c addr = Some (victim, c') ->
    let k := line_tag c addr in
    exists m', fa_tags c' = Some m' /\
      std_map.ordered m' /\ std_map.size m' <= ways c' /\
      ((std_map.size m = ways c /\
        exists n kv,
          n = Z.to_nat (fst (lfsr_t.next (lfsr c)) mod ways c) /\
          std_map.at_offset n m = Some (kv, victim) /\
          m' = std_map.set k (Z.lor k VALID) (std_map.erase n m) /\
          std_map.size (std_map.erase n m) = std_map.size m - 1 /\
          (forall k2, std_map.find k2 m' =
                      if k2 =? k then Some (Z.lor k VALID)
                      else if k2 =? kv then None else std_map.find k2 m))
       \/
       (std_map.size m <> ways c /\ victim = 0 /\
        m' = std_map.set k (Z.lor k VALID) m /\
        (forall k2, std_map.find k2 m' =
                    if k2 =? k then Some (Z.lor k VALID) else std_map.find k2 m))).
Proof.
  pose proof (reachable_well_formed c Hr) as Hwf.
  pose proof (wf_fa _ Hwf) as Hm. rewrite Hfa in Hm. destruct Hm as [Hord Hsz].
  split; [assumption|]. split; [assumption|].
  intros addr victim c' Ha Hv k.
  unfold victimize in Hv. rewrite Hfa in Hv.
  destruct (fa_victimize_installs c m addr victim c' Hwf Hfa Hv)
    as (m0 & l0 & Hcase & -> & Hwf').
  pose proof (wf_fa _ Hwf') as Hm'. cbn in Hm'. destruct Hm' as [Hord' Hsz'].
  eexists. split; [reflexivity|]. split; [assumption|]. split; [assumption|].
  destruct Hcase as [(Esz & [kv Hat] & -> & ->)|(Esz & -> & -> & ->)].
  - left. split; [assumption|]. eexists _, kv. split; [reflexivity|].
    split; [exact Hat|]. split; [reflexivity|]. split.
    + unfold std_map.size. rewrite length_erase by eauto.
      assert (length m <> O).
      { unfold std_map.at_offset in Hat. apply lookup_lt_Some in Hat. lia. }
      lia.
    + intros k2. fold k. destruct (Z.eqb_spec k2 k) as [->|Hne].
      * apply find_set_eq.
      * rewrite find_set_ne by congruence. apply (find_erase _ _ victim); assumption.
  - right. split; [assumption|]. split; [reflexivity|]. split; [reflexivity|].
    intros k2. fold k. destruct (Z.eqb_spec k2 k) as [->|Hne].
    + apply find_set_eq.
    + apply find_set_ne. congruence.
Qed.

Lemma fa_victimize_spec_witness :
  exists c : cache_sim_t (list call),
    scenario "1:8:64" (map (fun i => call_access (64 * i) 1 false)
                         [0; 1; 2; 3; 4; 5; 6; 7]) = Some c /\
    exists m, fa_tags c = Some m /\ std_map.size m = ways c /\
      exists c' m', victimize c 4096 = Some (Z.lor 1 VALID, c') /\
                    fa_tags c' = Some m' /\ std_map.size m' <= ways c' /\
                    std_map.find 1 m' = None /\
                    std_map.find 64 m' = Some (Z.lor 64 VALID).
Proof.
  eexists. split; [vm_compute; reflexivity|].
  match goal with |- exists _, fa_tags ?c = _ /\ _ => set (c0 := c) end.
  assert (Hr : reachable c0).
  { apply (scenario_reachable "1:8:64"
             (map (fun i => call_access (64 * i) 1 false) [0; 1; 2; 3; 4; 5; 6; 7]));
      [vm_compute; reflexivity|].
    repeat constructor; unfold is_u64; cbn; lia. }
  eexists. split; [reflexivity|]. split; [reflexivity|].
  assert (Ha : is_u64 4096) by (unfold is_u64; lia).
  destruct (victimize c0 4096) as [[victim c']|] eqn:Ev; [|vm_compute in Ev; discriminate].
  destruct (fa_victimize_spec c0 _ Hr eq_refl) as (_ & _ & H).
  destruct (H 4096 victim c' Ha Ev) as (m' & Hm' & _ & Hsz & Hcase).
  assert (Evic : victim = Z.lor 1 VALID).
  { vm_compute in Ev. injection Ev as <- _. reflexivity. }
  subst victim. exists c', m'. split; [reflexivity|]. split; [assumption|].
  split; [assumption|].
  destruct Hcase as [(_ & n & kv & -> & Hat & _ & _ & Hfind)|(Hne & _)];
    [|exfalso; apply Hne; reflexivity].
  assert (Ekv : kv = 1) by (vm_compute in Hat; injection Hat as <-; reflexivity).
  subst kv. split; [rewrite (Hfind 1)|rewrite (Hfind 64)]; reflexivity.
Defined.

(** ** Tag words *)

Lemma compares_stored a b flag :
  0 <= a < 2 ^ 61 -> 0 <= b < 2 ^ 61 -> flag = 0 \/ flag = DIRTY ->
  (compares (Z.lor a VALID) (Z.lor (Z.lor b VALID) flag) = true <-> a = b).
Proof.
  intros Ha Hb Hflag.
  assert (E : compares (Z.lor a VALID) (Z.lor (Z.lor b VALID) flag)
              = (Z.lor a VALID =? Z.lor b VALID)).
  { destruct Hflag as [->| ->].
    - rewrite Z.lor_0_r. unfold compares. rewrite stored_tag_clean by lia. reflexivity.
    - destruct (compares_flag_DIRTY (Z.lor a VALID) (Z.lor b VALID)) as [-> _].
      unfold compares. rewrite stored_tag_clean by lia. reflexivity. }
  rewrite E, Z.eqb_eq. split; [apply lor_VALID_inj; lia|intros ->; reflexivity].
Qed.

(** C10. A reachable engine has [linesz >= 8] and [idx_shift >= 3], so
    the tag [addr >> idx_shift] of a 64-bit address has bits 62 and 63
    clear and never meets the VALID and DIRTY flags of a stored word.
    Hence two 64-bit addresses give the same stored word, and the
    comparison of [check_tag] succeeds between them, exactly when they
    lie in the same line. *)
Theorem tag_comparison_exact {N : Type} {MH : MissHandler N}
    (c : cache_sim_t N) (Hr : reachable c) :
  8 <= linesz c /\ 3 <= idx_shift c /\ linesz c = 2 ^ idx_shift c /\
  forall a, is_u64 a ->
    Z.testbit (line_tag c a) 62 = false /\ Z.testbit (line_tag c a) 63 = false /\
    forall b, is_u64 b ->
      (Z.lor (line_tag c a) VALID = Z.lor (line_tag c b) VALID
       <-> line_addr c a = line_addr c b) /\
      (compares (Z.lor (line_tag c a) VALID) (Z.lor (line_tag c b) VALID) = true
       <-> line_addr c a = line_addr c b) /\
      (compares (Z.lor (line_tag c a) VALID)
                (Z.lor (Z.lor (line_tag c b) VALID) DIRTY) = true
       <-> line_addr c a = line_addr c b).
Proof.
  pose proof (reachable_well_formed c Hr) as Hwf.
  pose proof (wf_idx_shift _ Hwf) as Hsh. pose proof (wf_linesz _ Hwf) as Hlin.
  split.
  { rewrite Hlin. change 8 with (2 ^ 3). apply Z.pow_le_mono_r; lia. }
  split; [lia|]. split; [assumption|].
  intros a Ha. pose proof (line_tag_bound c a Hwf Ha) as Hta.
  split; [apply (testbit_above _ 61); lia|].
  split; [apply (testbit_above _ 61); lia|].
  intros b Hb. pose proof (line_tag_bound c b Hwf Hb) as Htb.
  rewrite (same_line_iff c a b Hsh Hlin).
  split; [|split].
  - split; [apply lor_VALID_inj; lia|intros ->; reflexivity].
  - rewrite <- (Z.lor_0_r (Z.lor (line_tag c b) VALID)).
    apply compares_stored; auto.
  - apply compares_stored; auto.
Qed.

Lemma tag_comparison_exact_witness :
  exists c : cache_sim_t (list call),
    construct "16:4:64" "D$" = inr c /\ idx_shift c = 6 /\
    Z.testbit (line_tag c (2 ^ 64 - 1)) 62 = false /\
    (Z.lor (line_tag c 64) VALID = Z.lor (line_tag c 127) VALID).
Proof.
  eexists. split; [vm_compute; reflexivity|].
  match goal with |- idx_shift ?c = _ /\ _ => set (c0 := c) end.
  assert (Hr : reachable c0) by (apply (reach_construct "16:4:64" "D$"); vm_compute; reflexivity).
  destruct (tag_comparison_exact c0 Hr) as (_ & _ & _ & H).
  split; [reflexivity|]. split.
  - apply (H (2 ^ 64 - 1)). unfold is_u64. lia.
  - destruct (H 64) as (_ & _ & H64); [unfold is_u64; lia|].
    apply (H64 127); [unfold is_u64; lia|reflexivity].
Defined.

(** ** Validity of the slot a lookup returns *)

(** In the set-associative engine a slot returned by [check_tag] has
    VALID set and holds the tag of the address, DIRTY aside. *)
Lemma sa_hit_valid {N : Type} (c : cache_sim_t N) addr p :
  well_formed c -> is_u64 addr -> fa_tags c = None ->
  check_tag c addr = Some (Some p) ->
  exists v, load c p = Some v /\ Z.testbit v 63 = true /\
            Z.land v (Z.lnot DIRTY) = Z.lor (line_tag c addr) VALID.
Proof.
  intros Hwf Ha Hfa Hck. destruct (hit_load c addr p Hwf Ha Hck) as (v & Hv & Hc).
  rewrite Hfa in Hc. unfold compares in Hc. apply Z.eqb_eq in Hc.
  exists v. split; [assumption|]. split; [|congruence].
  apply (f_equal (fun x => Z.testbit x 63)) in Hc. revert Hc. cbv beta.
  flag_bits. flag_consts. rewrite orb_true_r, andb_true_r. congruence.
Qed.

Example sa_miss_after_invalidate :
  exists c, scenario "16:4:64" [call_access 0 1 false;
                                call_clean_invalidate 0 1 false true] = Some c /\
            check_tag c 0 = Some None.
Proof. eexists. split; [vm_compute; reflexivity|reflexivity]. Qed.

(** C3 fails in the fully-associative engine: [fa_cache_sim_t::check_tag]
    looks the key up and does not test VALID.  After a line is read and
    then invalidated, the lookup still returns its entry, whose VALID is
    clear, and the next read of the line is counted as a hit. *)
Theorem fa_hit_after_invalidate :
  exists c, scenario "1:8:64" [call_access 0 1 false;
                               call_clean_invalidate 0 1 false true] = Some c /\
    is_fully_associative c = true /\
    exists p v c',
      check_tag c 0 = Some (Some p) /\ load c p = Some v /\
      Z.testbit v 63 = false /\
      access c 0 1 false = Some c' /\
      read_misses c = 1 /\ read_misses c' = 1 /\ read_accesses c' = 2.
Proof.
  eexists. split; [vm_compute; reflexivity|]. split; [reflexivity|].
  eexists _, _, _. split; [reflexivity|]. split; [reflexivity|].
  split; [reflexivity|]. split; [vm_compute; reflexivity|]. repeat split.
Qed.

(** ** The copy constructor *)

(** What the copy does take from its source. *)
Lemma copy_tag_store {N : Type} (u : indeterminate) (rhs : cache_sim_t N) :
  well_formed rhs ->
  tags (copy u rhs) = tags rhs /\ fa_tags (copy u rhs) = None /\
  log (copy u rhs) = false /\ lfsr (copy u rhs) = lfsr_t.new.
Proof.
  intros [H1 H2 H3 H4 H5 H6 H7 H8]. cbn. repeat split.
  apply take_ge. unfold max_array_length in *.
  rewrite wrap64_small by (unfold is_u64; nia). lia.
Qed.

Lemma fa_copy_tag_store {N : Type} (u : indeterminate) (rhs : cache_sim_t N) :
  well_formed rhs ->
  tags (fa_copy u rhs) = tags rhs /\ fa_tags (fa_copy u rhs) = fa_tags rhs.
Proof.
  intros Hwf. destruct (copy_tag_store u rhs Hwf) as (Ht & _). split; [exact Ht|reflexivity].
Qed.

(** C2 fails on the counters: the copy constructor names neither the
    seven counters nor [miss_handler] in its initialiser list and does
    not assign them, so the counters of the copy are whatever the
    storage held, whatever the source counted.  After one read, the
    source has counted one access, one miss and eight bytes; a copy made
    in zeroed storage has none of them.  The tag array and the cleared
    logging flag are as claimed. *)
Theorem copy_counters_indeterminate :
  (forall (u : indeterminate) (rhs : cache_sim_t (list call)),
     statistics (copy u rhs) =
       (i_read_accesses u, i_read_misses u, i_bytes_read u,
        i_write_accesses u, i_write_misses u, i_bytes_written u, i_writebacks u) /\
     miss_handler (copy u rhs) = i_miss_handler u) /\
  exists rhs, scenario "16:4:64" [call_access 0 8 false] = Some rhs /\
    statistics rhs = (1, 1, 8, 0, 0, 0, 0) /\
    statistics (copy (mk_indeterminate None 0 0 0 0 0 0 0) rhs) = (0, 0, 0, 0, 0, 0, 0) /\
    tags (copy (mk_indeterminate None 0 0 0 0 0 0 0) rhs) = tags rhs /\
    log (copy (mk_indeterminate None 0 0 0 0 0 0 0) rhs) = false.
Proof.
  split; [intros u rhs; split; reflexivity|].
  eexists. split; [vm_compute; reflexivity|]. repeat split.
Qed.

(** ** One round of [clean_invalidate] *)

Section LineStep.

Context {N : Type}.
Implicit Types (c : cache_sim_t N) (p q : slot).

Lemma store_hit c p v v' :
  well_formed c -> load c p = Some v ->
  exists c', store c p v' = Some c' /\ well_formed c' /\
    c' = set_fa_tags (set_tags c (tags c')) (fa_tags c') /\
    is_fully_associative c' = is_fully_associative c /\
    load c' p = Some v' /\
    (forall q, q <> p -> load c' q = load c q) /\
    (forall b,
       (fa_tags c = None ->
        compares (Z.lor (line_tag c b) VALID) v' = compares (Z.lor (line_tag c b) VALID) v) ->
       check_tag c' b = check_tag c b).
Proof.
  intros Hwf Hl. destruct (store_load c p v v' Hl) as (c' & Hst & Hl' & Hfr).
  exists c'. split; [assumption|]. split; [eapply store_well_formed; eauto|].
  destruct (store_shape _ _ _ _ Hst) as [Hsh Hfa].
  do 4 (split; [assumption|]).
  intros b Hb. eapply store_check_tag; eauto.
Qed.

Lemma line_step c a (clean inval : bool) :
  well_formed c -> is_u64 a ->
  exists c', clean_invalidate_line c a clean inval = Some c' /\ well_formed c' /\
    c' = set_fa_tags (set_tags (set_writebacks c (writebacks c')) (tags c')) (fa_tags c') /\
    is_fully_associative c' = is_fully_associative c /\
    writebacks c' = (if clean && resident_dirty c a
                     then wrap64 (writebacks c + 1) else writebacks c) /\
    (forall q v, load c q = Some v ->
       load c' q = Some (if bool_decide (slot_of c a = Some q)
                         then maintained clean inval v else v)) /\
    (inval = false -> forall b, check_tag c' b = check_tag c b) /\
    (forall b, is_u64 b -> line_tag c b <> line_tag c a ->
               check_tag c' b = check_tag c b).
Proof.
  intros Hwf Ha. unfold clean_invalidate_line, resident_dirty, resident_entry, slot_of.
  destruct (check_tag_total c a Hwf Ha) as [[p|] Hck]; rewrite Hck; cbn [mbind option_bind].
  2:{ exists c. split; [reflexivity|]. split; [assumption|].
      split; [destruct c; reflexivity|]. split; [reflexivity|].
      rewrite andb_false_r. split; [reflexivity|].
      split; [|split; reflexivity].
      intros q v Hq. rewrite bool_decide_eq_false_2 by discriminate. assumption. }
  destruct (hit_load c a p Hwf Ha Hck) as (v0 & Hv0 & Hcmp). rewrite Hv0.
  (* the clean stage *)
  set (v1 := if clean && has_flag v0 DIRTY then Z.land v0 (Z.lnot DIRTY) else v0).
  assert (Hstage1 : exists c1,
    (if clean then
       v ← Some v0;
       if negb (Z.land v DIRTY =? 0)
       then and_not_into (set_writebacks c (wrap64 (writebacks c + 1))) p DIRTY
       else Some c
     else Some c) = Some c1 /\ well_formed c1 /\
    c1 = set_fa_tags (set_tags (set_writebacks c (writebacks c1)) (tags c1)) (fa_tags c1) /\
    is_fully_associative c1 = is_fully_associative c /\
    writebacks c1 = (if clean && has_flag v0 DIRTY
                     then wrap64 (writebacks c + 1) else writebacks c) /\
    load c1 p = Some v1 /\
    (forall q, q <> p -> load c1 q = load c q) /\
    (forall b, check_tag c1 b = check_tag c b)).
  { subst v1. unfold has_flag.
    destruct clean; cbn [andb mbind option_bind];
      [destruct (negb (Z.land v0 DIRTY =? 0))|].
    - set (cw := set_writebacks c (wrap64 (writebacks c + 1))).
      assert (Hwfw : well_formed cw) by (revert Hwf; apply well_formed_ext; reflexivity).
      assert (Hlw : load cw p = Some v0) by (rewrite <- Hv0; apply load_ext; reflexivity).
      rewrite (and_not_into_store cw p v0 DIRTY Hlw).
      destruct (store_hit cw p v0 (Z.land v0 (Z.lnot DIRTY)) Hwfw Hlw)
        as (c1 & -> & Hwf1 & Hsh & Hfa & Hl1 & Hfr & Hckf).
      exists c1. split; [reflexivity|]. split; [assumption|].
      split; [rewrite Hsh at 1; rewrite Hsh; destruct c; reflexivity|].
      split; [assumption|]. split; [rewrite Hsh; reflexivity|].
      split; [assumption|]. split.
      + intros q Hq. rewrite (Hfr q Hq). apply load_ext; reflexivity.
      + intros b. rewrite Hckf; [apply check_tag_ext; reflexivity|].
        intros _. apply compares_flag_DIRTY.
    - exists c. split; [reflexivity|]. split; [assumption|].
      split; [destruct c; reflexivity|]. auto.
    - exists c. split; [reflexivity|]. split; [assumption|].
      split; [destruct c; reflexivity|]. auto. }
  destruct Hstage1 as (c1 & -> & Hwf1 & Hsh1 & Hfa1 & Hw1 & Hl1 & Hfr1 & Hck1).
  cbn [mbind option_bind].
  destruct inval.
  - (* the invalidate stage *)
    rewrite (and_not_into_store c1 p v1 VALID Hl1).
    destruct (store_hit c1 p v1 (Z.land v1 (Z.lnot VALID)) Hwf1 Hl1)
      as (c2 & -> & Hwf2 & Hsh2 & Hfa2 & Hl2 & Hfr2 & Hckf).
    exists c2. split; [reflexivity|]. split; [assumption|].
    split.
    { rewrite Hsh2 at 1. rewrite Hsh1 at 1. rewrite Hsh2, Hsh1. destruct c; reflexivity. }
    split; [congruence|].
    split; [rewrite Hsh2; exact Hw1|].
    split.
    { intros q v Hq. destruct (decide (q = p)) as [->|Hne].
      - rewrite bool_decide_eq_true_2 by reflexivity.
        rewrite Hv0 in Hq. injection Hq as <-. rewrite Hl2. reflexivity.
      - rewrite bool_decide_eq_false_2 by congruence.
        rewrite Hfr2, Hfr1 by assumption. assumption. }
    split; [discriminate|].
    intros b Hb Hne. rewrite Hckf; [apply Hck1|].
    intros Hfa. assert (Hfa0 : fa_tags c = None).
    { unfold is_fully_associative in Hfa1. rewrite Hfa in Hfa1.
      destruct (fa_tags c); [discriminate|reflexivity]. }
    rewrite Hfa0 in Hcmp.
    assert (Elt : forall x, line_tag c1 x = line_tag c x)
      by (intros x; unfold line_tag; rewrite Hsh1; reflexivity).
    rewrite Elt.
    assert (Hf1 : compares (Z.lor (line_tag c b) VALID) v1 = false).
    { assert (E : compares (Z.lor (line_tag c b) VALID) v1
                  = compares (Z.lor (line_tag c b) VALID) v0).
      { subst v1. destruct (clean && has_flag v0 DIRTY); [|reflexivity].
        apply compares_flag_DIRTY. }
      rewrite E. destruct (compares (Z.lor (line_tag c b) VALID) v0) eqn:Eb; [|reflexivity].
      exfalso. apply Hne.
      pose proof (line_tag_bound c a Hwf Ha). pose proof (line_tag_bound c b Hwf Hb).
      apply (compares_tag _ _ v0); try lia; assumption. }
    rewrite Hf1. unfold compares. apply Z.eqb_neq. intros H. symmetry in H.
    exact (land_lnot_VALID_compare _ _ H).
  - exists c1. split; [reflexivity|]. split; [assumption|].
    split; [assumption|]. split; [assumption|]. split; [assumption|].
    split.
    { intros q v Hq. destruct (decide (q = p)) as [->|Hne].
      - rewrite bool_decide_eq_true_2 by reflexivity.
        rewrite Hv0 in Hq. injection Hq as <-. rewrite Hl1. reflexivity.
      - rewrite bool_decide_eq_false_2 by congruence.
        rewrite Hfr1 by assumption. assumption. }
    split; [intros _; exact Hck1|]. intros b _ _. apply Hck1.
Qed.

End LineStep.

(** ** All rounds of [clean_invalidate] *)

Section Rounds.

Context {N : Type}.
Implicit Types (c : cache_sim_t N) (p q : slot).

Lemma touched_app c done a q :
  touched c (done ++ [a]) q = touched c done q || bool_decide (slot_of c a = Some q).
Proof. unfold touched. rewrite existsb_app. cbn. rewrite orb_false_r. reflexivity. Qed.

Lemma dirty_lines_app c done a :
  dirty_lines c (done ++ [a])
  = (dirty_lines c done + if resident_dirty c a then 1 else 0)%nat.
Proof.
  unfold dirty_lines. rewrite List.filter_app, length_app. cbn.
  destruct (resident_dirty c a); reflexivity.
Qed.

Lemma incremented_succ k w : incremented (k + 1) w = wrap64 (incremented k w + 1).
Proof. unfold incremented. rewrite Nat.add_1_r. reflexivity. Qed.

(** A slot is hit by the addresses of one line only, so a line not yet
    visited finds its slot untouched. *)
Lemma untouched_slot c done a p :
  well_formed c -> is_u64 a -> Forall is_u64 done ->
  line_tag c a ∉ (line_tag c <$> done) ->
  slot_of c a = Some p -> touched c done p = false.
Proof.
  intros Hwf Ha Hdone Hnew Hp. unfold touched.
  apply not_true_is_false. intros Hex. apply existsb_exists in Hex as (a' & Hin & Hd).
  apply bool_decide_eq_true_1 in Hd. apply Hnew.
  apply list_elem_of_fmap. exists a'. split; [|apply list_elem_of_In; assumption].
  rewrite Forall_forall in Hdone.
  assert (Ha' : is_u64 a') by (apply Hdone, list_elem_of_In; assumption).
  unfold slot_of in *.
  destruct (check_tag c a) as [[pa|]|] eqn:Ea; try discriminate. injection Hp as ->.
  destruct (check_tag c a') as [[pa'|]|] eqn:Ea'; try discriminate. injection Hd as ->.
  eapply hit_exact; eauto.
Qed.

Lemma maintained_from_start c (clean inval : bool) :
  well_formed c -> maintained_from c c clean inval [].
Proof.
  intros Hwf. constructor; auto.
  - destruct c; reflexivity.
  - destruct clean; reflexivity.
Qed.

Lemma maintained_from_step c0 c (clean inval : bool) done a :
  well_formed c0 -> Forall is_u64 done -> is_u64 a ->
  line_tag c0 a ∉ (line_tag c0 <$> done) ->
  maintained_from c0 c clean inval done ->
  exists c', clean_invalidate_line c a clean inval = Some c' /\
             maintained_from c0 c' clean inval (done ++ [a]).
Proof.
  intros Hwf0 Hdone Ha Hnew [Hwf Hsh Hvar Hw Hload Hckc Hck].
  destruct (line_step c a clean inval Hwf Ha)
    as (c' & Hstep & Hwf' & Hsh' & Hvar' & Hw' & Hload' & Hckc' & Hck').
  exists c'. split; [assumption|].
  assert (Elt : forall x, line_tag c x = line_tag c0 x)
    by (intros x; unfold line_tag; rewrite Hsh; reflexivity).
  assert (Eck : check_tag c a = check_tag c0 a) by (apply Hck; assumption).
  assert (Eslot : slot_of c a = slot_of c0 a) by (unfold slot_of; rewrite Eck; reflexivity).
  assert (Erd : resident_dirty c a = resident_dirty c0 a).
  { unfold resident_dirty, resident_entry. rewrite Eck.
    destruct (check_tag c0 a) as [[p|]|] eqn:E0; try reflexivity.
    destruct (hit_load c0 a p Hwf0 Ha E0) as (v & Hv & _).
    rewrite (Hload p v Hv), Hv.
    rewrite (untouched_slot c0 done a p); auto.
    unfold slot_of. rewrite E0. reflexivity. }
  constructor.
  - assumption.
  - rewrite Hsh' at 1. rewrite Hsh at 1. rewrite Hsh', Hsh. destruct c0; reflexivity.
  - congruence.
  - rewrite Hw', Erd, Hw. destruct clean; cbn [andb]; [|reflexivity].
    rewrite dirty_lines_app. destruct (resident_dirty c0 a).
    + apply eq_sym, incremented_succ.
    + rewrite Nat.add_0_r. reflexivity.
  - intros q v Hq. rewrite (Hload' q _ (Hload q v Hq)), touched_app, Eslot.
    destruct (bool_decide (slot_of c0 a = Some q)) eqn:Ed.
    + apply bool_decide_eq_true_1 in Ed.
      rewrite (untouched_slot c0 done a q); auto.
    + rewrite orb_false_r. reflexivity.
  - intros Hinv b. rewrite (Hckc' Hinv). apply Hckc. assumption.
  - intros b Hb Hnb. rewrite fmap_app in Hnb. cbn in Hnb.
    rewrite Hck'; [apply Hck; [assumption|]|assumption|].
    + intros Hin. apply Hnb. apply elem_of_app. left. assumption.
    + rewrite !Elt. intros E. apply Hnb. apply elem_of_app. right.
      rewrite E. left.
Qed.

Lemma maintained_from_lines c0 (clean inval : bool) lines :
  forall done c,
    well_formed c0 -> Forall is_u64 done -> Forall is_u64 lines ->
    NoDup (line_tag c0 <$> (done ++ lines)) ->
    maintained_from c0 c clean inval done ->
    exists c', clean_invalidate_lines c lines clean inval = Some c' /\
               maintained_from c0 c' clean inval (done ++ lines).
Proof.
  induction lines as [|a rest IH]; intros done c Hwf0 Hdone Hlines Hnd Hinv.
  - exists c. rewrite app_nil_r. split; [reflexivity|assumption].
  - inversion Hlines as [|? ? Ha Hrest]; subst.
    assert (Hnew : line_tag c0 a ∉ (line_tag c0 <$> done)).
    { rewrite fmap_app in Hnd. cbn in Hnd.
      apply NoDup_app in Hnd as (_ & Hdisj & _). intros Hin.
      apply (Hdisj _ Hin). left. }
    destruct (maintained_from_step c0 c clean inval done a Hwf0 Hdone Ha Hnew Hinv)
      as (c1 & Hstep & Hinv1).
    cbn [clean_invalidate_lines]. rewrite Hstep. cbn [mbind option_bind].
    replace (done ++ a :: rest) with ((done ++ [a]) ++ rest)
      by (rewrite <- app_assoc; reflexivity).
    apply IH; auto.
    + apply Forall_app. split; [assumption|]. constructor; [assumption|constructor].
    + rewrite <- app_assoc. exact Hnd.
Qed.

End Rounds.

(** ** The range of [clean_invalidate] *)

Section Range.

Context {N : Type}.
Implicit Types (c : cache_sim_t N) (p q : slot).

Lemma linesz_pos c : well_formed c -> 8 <= linesz c < 2 ^ 64.
Proof.
  intros Hwf. rewrite (wf_linesz _ Hwf). pose proof (wf_idx_shift _ Hwf).
  split; [change 8 with (2 ^ 3); apply Z.pow_le_mono_r; lia|].
  apply Z.pow_lt_mono_r; lia.
Qed.

Lemma line_addr_div c x :
  well_formed c -> line_addr c x = linesz c * (x / linesz c).
Proof.
  intros Hwf. pose proof (wf_idx_shift _ Hwf).
  rewrite line_addr_shift by (apply Hwf || assumption).
  rewrite (wf_linesz _ Hwf), Z.shiftl_mul_pow2, Z.shiftr_div_pow2 by lia. lia.
Qed.

Lemma line_tag_mul c (n : Z) :
  well_formed c -> line_tag c (linesz c * n) = n.
Proof.
  intros Hwf. pose proof (wf_idx_shift _ Hwf). unfold line_tag.
  rewrite (wf_linesz _ Hwf), Z.shiftr_div_pow2 by lia.
  rewrite Z.mul_comm. apply Z.div_mul. apply Z.pow_nonzero; lia.
Qed.

Lemma end_addr_line c addr bytes :
  end_addr c addr bytes = line_addr c (wrap64 (addr + bytes + linesz c - 1)).
Proof. reflexivity. Qed.

(** The bounds of the loop as multiples of the line size. *)
Lemma range_bounds c addr bytes :
  well_formed c -> is_u64 addr -> is_u64 bytes ->
  let L := linesz c in
  let first := addr / L in
  let last := wrap64 (addr + bytes + L - 1) / L in
  start_addr c addr = L * first /\ end_addr c addr bytes = L * last /\
  0 <= first /\ 0 <= last /\ L * last < 2 ^ 64 /\
  rounds c addr bytes = Z.to_nat (last - first).
Proof.
  intros Hwf Ha Hb L first last. pose proof (linesz_pos c Hwf) as HL.
  pose proof (wrap64_range (addr + bytes + L - 1)) as Hw. fold L in HL.
  assert (E1 : start_addr c addr = L * first) by (apply line_addr_div; assumption).
  assert (E2 : end_addr c addr bytes = L * last)
    by (rewrite end_addr_line; apply line_addr_div; assumption).
  split; [assumption|]. split; [assumption|].
  assert (0 <= first) by (apply Z.div_pos; unfold is_u64 in *; lia).
  assert (0 <= last) by (apply Z.div_pos; unfold is_u64 in *; lia).
  assert (L * last <= wrap64 (addr + bytes + L - 1))
    by (apply Z.mul_div_le; lia).
  do 2 (split; [assumption|]). split; [unfold is_u64 in *; lia|].
  unfold rounds. rewrite E1, E2. fold L.
  replace (L * last - L * first) with ((last - first) * L) by lia.
  rewrite Z.div_mul by lia. reflexivity.
Qed.

Lemma visited_lines_eq c addr bytes :
  well_formed c -> is_u64 addr -> is_u64 bytes ->
  visited_lines c addr bytes =
    (fun k => linesz c * (addr / linesz c + Z.of_nat k)) <$> seq 0 (rounds c addr bytes).
Proof.
  intros Hwf Ha Hb. unfold visited_lines.
  destruct (range_bounds c addr bytes Hwf Ha Hb) as (-> & _).
  apply list_fmap_ext. intros _ k _. lia.
Qed.

Lemma visited_lines_u64 c addr bytes :
  well_formed c -> is_u64 addr -> is_u64 bytes ->
  Forall is_u64 (visited_lines c addr bytes).
Proof.
  intros Hwf Ha Hb. rewrite visited_lines_eq by assumption.
  destruct (range_bounds c addr bytes Hwf Ha Hb) as (_ & _ & H0 & H1 & Hlt & ->).
  pose proof (linesz_pos c Hwf) as HL.
  apply Forall_forall. intros x Hx.
  apply list_elem_of_fmap in Hx as (k & -> & Hk). apply elem_of_seq in Hk.
  unfold is_u64. split; [nia|]. 
  assert (addr / linesz c + Z.of_nat k < wrap64 (addr + bytes + linesz c - 1) / linesz c)
    by lia.
  nia.
Qed.

Lemma visited_lines_tags c addr bytes :
  well_formed c -> is_u64 addr -> is_u64 bytes ->
  NoDup (line_tag c <$> visited_lines c addr bytes).
Proof.
  intros Hwf Ha Hb. rewrite visited_lines_eq by assumption.
  rewrite <- list_fmap_compose.
  apply NoDup_fmap_2_strong; [|apply NoDup_seq].
  intros k1 k2 _ _. cbn. rewrite !line_tag_mul by assumption. lia.
Qed.

(** Without wrap-around of the end address, the loop visits the line of
    every address of the range. *)
Lemma visited_lines_cover c addr bytes x :
  well_formed c -> is_u64 addr -> is_u64 bytes ->
  addr + bytes + linesz c - 1 < 2 ^ 64 ->
  addr <= x < addr + bytes ->
  line_addr c x ∈ visited_lines c addr bytes.
Proof.
  intros Hwf Ha Hb Hnw Hx. rewrite visited_lines_eq by assumption.
  destruct (range_bounds c addr bytes Hwf Ha Hb) as (_ & _ & H0 & H1 & Hlt & ->).
  pose proof (linesz_pos c Hwf) as HL.
  rewrite wrap64_small by (unfold is_u64 in *; lia).
  rewrite line_addr_div by assumption.
  set (L := linesz c) in *.
  assert (Hlo : addr / L <= x / L) by (apply Z.div_le_mono; lia).
  assert (Hhi : x / L < (addr + bytes + L - 1) / L).
  { replace (addr + bytes + L - 1) with (addr + bytes - 1 + 1 * L) by lia.
    rewrite Z.div_add by lia.
    assert (x / L <= (addr + bytes - 1) / L) by (apply Z.div_le_mono; lia). lia. }
  apply list_elem_of_fmap. exists (Z.to_nat (x / L - addr / L)).
  split; [f_equal; lia|]. apply elem_of_seq. lia.
Qed.

(** And it visits no other line when the range is not empty. *)
Lemma visited_lines_within c addr bytes a :
  well_formed c -> is_u64 addr -> is_u64 bytes ->
  addr + bytes + linesz c - 1 < 2 ^ 64 -> 0 < bytes ->
  a ∈ visited_lines c addr bytes ->
  exists x, addr <= x < addr + bytes /\ line_addr c x = a.
Proof.
  intros Hwf Ha Hb Hnw Hpos. rewrite visited_lines_eq by assumption.
  destruct (range_bounds c addr bytes Hwf Ha Hb) as (_ & _ & H0 & H1 & Hlt & ->).
  pose proof (linesz_pos c Hwf) as HL.
  rewrite wrap64_small by (unfold is_u64 in *; lia).
  set (L := linesz c) in *.
  intros Hin. apply list_elem_of_fmap in Hin as (k & -> & Hk). apply elem_of_seq in Hk.
  assert (Hlast : (addr + bytes + L - 1) / L = (addr + bytes - 1) / L + 1).
  { replace (addr + bytes + L - 1) with (addr + bytes - 1 + 1 * L) by lia.
    apply Z.div_add. lia. }
  assert (HL0 : 0 < L) by lia.
  pose proof (Z.mul_div_le addr L HL0) as Hfloor.
  pose proof (Z.mul_succ_div_gt addr L HL0) as Hceil.
  pose proof (Z.mul_div_le (addr + bytes - 1) L HL0) as Hfloor2.
  destruct k as [|k].
  - exists addr. split; [lia|]. rewrite line_addr_div by assumption. fold L. lia.
  - exists (L * (addr / L + Z.of_nat (S k))). split.
    + unfold is_u64 in *. nia.
    + rewrite line_addr_div by assumption. fold L. f_equal.
      rewrite Z.mul_comm. apply Z.div_mul. lia.
Qed.

End Range.

(** ** The loop of [clean_invalidate] *)

Section Loop.

Context {N : Type}.
Implicit Types (c : cache_sim_t N).

Lemma line_step_linesz c a (clean inval : bool) c' :
  well_formed c -> is_u64 a -> clean_invalidate_line c a clean inval = Some c' ->
  well_formed c' /\ linesz c' = linesz c.
Proof.
  intros Hwf Ha Hstep.
  destruct (line_step c a clean inval Hwf Ha) as (c1 & E & Hwf1 & Hsh & _).
  rewrite Hstep in E. injection E as <-. split; [assumption|].
  rewrite Hsh. reflexivity.
Qed.

(** The loop runs the body on [cur_addr], [cur_addr + linesz], ... *)
Lemma loop_lines (clean inval : bool) n :
  forall c cur e,
    well_formed c -> 0 <= cur -> cur + Z.of_nat n * linesz c = e -> e < 2 ^ 64 ->
    clean_invalidate_loop n c cur e clean inval =
      clean_invalidate_lines c
        ((fun k => cur + Z.of_nat k * linesz c) <$> seq 0 n) clean inval.
Proof.
  induction n as [|n IH]; intros c cur e Hwf Hcur He Hlt; [reflexivity|].
  pose proof (linesz_pos c Hwf) as HL.
  cbn [clean_invalidate_loop seq fmap list_fmap clean_invalidate_lines].
  destruct (Z.ltb_spec cur e); [|nia].
  replace (cur + Z.of_nat 0 * linesz c) with cur by lia.
  destruct (clean_invalidate_line c cur clean inval) as [c1|] eqn:Estep;
    cbn [mbind option_bind]; [|reflexivity].
  destruct (line_step_linesz c cur clean inval c1 Hwf) as [Hwf1 EL];
    [unfold is_u64; lia|assumption|].
  rewrite EL, wrap64_small by (unfold is_u64; nia).
  rewrite (IH c1 (cur + linesz c) e) by (rewrite ?EL; auto; lia).
  f_equal. rewrite <- fmap_S_seq, <- list_fmap_compose.
  apply list_fmap_ext. intros _ k _. cbn. rewrite EL. lia.
Qed.

(** More rounds than [rounds] change nothing: the loop has ended by its
    own test. *)
Lemma loop_ended (clean inval : bool) n :
  forall extra c cur e j,
    well_formed c -> 0 <= cur -> e < 2 ^ 64 ->
    e - cur = j * linesz c -> j <= Z.of_nat n ->
    clean_invalidate_loop (n + extra) c cur e clean inval =
      clean_invalidate_loop n c cur e clean inval.
Proof.
  induction n as [|n IH]; intros extra c cur e j Hwf Hcur He Hj Hn;
    pose proof (linesz_pos c Hwf) as HL.
  - assert (e <= cur) by nia. cbn [Nat.add].
    destruct extra; cbn [clean_invalidate_loop]; [reflexivity|].
    destruct (Z.ltb_spec cur e); [lia|reflexivity].
  - cbn [Nat.add clean_invalidate_loop].
    destruct (Z.ltb_spec cur e); [|reflexivity].
    destruct (clean_invalidate_line c cur clean inval) as [c1|] eqn:Estep;
      cbn [mbind option_bind]; [|reflexivity].
    destruct (line_step_linesz c cur clean inval c1 Hwf) as [Hwf1 EL];
      [unfold is_u64; lia|assumption|].
    assert (1 <= j) by nia.
    rewrite EL, wrap64_small by (unfold is_u64; nia).
    apply (IH extra c1 (cur + linesz c) e (j - 1)); auto; rewrite ?EL; lia.
Qed.

Lemma rounds_suffice c addr bytes (clean inval : bool) extra :
  well_formed c -> is_u64 addr -> is_u64 bytes ->
  clean_invalidate_loop (rounds c addr bytes + extra) c
    (start_addr c addr) (end_addr c addr bytes) clean inval =
  clean_invalidate_loop (rounds c addr bytes) c
    (start_addr c addr) (end_addr c addr bytes) clean inval.
Proof.
  intros Hwf Ha Hb.
  destruct (range_bounds c addr bytes Hwf Ha Hb) as (E1 & E2 & H0 & H1 & Hlt & En).
  pose proof (linesz_pos c Hwf) as HL.
  apply (loop_ended clean inval _ extra c _ _
           (wrap64 (addr + bytes + linesz c - 1) / linesz c - addr / linesz c));
    auto; rewrite ?E1, ?E2, ?En; try nia.
Qed.

Lemma incremented_small k w :
  0 <= w -> w + Z.of_nat k < 2 ^ 64 -> incremented k w = w + Z.of_nat k.
Proof.
  induction k as [|k IH]; intros Hw Hk; [cbn; lia|].
  unfold incremented. rewrite Nat.iter_succ. fold (incremented k w).
  rewrite IH by lia. rewrite wrap64_small by (unfold is_u64; lia). lia.
Qed.

Lemma touched_true c lines p :
  touched c lines p = true <-> exists a, a ∈ lines /\ check_tag c a = Some (Some p).
Proof.
  unfold touched. rewrite existsb_exists. split.
  - intros (a & Hin & Hd). apply bool_decide_eq_true_1 in Hd. exists a.
    split; [apply list_elem_of_In; assumption|].
    unfold slot_of in Hd. destruct (check_tag c a) as [[q|]|]; congruence.
  - intros (a & Hin & Hck). exists a. split; [apply list_elem_of_In; assumption|].
    apply bool_decide_eq_true_2. unfold slot_of. rewrite Hck. reflexivity.
Qed.

End Loop.

(** What the loop body makes of a word, bit by bit. *)
Lemma maintained_bits (clean inval : bool) v i :
  0 <= i ->
  Z.testbit (maintained clean inval v) i =
    Z.testbit v i && negb ((i =? 62) && clean) && negb ((i =? 63) && inval).
Proof.
  intros Hi. unfold maintained. rewrite has_flag_testbit_DIRTY.
  assert (H62 : (i =? 62) = true -> Z.testbit v i = Z.testbit v 62)
    by (intros ->%Z.eqb_eq; reflexivity).
  destruct clean, inval, (Z.testbit v 62) eqn:Hd; cbn [andb]; flag_bits;
    destruct (i =? 62) eqn:E62; destruct (i =? 63) eqn:E63;
    rewrite ?(H62 eq_refl); cbn [negb andb];
    rewrite ?andb_true_r, ?andb_false_r; try reflexivity.
  all: try (apply Z.eqb_eq in E62; apply Z.eqb_eq in E63; lia).
Qed.

(** A set-associative lookup finds valid words only. *)
Lemma sa_found_valid {N : Type} (c : cache_sim_t N) (lines : list Z) :
  well_formed c -> Forall is_u64 lines -> fa_tags c = None -> found_valid c lines.
Proof.
  intros Hwf Hu Hsa a p v Hin Hck Hv.
  assert (Ha : is_u64 a) by (rewrite Forall_forall in Hu; auto).
  destruct (sa_hit_valid c a p Hwf Ha Hsa Hck) as (v' & Hv' & Hb & _). congruence.
Qed.

Lemma resident_dirty_lines_eq {N : Type} (c : cache_sim_t N) (lines : list Z) :
  found_valid c lines -> dirty_lines c lines = resident_dirty_lines c lines.
Proof.
  unfold dirty_lines, resident_dirty_lines. induction lines as [|a r IH]; intros Hv.
  - reflexivity.
  - cbn [List.filter].
    assert (Hr : found_valid c r).
    { intros x p v Hx. apply (Hv x p v). right. assumption. }
    assert (E : resident_dirty c a = resident_and_dirty c a).
    { unfold resident_dirty, resident_and_dirty, resident_entry.
      destruct (check_tag c a) as [[p|]|] eqn:Hck; try reflexivity.
      destruct (load c p) as [v|] eqn:Hl; [|reflexivity].
      rewrite (Hv a p v), has_flag_testbit_DIRTY; [reflexivity|left|assumption..]. }
    rewrite E. destruct (resident_and_dirty c a); cbn [length]; rewrite (IH Hr); reflexivity.
Qed.

(** C6 (amended). Provided [addr + bytes + linesz - 1] does not exceed
    2^64 - 1, [clean_invalidate] visits the line of every address of
    [addr, addr + bytes), and only such lines when [bytes] is not 0.
    The word of a resident line that is visited, one the lookup finds
    with VALID, has DIRTY cleared when [clean] is set, and VALID left
    set, unless [inval] is set: then VALID is cleared, whatever DIRTY and
    [clean] are; no other bit of the word, no slot that no visited line
    hits and no other field changes.  A linked next level then receives
    the same call, whether or not a line matched.  When the lookup finds
    no visited line in a slot without VALID, as is always so in the
    set-associative engine, [writebacks] is incremented once for each
    visited line that is resident and dirty if [clean] is set, and not
    at all otherwise.  With [clean] and without [inval] the lines that
    were resident and dirty are still resident, and a later access to
    any of them hits. *)
Theorem clean_invalidate_spec {N : Type} {MH : MissHandler N}
    (c : cache_sim_t N) (addr bytes : Z) (clean inval : bool)
    (Hwf : well_formed c) (Ha : is_u64 addr) (Hb : is_u64 bytes)
    (Hnw : addr + bytes + linesz c - 1 < 2 ^ 64) :
  let lines := visited_lines c addr bytes in
  (forall x, addr <= x < addr + bytes -> line_addr c x ∈ lines) /\
  (0 < bytes ->
   forall a, a ∈ lines -> exists x, addr <= x < addr + bytes /\ line_addr c x = a) /\
  (fa_tags c = None -> found_valid c lines) /\
  exists c1,
    clean_invalidate c addr bytes clean inval =
      (mh' ← issued (miss_handler c) [call_clean_invalidate addr bytes clean inval];
       Some (set_miss_handler c1 mh')) /\
    well_formed c1 /\
    c1 = set_fa_tags (set_tags (set_writebacks c (writebacks c1)) (tags c1)) (fa_tags c1) /\
    (forall a p v, a ∈ lines -> check_tag c a = Some (Some p) -> load c p = Some v ->
       Z.testbit v 63 = true ->
       exists v1, load c1 p = Some v1 /\
         Z.testbit v1 63 = negb inval /\
         Z.testbit v1 62 = Z.testbit v 62 && negb clean /\
         forall i, 0 <= i -> i <> 62 -> i <> 63 -> Z.testbit v1 i = Z.testbit v i) /\
    (forall p v, touched c lines p = false -> load c p = Some v -> load c1 p = Some v) /\
    (forall b, is_u64 b -> line_tag c b ∉ (line_tag c <$> lines) ->
       check_tag c1 b = check_tag c b) /\
    (found_valid c lines ->
     writebacks c1 =
       incremented (if clean then resident_dirty_lines c lines else O) (writebacks c) /\
     (is_u64 (writebacks c) ->
      writebacks c + Z.of_nat (resident_dirty_lines c lines) < 2 ^ 64 ->
      writebacks c1 =
        writebacks c + (if clean then Z.of_nat (resident_dirty_lines c lines) else 0))) /\
    (clean = true -> inval = false ->
     forall a, a ∈ lines -> resident_and_dirty c a = true ->
       exists p v,
         check_tag c1 a = Some (Some p) /\ load c p = Some v /\
         load c1 p = Some (Z.land v (Z.lnot DIRTY)) /\
         Z.testbit (Z.land v (Z.lnot DIRTY)) 62 = false /\
         Z.testbit (Z.land v (Z.lnot DIRTY)) 63 = true /\
         resident c1 a = true /\
         forall mh' bytes' st,
           exists c2, access (set_miss_handler c1 mh') a bytes' st = Some c2 /\
                      read_misses c2 = read_misses c /\ write_misses c2 = write_misses c).
Proof.
  intros lines.
  split; [intros x Hx; apply visited_lines_cover; assumption|].
  split; [intros Hpos a Hin; apply visited_lines_within; assumption|].
  pose proof (visited_lines_u64 c addr bytes Hwf Ha Hb) as Hu64.
  pose proof (visited_lines_tags c addr bytes Hwf Ha Hb) as Hnd.
  split; [intros Hsa; apply sa_found_valid; assumption|].
  destruct (maintained_from_lines c clean inval lines [] c Hwf
              (Forall_nil_2 _) Hu64 Hnd (maintained_from_start c clean inval Hwf))
    as (c1 & Hrun & [Hwf1 Hsh Hvar Hw Hload Hckc Hck]).
  cbn [app] in *. fold lines in Hu64, Hnd.
  exists c1. split.
  { unfold clean_invalidate.
    destruct (range_bounds c addr bytes Hwf Ha Hb) as (E1 & E2 & H0 & H1 & Hlt & En).
    pose proof (linesz_pos c Hwf) as HL.
    rewrite (loop_lines clean inval (rounds c addr bytes) c (start_addr c addr)
               (end_addr c addr bytes)); try assumption.
    - fold (visited_lines c addr bytes). fold lines. rewrite Hrun.
      cbn [mbind option_bind].
      change (fun n : N => mh_clean_invalidate n addr bytes clean inval)
        with (fun n : N => deliver n (call_clean_invalidate addr bytes clean inval)).
      rewrite to_miss_handler_issued.
      replace (miss_handler c1) with (miss_handler c) by (rewrite Hsh; reflexivity).
      reflexivity.
    - rewrite E1. nia.
    - rewrite E1, E2, En.
      rewrite wrap64_small in * by (unfold is_u64 in *; lia).
      assert (addr / linesz c <= (addr + bytes + linesz c - 1) / linesz c)
        by (apply Z.div_le_mono; unfold is_u64 in *; lia).
      nia.
    - rewrite E2. assumption. }
  split; [assumption|]. split; [assumption|].
  split.
  { intros a p v Hin Hcka Hv Hvalid.
    assert (Ht : touched c lines p = true) by (apply touched_true; eauto).
    exists (maintained clean inval v). split; [rewrite (Hload p v Hv), Ht; reflexivity|].
    split.
    { rewrite maintained_bits, Hvalid by lia. cbn. destruct inval; reflexivity. }
    split.
    { rewrite maintained_bits by lia. cbn. rewrite andb_true_r.
      destruct clean, (Z.testbit v 62); reflexivity. }
    intros i Hi H62 H63. rewrite maintained_bits by assumption.
    destruct (Z.eqb_spec i 62); [contradiction|].
    destruct (Z.eqb_spec i 63); [contradiction|].
    cbn. rewrite !andb_true_r. reflexivity. }
  split.
  { intros p v Ht Hv. rewrite (Hload p v Hv), Ht. reflexivity. }
  split; [assumption|].
  split.
  { intros Hfv. rewrite <- (resident_dirty_lines_eq c lines Hfv).
    split; [assumption|].
    intros Hw0 Hsum. rewrite Hw. destruct clean.
    - apply incremented_small; [apply Hw0|assumption].
    - cbn. lia. }
  intros -> -> a Hin Hd.
  assert (Hau : is_u64 a) by (rewrite Forall_forall in Hu64; auto).
  unfold resident_and_dirty, resident_entry in Hd.
  destruct (check_tag c a) as [[p|]|] eqn:Hcka; try discriminate.
  destruct (load c p) as [v|] eqn:Hv; [|discriminate].
  apply andb_true_iff in Hd. destruct Hd as [Hvalid Hdirty].
  exists p, v.
  assert (Hck1 : check_tag c1 a = Some (Some p)) by (rewrite Hckc; auto).
  assert (Ht : touched c lines p = true) by (apply touched_true; eauto).
  assert (Hl1 : load c1 p = Some (Z.land v (Z.lnot DIRTY))).
  { rewrite (Hload p v Hv), Ht. unfold maintained.
    rewrite has_flag_testbit_DIRTY, Hdirty. reflexivity. }
  assert (H63 : Z.testbit (Z.land v (Z.lnot DIRTY)) 63 = true).
  { flag_bits. flag_consts. rewrite andb_true_r. assumption. }
  split; [assumption|]. split; [exact Hv|]. split; [assumption|].
  split; [flag_bits; flag_consts; apply andb_false_r|].
  split; [assumption|].
  split; [unfold resident, resident_entry; rewrite Hck1, Hl1; assumption|].
  intros mh' bytes' st.
  set (c1' := set_miss_handler c1 mh').
  assert (Hwf1' : well_formed c1') by (revert Hwf1; apply well_formed_ext; reflexivity).
  assert (Hck1' : check_tag c1' a = Some (Some p))
    by (rewrite <- Hck1; apply check_tag_ext; reflexivity).
  destruct (access_hit c1' a bytes' st p Hwf1' Hau Hck1') as (c2 & v2 & Hacc & _ & Hst & _).
  exists c2. split; [assumption|].
  unfold statistics in Hst. subst c1'. rewrite Hsh in Hst.
  destruct st; cbn in Hst; injection Hst as _ ? _ _ ? _ _; auto.
Qed.

Lemma clean_invalidate_spec_witness :
  exists c, scenario "16:4:64" [call_access 0 8 true; call_access 64 8 true;
                                call_access 128 8 false] = Some c /\
    visited_lines c 0 192 = [0; 64; 128] /\
    exists c', clean_invalidate c 0 192 true false = Some c' /\
      writebacks c' = 2 /\
      resident_and_dirty c 0 = true /\ resident_and_dirty c' 0 = false /\
      resident c' 0 = true /\ is_hit c' 0.
Proof.
  eexists. split; [vm_compute; reflexivity|].
  match goal with |- visited_lines ?c _ _ = _ /\ _ => set (c0 := c) end.
  split; [reflexivity|].
  assert (Hwf : well_formed c0).
  { constructor; cbn; try lia; try exact I; try reflexivity. unfold is_u32. cbn. lia. }
  assert (Ha : is_u64 0) by (unfold is_u64; lia).
  assert (Hb : is_u64 192) by (unfold is_u64; lia).
  assert (Hnw : 0 + 192 + linesz c0 - 1 < 2 ^ 64) by (cbn; lia).
  destruct (clean_invalidate_spec c0 0 192 true false Hwf Ha Hb Hnw)
    as (_ & _ & Hsa & c1 & Hci & _ & _ & _ & _ & _ & Hcount & Hclean).
  destruct (Hcount (Hsa eq_refl)) as [_ Hsum].
  eexists. split; [rewrite Hci; reflexivity|].
  split.
  { cbn [writebacks set_miss_handler]. rewrite Hsum; [reflexivity|unfold is_u64; cbn; lia|].
    vm_compute. reflexivity. }
  split; [reflexivity|].
  destruct (Hclean eq_refl eq_refl 0) as (p & v & Hck1 & Hv & Hl1 & H62 & H63 & Hres & _);
    [left|reflexivity|].
  unfold resident_and_dirty, resident, resident_entry.
  change (check_tag (set_miss_handler c1 _) 0) with (check_tag c1 0).
  rewrite Hck1.
  change (load (set_miss_handler c1 _) p) with (load c1 p).
  rewrite Hl1, H62, H63. split; [reflexivity|]. split; [reflexivity|].
  exists p. exact Hck1.
Defined.

(** C6, as stated, fails at the top of the address space: the end
    address is computed modulo 2^64, so for the last line the loop bounds
    are [2^64 - 64] and [0] and no line is visited; the resident dirty
    line of the range is neither counted nor cleaned. *)
Lemma clean_invalidate_wraps :
  exists c, scenario "16:4:64" [call_access (2 ^ 64 - 64) 8 true] = Some c /\
    resident_dirty c (2 ^ 64 - 64) = true /\
    start_addr c (2 ^ 64 - 64) = 2 ^ 64 - 64 /\ end_addr c (2 ^ 64 - 64) 64 = 0 /\
    visited_lines c (2 ^ 64 - 64) 64 = [] /\
    exists c', clean_invalidate c (2 ^ 64 - 64) 64 true false = Some c' /\
      writebacks c' = writebacks c /\
      resident_dirty c' (2 ^ 64 - 64) = true.
Proof.
  eexists. split; [vm_compute; reflexivity|].
  split; [reflexivity|]. split; [reflexivity|]. split; [reflexivity|].
  split; [reflexivity|].
  eexists. split; [vm_compute; reflexivity|]. split; reflexivity.
Qed.

(** With [bytes = 0] and an address inside a line, the loop still runs
    one round, on the line of the address. *)
Example clean_invalidate_empty_range :
  exists c, scenario "16:4:64" [call_access 0 8 true] = Some c /\
    visited_lines c 1 0 = [0] /\ visited_lines c 0 0 = [] /\
    exists c', clean_invalidate c 1 0 true false = Some c' /\ writebacks c' = 1.
Proof.
  eexists. split; [vm_compute; reflexivity|]. split; [reflexivity|].
  split; [reflexivity|]. eexists. split; [vm_compute; reflexivity|reflexivity].
Qed.

(** * Further properties of the engine *)

(** ** What an access does to the tag store *)

Section Structure.

Context {N : Type} {MH : MissHandler N}.
Implicit Types (c : cache_sim_t N) (p q : slot).

Lemma tag_store_eq c c' :
  tag_store c' = tag_store c <-> tags c' = tags c /\ fa_tags c' = fa_tags c.
Proof. unfold tag_store. split; [intros [= -> ->]|intros [-> ->]]; auto. Qed.

Lemma or_into_ext c c2 p mask c2' :
  tag_store c2 = tag_store c -> or_into c2 p mask = Some c2' ->
  exists cs, or_into c p mask = Some cs /\ tag_store c2' = tag_store cs /\
             c2' = set_fa_tags (set_tags c2 (tags c2')) (fa_tags c2').
Proof.
  intros [Ht Hf]%tag_store_eq Hor.
  assert (Hshape : c2' = set_fa_tags (set_tags c2 (tags c2')) (fa_tags c2')).
  { unfold or_into in Hor. destruct (load c2 p); [|discriminate].
    apply store_shape in Hor. tauto. }
  revert Hor. unfold or_into, load, store, tag_store. destruct p as [i|k].
  - rewrite Ht. destruct (tags c !! i) as [t|]; [|discriminate]. cbn.
    intros [= <-]. eexists. split; [reflexivity|]. cbn. rewrite ?Ht, ?Hf.
    split; [reflexivity|]. clear Hshape. rewrite <- ?Ht, <- ?Hf. destruct c2; reflexivity.
  - rewrite Hf. destruct (fa_tags c) as [m|]; [|discriminate]. cbn.
    destruct (std_map.find k m); [|discriminate]. cbn.
    intros [= <-]. eexists. split; [reflexivity|]. cbn. rewrite ?Ht, ?Hf.
    split; [reflexivity|]. clear Hshape. rewrite <- ?Ht, <- ?Hf. destruct c2; reflexivity.
Qed.

Lemma count_tag_store c bytes st :
  tag_store (count_access c bytes st) = tag_store c /\
  configuration (count_access c bytes st) = configuration c /\
  lfsr (count_access c bytes st) = lfsr c /\
  miss_handler (count_access c bytes st) = miss_handler c /\
  tag_store (count_miss c st) = tag_store c /\
  configuration (count_miss c st) = configuration c /\
  lfsr (count_miss c st) = lfsr c /\
  miss_handler (count_miss c st) = miss_handler c.
Proof. destruct c, st; cbn; auto 10. Qed.

Lemma victimize_configuration c addr victim cv :
  victimize c addr = Some (victim, cv) ->
  configuration cv = configuration c /\ miss_handler cv = miss_handler c /\
  statistics cv = statistics c /\
  is_fully_associative cv = is_fully_associative c.
Proof.
  unfold victimize, cache_sim_t_victimize, fa_cache_sim_t_victimize, is_fully_associative.
  destruct (fa_tags c) as [m|] eqn:Ef.
  - destruct (std_map.size m =? ways c).
    + destruct (lfsr_t.next (lfsr c)) as [r l]. destruct (ways c =? 0); [discriminate|].
      destruct (std_map.at_offset _ m) as [it|]; [|discriminate]. cbn.
      intros [= <- <-]. destruct c; cbn; auto.
    + cbn. intros [= <- <-]. destruct c; cbn; auto.
  - destruct (lfsr_t.next (lfsr c)) as [r l]. destruct (ways c =? 0); [discriminate|].
    destruct (tags c !! _); [|discriminate]. cbn.
    intros [= <- <-]. destruct c; cbn in *; subst; auto.
Qed.

Lemma to_miss_handler_step c k c' :
  to_miss_handler c (fun n => deliver n k) = Some c' ->
  exists mh', issued (miss_handler c) [k] = Some mh' /\ c' = set_miss_handler c mh'.
Proof.
  rewrite to_miss_handler_issued.
  destruct (issued (miss_handler c) [k]) as [mh'|]; [|discriminate].
  cbn. intros [= <-]. eauto.
Qed.

(** The tag store an access leaves is the one of [check_tag],
    [victimize] and [*hit_way |= DIRTY] alone; the counters and the
    calls to the next level leave it as it is. *)
Lemma access_structure c addr bytes (st : bool) c' :
  access c addr bytes st = Some c' ->
  configuration c' = configuration c /\
  match check_tag c addr with
  | Some (Some p) =>
      exists cs, (if st then or_into c p DIRTY else Some c) = Some cs /\
                 tag_store c' = tag_store cs /\ lfsr c' = lfsr c /\
                 miss_handler c' = miss_handler c /\
                 statistics c' = statistics (count_access c bytes st)
  | Some None =>
      exists victim cv cs,
        victimize c addr = Some (victim, cv) /\
        (if st then
           r ← check_tag cv addr;
           match r return option (cache_sim_t N) with
           | Some p => or_into cv p DIRTY
           | None => None
           end
         else Some cv) = Some cs /\
        tag_store c' = tag_store cs /\ lfsr c' = lfsr cv /\
        issued (miss_handler c) (miss_calls c addr victim) = Some (miss_handler c') /\
        statistics c' =
          statistics
            (set_writebacks (count_miss (count_access c bytes st) st)
               (if Z.testbit victim 63 && Z.testbit victim 62
                then wrap64 (writebacks c + 1) else writebacks c))
  | None => False
  end.
Proof.
  unfold access. destruct (check_tag_count c bytes st addr) as [_ ->].
  destruct (check_tag c addr) as [[p|]|]; cbn [mbind option_bind]; [| |discriminate].
  - destruct st.
    + intros Hor.
      destruct (or_into_ext c (count_access c bytes true) p DIRTY c') as (cs & Hcs & Hts & Hsh);
        [reflexivity|assumption|].
      rewrite Hsh. split; [destruct c; reflexivity|].
      exists cs. split; [assumption|]. rewrite <- Hsh. split; [assumption|].
      rewrite Hsh. destruct c; cbn; auto.
    + intros [= <-]. split; [destruct c; reflexivity|].
      exists c. destruct c; cbn; auto.
  - rewrite victimize_count.
    destruct (victimize c addr) as [[victim cv]|] eqn:Hv;
      cbn [fmap option_fmap option_map mbind option_bind fst snd]; [|discriminate].
    destruct (victimize_configuration c addr victim cv Hv) as (Hcf & Hmh & Hstat & _).
    rewrite has_both_flags. unfold miss_calls.
    set (c2 := count_miss (count_access cv bytes st) st).
    assert (Hmh2 : miss_handler c2 = miss_handler c)
      by (rewrite <- Hmh; subst c2; destruct st; reflexivity).
    assert (Hcf2 : configuration c2 = configuration c)
      by (rewrite <- Hcf; subst c2; destruct st; reflexivity).
    assert (Hlin : linesz c2 = linesz c) by (injection Hcf2; auto).
    assert (Hsh : idx_shift c2 = idx_shift c) by (injection Hcf2; auto).
    assert (Hda : dirty_addr c2 victim = dirty_addr c victim)
      by (unfold dirty_addr; rewrite Hsh; reflexivity).
    assert (Hla : line_addr c2 addr = line_addr c addr)
      by (unfold line_addr; rewrite Hlin; reflexivity).
    assert (Hst2 : statistics c2 = statistics (count_miss (count_access c bytes st) st)).
    { subst c2. unfold statistics in *. injection Hstat as H1 H2 H3 H4 H5 H6 H7.
      destruct st; cbn; congruence. }
    assert (Hwb2 : writebacks c2 = writebacks c).
    { unfold statistics in Hstat. injection Hstat as _ _ _ _ _ _ H7.
      subst c2. destruct st; cbn; congruence. }
    intros Hacc.
    assert (Htail : exists c4 mh4,
               issued (miss_handler c)
                 ((if Z.testbit victim 63 && Z.testbit victim 62
                   then [call_access (dirty_addr c victim) (linesz c) true] else [])
                  ++ [call_access (line_addr c addr) (linesz c) false]) = Some mh4 /\
               c4 = set_miss_handler
                      (set_writebacks c2
                         (if Z.testbit victim 63 && Z.testbit victim 62
                          then wrap64 (writebacks c + 1) else writebacks c)) mh4 /\
               (if st then
                  r ← check_tag c4 addr;
                  match r return option (cache_sim_t N) with
                  | Some p => or_into c4 p DIRTY
                  | None => None
                  end
                else Some c4) = Some c').
    { revert Hacc. destruct (Z.testbit victim 63 && Z.testbit victim 62).
      - change (fun n : N => mh_access n (dirty_addr c2 victim) (linesz c2) true)
          with (fun n : N => deliver n (call_access (dirty_addr c2 victim) (linesz c2) true)).
        destruct (to_miss_handler c2 _) as [c3|] eqn:E1; cbn [mbind option_bind];
          [|discriminate].
        apply to_miss_handler_step in E1. destruct E1 as (mh1 & Hi1 & ->).
        change (fun n : N => mh_access n
                 (line_addr (set_writebacks (set_miss_handler c2 mh1)
                    (wrap64 (writebacks (set_miss_handler c2 mh1) + 1))) addr)
                 (linesz (set_writebacks (set_miss_handler c2 mh1)
                    (wrap64 (writebacks (set_miss_handler c2 mh1) + 1)))) false)
          with (fun n : N => deliver n (call_access (line_addr c2 addr) (linesz c2) false)).
        destruct (to_miss_handler _ _) as [c4|] eqn:E2; cbn [mbind option_bind];
          [|discriminate].
        apply to_miss_handler_step in E2. destruct E2 as (mh4 & Hi2 & ->).
        intros Hacc. eexists _, mh4. split; [|split; [|exact Hacc]].
        + rewrite issued_app. rewrite Hmh2, Hda, Hlin in Hi1. rewrite Hi1.
          cbn [mbind option_bind]. rewrite <- Hla, <- Hlin. exact Hi2.
        + change (writebacks (set_miss_handler c2 mh1)) with (writebacks c2).
          rewrite Hwb2. destruct c2; reflexivity.
      - cbn [mbind option_bind app].
        change (fun n : N => mh_access n (line_addr c2 addr) (linesz c2) false)
          with (fun n : N => deliver n (call_access (line_addr c2 addr) (linesz c2) false)).
        destruct (to_miss_handler _ _) as [c4|] eqn:E2; cbn [mbind option_bind];
          [|discriminate].
        apply to_miss_handler_step in E2. destruct E2 as (mh4 & Hi2 & ->).
        intros Hacc. eexists _, mh4. split; [|split; [|exact Hacc]].
        + rewrite <- Hmh2, <- Hla, <- Hlin. exact Hi2.
        + rewrite <- Hwb2. destruct c2; reflexivity. }
    destruct Htail as (c4 & mh4 & Hiss & Hc4 & Hfin).
    assert (Hts4 : tag_store c4 = tag_store cv)
      by (rewrite Hc4; subst c2; destruct st; reflexivity).
    assert (Hcf4 : configuration c4 = configuration c)
      by (rewrite <- Hcf2, Hc4; reflexivity).
    assert (Hck4 : check_tag c4 addr = check_tag cv addr).
    { apply tag_store_eq in Hts4. destruct Hts4.
      apply check_tag_ext; auto;
        rewrite Hc4; subst c2; destruct st; reflexivity. }
    assert (Hlf4 : lfsr c4 = lfsr cv) by (rewrite Hc4; subst c2; destruct st; reflexivity).
    assert (Hmh4 : miss_handler c4 = mh4) by (rewrite Hc4; reflexivity).
    assert (Hst4 : statistics c4 =
              statistics
                (set_writebacks (count_miss (count_access c bytes st) st)
                   (if Z.testbit victim 63 && Z.testbit victim 62
                    then wrap64 (writebacks c + 1) else writebacks c))).
    { rewrite Hc4. unfold statistics in *. cbn.
      injection Hst2 as H1 H2 H3 H4 H5 H6 _. destruct st; cbn in *; congruence. }
    destruct st.
    + rewrite Hck4 in Hfin.
      destruct (check_tag cv addr) as [[p|]|] eqn:Hckv; cbn [mbind option_bind] in Hfin;
        try discriminate.
      destruct (or_into_ext cv c4 p DIRTY c') as (cs & Hcs & Hts & Hshp);
        [assumption..|].
      split; [rewrite Hshp, <- Hcf4; reflexivity|].
      exists victim, cv, cs. split; [reflexivity|]. rewrite ?Hckv. cbn [mbind option_bind].
      split; [assumption|]. split; [assumption|].
      rewrite Hshp. cbn. rewrite Hlf4, Hmh4. auto.
    + injection Hfin as <-. split; [assumption|].
      exists victim, cv, cv. rewrite Hmh4. auto 10.
Qed.

End Structure.

(** ** A new engine *)

(** What [init] builds: zeroed tags, zeroed counters, no next level. *)
Lemma construct_fresh {N : Type} (config nm : string) (c : cache_sim_t N) :
  construct config nm = inr c ->
  exists s w l fa, (fa = None \/ fa = Some []) /\
    c = mk_cache lfsr_t.new None s w l (idx_shift c)
          (replicate (Z.to_nat (wrap64 (s * w))) 0)
          0 0 0 0 0 0 0 nm false fa.
Proof.
  intros Hc.
  destruct (construct_well_formed config nm c Hc) as (s & w & l & Hp & Hwf & _).
  destruct (parsed_ints config s w l Hp)
    as (fa & fb & fc & sv & wv & lv & _ & _ & _ & _ & Hs & _ & Hl).
  assert (Hsu : is_u64 s) by (rewrite Hs; apply size_t_of_int_range).
  assert (Hlu : is_u64 l) by (rewrite Hl; apply size_t_of_int_range).
  rewrite (construct_parsed config nm s w l Hp) in Hc.
  destruct ((4 <? w) && (s =? 1)).
  - apply init_inr in Hc; [|unfold is_u64; lia|assumption].
    destruct Hc as (_ & _ & _ & Hc). eauto 10.
  - apply init_inr in Hc; [|assumption..].
    destruct Hc as (_ & _ & _ & Hc). eauto 10.
Qed.

Lemma construct_zeroed {N : Type} (config nm : string) (c : cache_sim_t N) :
  construct config nm = inr c ->
  statistics c = (0, 0, 0, 0, 0, 0, 0) /\
  forall p v, load c p = Some v -> v = 0.
Proof.
  intros Hc.
  destruct (construct_fresh config nm c Hc) as (s' & w' & l' & fa' & Hfa & Hshape).
  split; [rewrite Hshape; reflexivity|].
  intros p v. rewrite Hshape. unfold load. cbn. destruct p as [i|k].
  - intros [-> _]%lookup_replicate. reflexivity.
  - destruct Hfa as [-> | ->]; cbn; discriminate.
Qed.

(** X1. An engine that [construct] returns is empty: every counter is 0,
    no next level is linked, logging is off, the generator is at its
    seed, every slot reads 0 and every 64-bit address misses. *)
Theorem construct_empty {N : Type} (config nm : string) (c : cache_sim_t N)
    (Hc : construct config nm = inr c) :
  statistics c = (0, 0, 0, 0, 0, 0, 0) /\
  miss_handler c = None /\ log c = false /\ lfsr c = lfsr_t.new /\ name c = nm /\
  (forall p v, load c p = Some v -> v = 0) /\
  (forall addr, is_u64 addr -> is_miss c addr).
Proof.
  destruct (construct_well_formed config nm c Hc) as (s & w & l & Hp & Hwf & _).
  destruct (construct_fresh config nm c Hc) as (s' & w' & l' & fa' & Hfa & Hshape).
  destruct (construct_zeroed config nm c Hc) as [_ Hload].
  split; [rewrite Hshape; reflexivity|]. split; [rewrite Hshape; reflexivity|].
  split; [rewrite Hshape; reflexivity|]. split; [rewrite Hshape; reflexivity|].
  split; [rewrite Hshape; reflexivity|]. split; [exact Hload|].
  intros addr Ha. unfold is_miss.
  destruct (check_tag_total c addr Hwf Ha) as [[p|] Hck]; [|assumption].
  exfalso. destruct (hit_load c addr p Hwf Ha Hck) as (v & Hv & Hkind).
  pose proof (Hload p v Hv) as ->.
  destruct (fa_tags c) as [m|] eqn:Ef.
  - assert (m = []) as ->.
    { rewrite Hshape in Ef. cbn in Ef. destruct Hfa as [-> | ->]; congruence. }
    rewrite Hkind in Hv. unfold load in Hv. rewrite Ef in Hv. discriminate.
  - unfold compares in Hkind. rewrite Z.land_0_l in Hkind.
    apply Z.eqb_eq in Hkind. apply Z.lor_eq_0_iff in Hkind.
    destruct Hkind as [_ Hk]. discriminate.
Qed.

Lemma construct_empty_witness :
  exists c : cache_sim_t Empty_set,
    construct "16:4:64" "D$" = inr c /\
    statistics c = (0, 0, 0, 0, 0, 0, 0) /\ is_miss c 4096.
Proof.
  eexists. split; [vm_compute; reflexivity|].
  match goal with |- statistics ?c = _ /\ _ => set (c0 := c) end.
  destruct (construct_empty "16:4:64" "D$" c0) as (Hs & _ & _ & _ & _ & _ & Hm);
    [vm_compute; reflexivity|].
  split; [exact Hs|]. apply Hm. unfold is_u64. lia.
Defined.

(** ** Accesses *)

Section AccessEffects.

Context {N : Type} {MH : MissHandler N}.
Implicit Types (c : cache_sim_t N) (p q : slot).

Lemma configuration_fields c c' :
  configuration c' = configuration c ->
  sets c' = sets c /\ ways c' = ways c /\ linesz c' = linesz c /\
  idx_shift c' = idx_shift c /\ name c' = name c /\ log c' = log c.
Proof. unfold configuration. intros [= -> -> -> -> -> ->]. auto 10. Qed.

(** Engines of one configuration and one tag store answer alike. *)
Lemma tag_store_lookups c c' :
  configuration c' = configuration c -> tag_store c' = tag_store c ->
  (forall b, check_tag c' b = check_tag c b) /\ (forall q, load c' q = load c q).
Proof.
  intros (Hs & Hw & _ & Hi & _)%configuration_fields [Ht Hf]%tag_store_eq. split.
  - intros b. apply check_tag_ext; assumption.
  - intros q. apply load_ext; assumption.
Qed.

(** The lookup reads the address through its line tag only. *)
Lemma check_tag_line c a b :
  line_tag c a = line_tag c b -> check_tag c a = check_tag c b.
Proof.
  unfold line_tag, check_tag, cache_sim_t_check_tag, fa_cache_sim_t_check_tag, set_index.
  intros ->. reflexivity.
Qed.

(** The counters after an access that returns. *)
Lemma access_counters c (addr bytes : Z) (st : bool) c' :
  access c addr bytes st = Some c' ->
  let missed := bool_decide (check_tag c addr = Some None) in
  (if st then
     write_accesses c' = wrap64 (write_accesses c + 1) /\
     bytes_written c' = wrap64 (bytes_written c + bytes) /\
     write_misses c' = (if missed then wrap64 (write_misses c + 1) else write_misses c) /\
     read_accesses c' = read_accesses c /\ bytes_read c' = bytes_read c /\
     read_misses c' = read_misses c
   else
     read_accesses c' = wrap64 (read_accesses c + 1) /\
     bytes_read c' = wrap64 (bytes_read c + bytes) /\
     read_misses c' = (if missed then wrap64 (read_misses c + 1) else read_misses c) /\
     write_accesses c' = write_accesses c /\ bytes_written c' = bytes_written c /\
     write_misses c' = write_misses c) /\
  (writebacks c' = writebacks c \/
   missed = true /\ writebacks c' = wrap64 (writebacks c + 1)).
Proof.
  intros Hacc missed. subst missed.
  destruct (access_structure c addr bytes st c' Hacc) as [_ Hrest].
  destruct (check_tag c addr) as [[p|]|]; [| |contradiction].
  - rewrite bool_decide_eq_false_2 by discriminate.
    destruct Hrest as (cs & _ & _ & _ & _ & Hst).
    unfold statistics in Hst. injection Hst as -> -> -> -> -> -> ->.
    destruct st; cbn; auto 10.
  - rewrite bool_decide_eq_true_2 by reflexivity.
    destruct Hrest as (victim & cv & cs & _ & _ & _ & _ & _ & Hst).
    destruct (Z.testbit victim 63 && Z.testbit victim 62), st;
      unfold statistics in Hst; cbn in Hst;
      injection Hst as -> -> -> -> -> -> ->; auto 10.
Qed.

(** An access that returns leaves the line resident, and dirty after a
    store. *)
Lemma access_resident c (addr bytes : Z) (st : bool) c' :
  well_formed c -> is_u64 addr -> access c addr bytes st = Some c' ->
  exists p v, check_tag c' addr = Some (Some p) /\ load c' p = Some v /\
              (st = true -> Z.testbit v 62 = true).
Proof.
  intros Hwf Ha Hacc.
  destruct (check_tag_total c addr Hwf Ha) as [[p|] Hck].
  - destruct (access_hit c addr bytes st p Hwf Ha Hck)
      as (c1 & v & Hacc1 & _ & _ & _ & _ & Hck1 & _ & Hl1).
    rewrite Hacc in Hacc1. injection Hacc1 as <-.
    eexists p, _. split; [assumption|]. split; [eassumption|].
    intros ->. flag_bits. flag_consts. apply orb_true_r.
  - assert (Hways : 0 < ways c).
    { destruct (Z.eq_dec (ways c) 0) as [E|]; [|destruct Hwf; lia].
      exfalso. revert Hacc. unfold access.
      destruct (check_tag_count c bytes st addr) as [_ ->]. rewrite Hck.
      cbn [mbind option_bind]. rewrite victimize_count.
      unfold victimize, cache_sim_t_victimize, fa_cache_sim_t_victimize.
      destruct Hwf as [_ _ _ _ _ _ _ Hfa].
      destruct (fa_tags c) as [m|].
      - destruct Hfa as [_ Hsz].
        assert (std_map.size m = 0) as ->
          by (unfold std_map.size in *; lia).
        rewrite E. cbn. destruct (lfsr_t.next (lfsr c)). discriminate.
      - destruct (lfsr_t.next (lfsr c)). rewrite E. discriminate. }
    destruct (victimize_total c addr Hwf Ha Hways) as [[victim cv] Hv].
    pose proof (access_miss c addr bytes st victim cv Hwf Ha Hck Hv) as Hm.
    destruct (issued (miss_handler c) (miss_calls c addr victim)) as [mh'|];
      [|congruence].
    destruct Hm as (c1 & Hacc1 & _ & _ & _ & _ & p & Hck1 & Hl1).
    rewrite Hacc in Hacc1. injection Hacc1 as <-.
    eexists p, _. split; [assumption|]. split; [eassumption|].
    intros ->. flag_bits. flag_consts. apply orb_true_r.
Qed.

End AccessEffects.

(** X2. A hitting access calls neither [victimize] nor the next level:
    only the access and byte counters of its direction change, the
    generator and the next level stay as they are, the slot hit gets
    DIRTY when the access is a store and is unchanged otherwise, every
    other slot keeps its word, and every lookup answers as before. *)
Theorem access_hit_spec {N : Type} {MH : MissHandler N}
    (c : cache_sim_t N) (addr bytes : Z) (st : bool) (p : slot)
    (Hwf : well_formed c) (Ha : is_u64 addr)
    (Hhit : check_tag c addr = Some (Some p)) :
  exists c' v,
    access c addr bytes st = Some c' /\ load c p = Some v /\
    statistics c' = statistics (count_access c bytes st) /\
    miss_handler c' = miss_handler c /\ lfsr c' = lfsr c /\
    configuration c' = configuration c /\
    load c' p = Some (if st then Z.lor v DIRTY else v) /\
    (forall q, q <> p -> load c' q = load c q) /\
    (forall b, check_tag c' b = check_tag c b).
Proof.
  destruct (access_hit c addr bytes st p Hwf Ha Hhit)
    as (c' & v & Hacc & Hwf' & Hst & Hmh & Hlf & Hck & Hl & Hl').
  exists c', v. split; [assumption|]. split; [assumption|].
  split; [assumption|]. split; [assumption|]. split; [assumption|].
  destruct (access_structure c addr bytes st c' Hacc) as [Hcf Hrest].
  rewrite Hhit in Hrest. destruct Hrest as (cs & Hcs & Hts & _).
  split; [assumption|]. split; [assumption|].
  destruct st.
  - rewrite (or_into_store c p v DIRTY Hl) in Hcs.
    destruct (store_hit c p v (Z.lor v DIRTY) Hwf Hl)
      as (cs' & Hcs' & _ & Hsh & _ & _ & Hframe & Hckf).
    rewrite Hcs in Hcs'. injection Hcs' as <-.
    assert (Hcfs : configuration c' = configuration cs)
      by (rewrite Hcf, Hsh; reflexivity).
    destruct (tag_store_lookups cs c' Hcfs Hts) as [Hck1 Hl1]. split.
    + intros q Hq. rewrite Hl1. apply Hframe. assumption.
    + intros b. rewrite Hck1. apply Hckf. intros _. apply compares_flag_DIRTY.
  - injection Hcs as <-.
    destruct (tag_store_lookups c c' Hcf Hts) as [Hck1 Hl1]. split; auto.
Qed.

(** X3. An access that returns counts itself once: the access counter
    of its direction goes up by one and its byte counter by [bytes],
    the miss counter of its direction goes up by one exactly when the
    lookup missed, the three counters of the other direction stay, and
    [writebacks] goes up by at most one, and only on a miss.  All
    counters wrap at 2^64. *)
Theorem access_counts {N : Type} {MH : MissHandler N}
    (c : cache_sim_t N) (addr bytes : Z) (st : bool) (c' : cache_sim_t N)
    (Hacc : access c addr bytes st = Some c') :
  let missed := bool_decide (check_tag c addr = Some None) in
  (if st then
     write_accesses c' = wrap64 (write_accesses c + 1) /\
     bytes_written c' = wrap64 (bytes_written c + bytes) /\
     write_misses c' = (if missed then wrap64 (write_misses c + 1) else write_misses c) /\
     read_accesses c' = read_accesses c /\ bytes_read c' = bytes_read c /\
     read_misses c' = read_misses c
   else
     read_accesses c' = wrap64 (read_accesses c + 1) /\
     bytes_read c' = wrap64 (bytes_read c + bytes) /\
     read_misses c' = (if missed then wrap64 (read_misses c + 1) else read_misses c) /\
     write_accesses c' = write_accesses c /\ bytes_written c' = bytes_written c /\
     write_misses c' = write_misses c) /\
  (writebacks c' = writebacks c \/
   missed = true /\ writebacks c' = wrap64 (writebacks c + 1)).
Proof.
  exact (access_counters c addr bytes st c' Hacc).
Qed.

Lemma access_counts_witness :
  exists c c' : cache_sim_t (list call),
    construct "16:4:64" "D$" = inr c /\
    access c 4100 4 true = Some c' /\
    write_accesses c' = 1 /\ bytes_written c' = 4 /\ write_misses c' = 1.
Proof.
  eexists.
  match goal with |- exists c', ?s = inr ?c /\ _ => assert (Hs : s = inr c) end.
  { vm_compute. reflexivity. }
  match type of Hs with _ = inr ?c => set (c0 := c) in * end.
  destruct (access c0 4100 4 true) as [c'|] eqn:Hacc; [|vm_compute in Hacc; discriminate].
  destruct (access_counts c0 4100 4 true c' Hacc) as [(H1 & H2 & H3 & _) _].
  exists c'. split; [exact Hs|]. split; [reflexivity|].
  rewrite H1, H2, H3. repeat split.
Defined.

(** X4. After an access that returns, the line of the address is
    resident: every address of the line hits, the slot has DIRTY after
    a store, and a read of any address of the line that follows is a
    hit, which changes no miss counter, writes nothing back and leaves
    the next level alone. *)
Theorem access_makes_resident {N : Type} {MH : MissHandler N}
    (c : cache_sim_t N) (addr bytes : Z) (st : bool) (c' : cache_sim_t N)
    (Hwf : well_formed c) (Ha : is_u64 addr)
    (Hacc : access c addr bytes st = Some c') :
  well_formed c' /\
  (st = true -> resident_dirty c' addr = true) /\
  forall b, is_u64 b -> line_addr c b = line_addr c addr ->
    is_hit c' b /\
    forall bytes2, exists c'',
      access c' b bytes2 false = Some c'' /\
      read_misses c'' = read_misses c' /\ write_misses c'' = write_misses c' /\
      writebacks c'' = writebacks c' /\ miss_handler c'' = miss_handler c'.
Proof.
  pose proof (access_well_formed c addr bytes st c' Hwf Ha Hacc) as Hwf'.
  destruct (access_structure c addr bytes st c' Hacc) as [Hcf _].
  apply configuration_fields in Hcf. destruct Hcf as (_ & _ & Hlin & Hish & _).
  destruct (access_resident c addr bytes st c' Hwf Ha Hacc) as (p & v & Hck' & Hl' & Hd).
  split; [assumption|]. split.
  - intros Hst. unfold resident_dirty, resident_entry. rewrite Hck', Hl'.
    rewrite has_flag_testbit_DIRTY. auto.
  - intros b Hb Hline.
    assert (Htag : line_tag c' b = line_tag c' addr).
    { unfold line_tag. rewrite Hish. destruct Hwf.
      apply (same_line_iff c); assumption. }
    assert (Hckb : check_tag c' b = Some (Some p))
      by (rewrite (check_tag_line c' b addr Htag); assumption).
    split; [exists p; assumption|].
    intros bytes2.
    destruct (access_hit c' b bytes2 false p Hwf' Hb Hckb)
      as (c'' & v' & Hacc2 & _ & Hst & Hmh & _).
    exists c''. split; [assumption|].
    unfold statistics in Hst. cbn in Hst. injection Hst as _ ? _ _ ? _ ?. auto.
Qed.

Lemma access_hit_spec_witness :
  exists c c' : cache_sim_t (list call),
    scenario "16:4:64" [call_access 4096 8 false] = Some c /\
    access c 4100 4 true = Some c' /\
    statistics c' = (1, 1, 8, 1, 0, 4, 0) /\ miss_handler c' = miss_handler c.
Proof.
  eexists. 
  match goal with |- exists c', ?s = Some ?c /\ _ => assert (Hs : s = Some c) end.
  { vm_compute. reflexivity. }
  match type of Hs with _ = Some ?c => set (c0 := c) in * end.
  assert (Hwf : well_formed c0).
  { constructor; cbn; try lia; try exact I; try reflexivity. unfold is_u32. cbn. lia. }
  assert (Ha : is_u64 4100) by (unfold is_u64; lia).
  destruct (check_tag c0 4100) as [[p|]|] eqn:Hck; try (vm_compute in Hck; discriminate).
  destruct (access_hit_spec c0 4100 4 true p Hwf Ha Hck)
    as (c' & v & Hacc & _ & Hst & Hmh & _).
  exists c'. split; [exact Hs|]. split; [exact Hacc|]. split; [exact Hst|exact Hmh].
Defined.

Lemma access_makes_resident_witness :
  exists c c' : cache_sim_t (list call),
    construct "16:4:64" "D$" = inr c /\
    access c 4100 4 true = Some c' /\
    resident_dirty c' 4100 = true /\ is_hit c' 4159.
Proof.
  eexists.
  match goal with |- exists c', ?s = inr ?c /\ _ => assert (Hs : s = inr c) end.
  { vm_compute. reflexivity. }
  match type of Hs with _ = inr ?c => set (c0 := c) in * end.
  assert (Hwf : well_formed c0).
  { constructor; cbn; try lia; try exact I; try reflexivity. unfold is_u32. cbn. lia. }
  assert (Ha : is_u64 4100) by (unfold is_u64; lia).
  destruct (access c0 4100 4 true) as [c'|] eqn:Hacc; [|vm_compute in Hacc; discriminate].
  destruct (access_makes_resident c0 4100 4 true c' Hwf Ha Hacc) as (_ & Hd & Hline).
  exists c'. split; [exact Hs|]. split; [reflexivity|]. split; [auto|].
  apply Hline; [unfold is_u64; lia|reflexivity].
Defined.

(** ** Chains of engines never fail *)

Section Safety.

Context {N : Type} {MH : MissHandler N}.
Implicit Types (c : cache_sim_t N) (p q : slot).

(** What is known of the next level: in a state that is [ready] it
    answers every call and stays [ready]. *)
Variable ready : N -> Prop.
Hypothesis ready_deliver : forall n k,
  ready n -> call_u64 k -> exists n', deliver n k = Some n' /\ ready n'.

Lemma deliver_all_ready ks : forall n,
  ready n -> Forall call_u64 ks -> exists n', deliver_all n ks = Some n' /\ ready n'.
Proof.
  induction ks as [|k ks IH]; intros n Hn Hks; cbn [deliver_all].
  - eauto.
  - apply Forall_cons in Hks. destruct Hks as [Hk Hks].
    destruct (ready_deliver n k Hn Hk) as (n1 & -> & Hn1). cbn [mbind option_bind].
    apply IH; assumption.
Qed.

Lemma issued_ready (mh : option N) ks :
  next_ready ready mh -> Forall call_u64 ks ->
  exists mh', issued mh ks = Some mh' /\ next_ready ready mh'.
Proof.
  intros Hmh Hks. destruct mh as [n|]; cbn [issued].
  - destruct (deliver_all_ready ks n Hmh Hks) as (n' & -> & Hn').
    exists (Some n'). split; [reflexivity|assumption].
  - exists None. split; [reflexivity|exact I].
Qed.

Lemma line_addr_u64 c addr : well_formed c -> is_u64 addr -> is_u64 (line_addr c addr).
Proof.
  intros Hwf [H0 H1]. rewrite (line_addr_div c addr Hwf).
  pose proof (linesz_pos c Hwf) as [HL _].
  pose proof (Z.mul_div_le addr (linesz c) ltac:(lia)).
  assert (0 <= addr / linesz c) by (apply Z.div_pos; lia).
  unfold is_u64. nia.
Qed.

Lemma miss_calls_u64 c addr victim :
  well_formed c -> is_u64 addr -> Forall call_u64 (miss_calls c addr victim).
Proof.
  intros Hwf Ha. pose proof (linesz_pos c Hwf) as HL.
  assert (is_u64 (linesz c)) by (unfold is_u64; lia).
  unfold miss_calls. apply Forall_app. split.
  - destruct (Z.testbit victim 63 && Z.testbit victim 62); constructor; [|constructor].
    split; [apply wrap64_range|assumption].
  - constructor; [|constructor]. split; [apply line_addr_u64; assumption|assumption].
Qed.

Lemma access_ready c addr bytes st :
  level_ready ready c -> is_u64 addr ->
  exists c', access c addr bytes st = Some c' /\ level_ready ready c'.
Proof.
  intros (Hwf & Hways & Hmh) Ha.
  destruct (check_tag_total c addr Hwf Ha) as [[p|] Hck].
  - destruct (access_hit c addr bytes st p Hwf Ha Hck)
      as (c' & v & Hacc & Hwf' & _ & Hmh' & _).
    exists c'. split; [assumption|].
    destruct (access_structure c addr bytes st c' Hacc) as [Hcf _].
    apply configuration_fields in Hcf. destruct Hcf as (_ & Hw & _).
    split; [assumption|]. split; [lia|]. rewrite Hmh'. assumption.
  - destruct (victimize_total c addr Hwf Ha Hways) as [[victim cv] Hv].
    pose proof (access_miss c addr bytes st victim cv Hwf Ha Hck Hv) as Hm.
    destruct (issued_ready (miss_handler c) (miss_calls c addr victim) Hmh
                (miss_calls_u64 c addr victim Hwf Ha)) as (mh' & Hiss & Hmh').
    rewrite Hiss in Hm. destruct Hm as (c' & Hacc & Hwf' & Hmhc & _).
    exists c'. split; [assumption|].
    destruct (access_structure c addr bytes st c' Hacc) as [Hcf _].
    apply configuration_fields in Hcf. destruct Hcf as (_ & Hw & _).
    split; [assumption|]. split; [lia|].
    fold (next_ready ready (miss_handler c')). rewrite Hmhc. assumption.
Qed.

Lemma clean_invalidate_loop_total (clean inval : bool) n : forall c cur e,
  well_formed c -> is_u64 cur ->
  exists c', clean_invalidate_loop n c cur e clean inval = Some c' /\
    well_formed c' /\ configuration c' = configuration c /\
    miss_handler c' = miss_handler c.
Proof.
  induction n as [|n IH]; intros c cur e Hwf Hcur; cbn [clean_invalidate_loop].
  - eauto.
  - destruct (cur <? e); [|eauto].
    destruct (line_step c cur clean inval Hwf Hcur) as (c1 & -> & Hwf1 & Hsh & _).
    cbn [mbind option_bind].
    destruct (IH c1 (wrap64 (cur + linesz c1)) e Hwf1 (wrap64_range _))
      as (c' & Hloop & Hwf' & Hcf & Hmh).
    exists c'. split; [assumption|]. split; [assumption|].
    rewrite Hcf, Hmh, Hsh. split; reflexivity.
Qed.

Lemma clean_invalidate_ready c addr bytes clean inval :
  level_ready ready c -> is_u64 addr -> is_u64 bytes ->
  exists c', clean_invalidate c addr bytes clean inval = Some c' /\ level_ready ready c'.
Proof.
  intros (Hwf & Hways & Hmh) Ha Hb. unfold clean_invalidate.
  destruct (clean_invalidate_loop_total clean inval (rounds c addr bytes) c
              (start_addr c addr) (end_addr c addr bytes) Hwf
              (line_addr_u64 c addr Hwf Ha))
    as (c1 & -> & Hwf1 & Hcf & Hmh1).
  cbn [mbind option_bind].
  apply configuration_fields in Hcf. destruct Hcf as (_ & Hw & _).
  change (fun n : N => mh_clean_invalidate n addr bytes clean inval)
    with (fun n : N => deliver n (call_clean_invalidate addr bytes clean inval)).
  rewrite to_miss_handler_issued.
  destruct (issued_ready (miss_handler c1) [call_clean_invalidate addr bytes clean inval])
    as (mh' & -> & Hmh').
  { unfold next_ready. rewrite Hmh1. assumption. }
  { constructor; [split; assumption|constructor]. }
  cbn [mbind option_bind]. eexists. split; [reflexivity|].
  split; [revert Hwf1; apply well_formed_ext; reflexivity|].
  split; [cbn; lia|exact Hmh'].
Qed.

(** An engine is as good a next level as its own next level is. *)
Lemma level_deliver (c : cache_sim_t N) k :
  level_ready ready c -> call_u64 k -> exists c', deliver c k = Some c' /\ level_ready ready c'.
Proof.
  intros Hc Hk. destruct k as [addr bytes st|addr bytes clean inval]; destruct Hk.
  - apply access_ready; assumption.
  - apply clean_invalidate_ready; assumption.
Qed.

End Safety.

Lemma chain_deliver n : forall (h : hierarchy n) k,
  chain_ready n h -> call_u64 k ->
  exists h', deliver (MH := hierarchy_handler n) h k = Some h' /\ chain_ready n h'.
Proof.
  induction n as [|n IH]; intros h k Hh Hk.
  - assert (Hnone : forall (e : Empty_set) (k : call), True -> call_u64 k ->
               exists e', deliver e k = Some e' /\ True) by (intros []).
    exact (level_deliver (MH := no_miss_handler) (fun _ => True) Hnone h k Hh Hk).
  - exact (level_deliver (MH := hierarchy_handler n) (chain_ready n) IH h k Hh Hk).
Qed.

(** X5. A chain of engines, each well formed and with at least one way,
    never fails: it answers every sequence of [access] and
    [clean_invalidate] calls with 64-bit arguments, whatever the depth of
    the chain, and is again such a chain afterwards.  No call indexes
    outside [tags], dereferences a null [hit_way] or divides by zero. *)
Theorem hierarchy_never_fails (n : nat) (h : hierarchy n) (ks : list call)
    (Hh : chain_ready n h) (Hks : Forall call_u64 ks) :
  exists h', deliver_all (MH := hierarchy_handler n) h ks = Some h' /\ chain_ready n h'.
Proof.
  apply (deliver_all_ready (MH := hierarchy_handler n) (chain_ready n)); try assumption.
  intros h0 k. apply chain_deliver.
Qed.

Lemma hierarchy_never_fails_witness :
  exists (l2 : hierarchy 0) (l1 h' : hierarchy 1),
    construct "16:4:64" "L2$" = inr l2 /\ construct "1:1:64" "D$" = inr l1 /\
    deliver_all (MH := hierarchy_handler 1) (set_miss_handler l1 (Some l2))
      [call_access 0 8 true; call_access 64 8 false;
       call_clean_invalidate 0 128 true true] = Some h'.
Proof.
  eexists. eexists.
  match goal with
  | |- exists h', ?s2 = inr ?c2 /\ ?s1 = inr ?c1 /\ _ =>
      assert (H2 : s2 = inr c2); [vm_compute; reflexivity|];
      assert (H1 : s1 = inr c1); [vm_compute; reflexivity|];
      set (l2 := c2) in *; set (l1 := c1) in *
  end.
  assert (Hwf2 : well_formed l2).
  { constructor; cbn; try lia; try exact I; try reflexivity. unfold is_u32. cbn. lia. }
  assert (Hwf1 : well_formed l1).
  { constructor; cbn; try lia; try exact I; try reflexivity. unfold is_u32. cbn. lia. }
  destruct (hierarchy_never_fails 1 (set_miss_handler l1 (Some l2) : hierarchy 1)
              [call_access 0 8 true; call_access 64 8 false;
               call_clean_invalidate 0 128 true true]) as (h' & Hd & _).
  - split; [revert Hwf1; apply well_formed_ext; reflexivity|].
    split; [cbn; lia|]. split; [exact Hwf2|]. split; [cbn; lia|exact I].
  - repeat constructor; unfold is_u64; lia.
  - exists h'. split; [exact H2|]. split; [exact H1|exact Hd].
Defined.

(** ** The generator of [victimize] *)

Lemma lfsr_next_value (l : lfsr_t.t) :
  fst (lfsr_t.next l) =
    Z.lxor (Z.shiftr (lfsr_t.reg l) 1)
           (if Z.testbit (lfsr_t.reg l) 0 then 0xd0000001 else 0) /\
  lfsr_t.reg (snd (lfsr_t.next l)) = fst (lfsr_t.next l).
Proof. unfold lfsr_t.next. cbn [fst snd lfsr_t.reg]. rewrite lfsr_mask. auto. Qed.

(** The bit shifted out is the top bit of the next value. *)
Lemma lfsr_next_top (l : lfsr_t.t) :
  is_u32 (lfsr_t.reg l) ->
  Z.testbit (fst (lfsr_t.next l)) 31 = Z.testbit (lfsr_t.reg l) 0.
Proof.
  intros Hreg. destruct (lfsr_next_value l) as [-> _].
  rewrite Z.lxor_spec, Z.shiftr_spec by lia.
  rewrite (testbit_above (lfsr_t.reg l) 32 (31 + 1)) by (unfold is_u32 in Hreg; lia).
  destruct (Z.testbit (lfsr_t.reg l) 0); reflexivity.
Qed.

Lemma lxor_cancel_r a b m : Z.lxor a m = Z.lxor b m -> a = b.
Proof.
  intros H. apply (f_equal (fun z => Z.lxor z m)) in H.
  rewrite !Z.lxor_assoc, Z.lxor_nilpotent, !Z.lxor_0_r in H. exact H.
Qed.

Lemma lfsr_next_nonzero (l : lfsr_t.t) :
  is_u32 (lfsr_t.reg l) -> lfsr_t.reg l <> 0 -> 0 < fst (lfsr_t.next l) < 2 ^ 32.
Proof.
  intros Hreg Hnz. destruct (lfsr_next_range l Hreg) as [[H0 H1] _].
  split; [|assumption].
  destruct (Z.eq_dec (fst (lfsr_t.next l)) 0) as [E|]; [exfalso|lia].
  pose proof (lfsr_next_top l Hreg) as Htop. rewrite E, Z.testbit_0_l in Htop.
  destruct (lfsr_next_value l) as [Hv _]. rewrite E, <- Htop, Z.lxor_0_r in Hv.
  rewrite <- Z.div2_spec in Hv.
  pose proof (Zdiv2_odd_eqn (lfsr_t.reg l)) as Heq.
  rewrite <- Z.bit0_odd, <- Htop, <- Hv in Heq. lia.
Qed.

(** X6. [lfsr_t::next] loses nothing on 32-bit registers: two registers
    with the same next value are equal.  A register that is not 0 never
    becomes 0, so every value drawn after the seed 1 is a non-zero
    32-bit word. *)
Theorem lfsr_next_injective (a b : lfsr_t.t)
    (Ha : is_u32 (lfsr_t.reg a)) (Hb : is_u32 (lfsr_t.reg b)) :
  (fst (lfsr_t.next a) = fst (lfsr_t.next b) -> lfsr_t.reg a = lfsr_t.reg b) /\
  (lfsr_t.reg a <> 0 ->
   forall n, Forall (fun v => 0 < v < 2 ^ 32) (lfsr_t.run n a)).
Proof.
  split.
  - intros Heq.
    pose proof (lfsr_next_top a Ha) as Hta. pose proof (lfsr_next_top b Hb) as Htb.
    rewrite Heq, Htb in Hta.
    destruct (lfsr_next_value a) as [Hva _]. destruct (lfsr_next_value b) as [Hvb _].
    rewrite Heq, Hvb, <- Hta in Hva. apply lxor_cancel_r in Hva.
    apply Z.bits_inj'. intros i Hi.
    destruct (Z.eq_dec i 0) as [->|Hne]; [auto|].
    apply (f_equal (fun z => Z.testbit z (i - 1))) in Hva.
    rewrite !Z.shiftr_spec in Hva by lia.
    replace (i - 1 + 1) with i in Hva by lia. auto.
  - intros Hnz n. revert a Ha Hnz. induction n as [|n IH]; intros a Ha Hnz; cbn [lfsr_t.run].
    + constructor.
    + pose proof (lfsr_next_nonzero a Ha Hnz) as Hv.
      destruct (lfsr_next_range a Ha) as [Hr Hreg].
      destruct (lfsr_t.next a) as [v l'] eqn:E. cbn [fst snd] in *.
      constructor; [assumption|]. apply IH; rewrite Hreg; [assumption|lia].
Qed.

Lemma lfsr_next_injective_witness :
  Forall (fun v => 0 < v < 2 ^ 32) (lfsr_t.run 100 lfsr_t.new).
Proof.
  assert (H : is_u32 (lfsr_t.reg lfsr_t.new)) by (unfold is_u32; simpl; lia).
  destruct (lfsr_next_injective lfsr_t.new lfsr_t.new H H) as [_ Hrun].
  apply Hrun. simpl. lia.
Defined.

(** ** Copies *)

(** An engine over an array of zeros finds no line. *)
Lemma zero_array_misses {N : Type} (c : cache_sim_t N) (addr : Z) :
  well_formed c -> is_u64 addr -> fa_tags c = None ->
  (forall i t, tags c !! i = Some t -> t = 0) ->
  is_miss c addr.
Proof.
  intros Hwf Ha Hsa Hzero. unfold is_miss.
  destruct (check_tag_total c addr Hwf Ha) as [[p|] Hck]; [exfalso|assumption].
  destruct (hit_load c addr p Hwf Ha Hck) as (v & Hv & Hkind).
  rewrite Hsa in Hkind.
  assert (v = 0) as ->.
  { unfold check_tag in Hck. rewrite Hsa in Hck.
    destruct (sa_check_tag_spec c addr Hwf Ha) as [(j & t & _ & Hck' & _)|[Hck' _]];
      [|congruence].
    rewrite Hck in Hck'. injection Hck' as ->. exact (Hzero _ _ Hv). }
  unfold compares in Hkind. rewrite Z.land_0_l in Hkind.
  apply Z.eqb_eq in Hkind. apply Z.lor_eq_0_iff in Hkind.
  destruct Hkind as [_ Hk]. discriminate.
Qed.

(** X7. The copy constructor of [cache_sim_t] builds a set-associative
    engine: it has the configuration of the source with logging off, a
    generator at the seed and the words of the array of the source.  The
    copy of a set-associative engine answers every lookup as the source
    does and holds the same word in every slot.  The copy of a
    fully-associative engine is sliced: the map is not copied, and when
    the array of the base class holds zeros, as [init] left it, every
    address misses in the copy, whatever is resident in the source. *)
Theorem copy_lookups {N : Type} (u : indeterminate) (rhs : cache_sim_t N)
    (Hwf : well_formed rhs) :
  well_formed (copy u rhs) /\
  configuration (copy u rhs) =
    (sets rhs, ways rhs, linesz rhs, idx_shift rhs, name rhs, false) /\
  is_fully_associative (copy u rhs) = false /\
  lfsr (copy u rhs) = lfsr_t.new /\
  tags (copy u rhs) = tags rhs /\
  (is_fully_associative rhs = false ->
   (forall addr, check_tag (copy u rhs) addr = check_tag rhs addr) /\
   (forall p, load (copy u rhs) p = load rhs p)) /\
  (is_fully_associative rhs = true -> base_array_unused rhs ->
   forall addr, is_u64 addr -> is_miss (copy u rhs) addr).
Proof.
  destruct (copy_tag_store u rhs Hwf) as (Ht & Hf & _ & Hl).
  pose proof (copy_well_formed u rhs Hwf) as Hwfc.
  split; [assumption|]. split; [reflexivity|].
  split; [reflexivity|]. split; [assumption|]. split; [assumption|]. split.
  - intros Hsa. unfold is_fully_associative in Hsa.
    destruct (fa_tags rhs) eqn:Hfr; [discriminate|]. split.
    + intros addr. apply check_tag_ext; auto; congruence.
    + intros p. apply load_ext; auto; congruence.
  - intros Hfa Hzero addr Ha. apply zero_array_misses; try assumption.
    intros i t. rewrite Ht. apply Hzero. assumption.
Qed.

Lemma copy_lookups_witness :
  exists sa fa : cache_sim_t (list call),
    scenario "16:4:64" [call_access 4096 8 true] = Some sa /\
    scenario "1:8:64" [call_access 4096 8 true] = Some fa /\
    is_hit sa 4096 /\ is_hit (copy (mk_indeterminate None 7 7 7 7 7 7 7) sa) 4096 /\
    is_hit fa 4096 /\ is_miss (copy (mk_indeterminate None 7 7 7 7 7 7 7) fa) 4096.
Proof.
  eexists. eexists.
  match goal with
  | |- ?s1 = Some ?c1 /\ ?s2 = Some ?c2 /\ _ =>
      assert (H1 : s1 = Some c1); [vm_compute; reflexivity|];
      assert (H2 : s2 = Some c2); [vm_compute; reflexivity|];
      set (sa := c1) in *; set (fa := c2) in *
  end.
  set (u0 := mk_indeterminate (N:=list call) None 7 7 7 7 7 7 7).
  assert (Hwf1 : well_formed sa).
  { constructor; cbn; try lia; try exact I; try reflexivity. unfold is_u32. cbn. lia. }
  assert (Hwf2 : well_formed fa).
  { constructor; cbn; try lia; try exact I; try reflexivity.
    - unfold is_u32. cbn. lia.
    - split; [repeat constructor|unfold std_map.size; cbn; lia]. }
  destruct (copy_lookups u0 sa Hwf1) as (_ & _ & _ & _ & _ & Hsa & _).
  destruct (copy_lookups u0 fa Hwf2) as (_ & _ & _ & _ & _ & _ & Hfa).
  split; [exact H1|]. split; [exact H2|].
  split; [eexists; vm_compute; reflexivity|].
  split.
  { destruct (Hsa eq_refl) as [Hck _]. unfold is_hit. rewrite Hck.
    eexists. vm_compute. reflexivity. }
  split; [eexists; vm_compute; reflexivity|].
  apply Hfa; [reflexivity| |unfold is_u64; lia].
  intros _ i t Hi. apply list_elem_of_lookup_2 in Hi. cbn in Hi.
  repeat (apply elem_of_cons in Hi; destruct Hi as [->|Hi]; [reflexivity|]).
  apply elem_of_nil in Hi. contradiction.
Defined.

(** ** The set-associative lookup *)

(** X8. The lookup of a set-associative engine reads the ways of the set
    the address indexes and nothing else: it returns the first way of
    that set whose word, DIRTY masked off, is the line tag with VALID,
    and the null pointer when the set has none.  The slot returned lies
    in that set and inside [tags]. *)
Theorem check_tag_first_match {N : Type} (c : cache_sim_t N) (addr : Z)
    (Hwf : well_formed c) (Ha : is_u64 addr) (Hsa : fa_tags c = None) :
  let base := set_index c addr * ways c in
  let tag := Z.lor (line_tag c addr) VALID in
  0 <= set_index c addr < sets c /\
  ((exists j t,
       0 <= j < ways c /\
       check_tag c addr = Some (Some (array_slot (Z.to_nat (base + j)))) /\
       base + j < Z.of_nat (length (tags c)) /\
       tags c !! Z.to_nat (base + j) = Some t /\
       Z.land t (Z.lnot DIRTY) = tag /\ Z.testbit t 63 = true /\
       forall j' t', 0 <= j' < j -> tags c !! Z.to_nat (base + j') = Some t' ->
                     Z.land t' (Z.lnot DIRTY) <> tag)
   \/ (check_tag c addr = Some None /\
       forall j t, 0 <= j < ways c -> tags c !! Z.to_nat (base + j) = Some t ->
                   Z.land t (Z.lnot DIRTY) <> tag)).
Proof.
  intros base tag.
  pose proof (set_index_range c addr Hwf Ha) as Hidx. split; [assumption|].
  assert (Hcmp : forall t, compares tag t = true <-> Z.land t (Z.lnot DIRTY) = tag).
  { intros t. unfold compares. rewrite Z.eqb_eq. split; auto. }
  assert (Hncmp : forall t, compares tag t = false -> Z.land t (Z.lnot DIRTY) <> tag).
  { intros t Hf He. apply Hcmp in He. congruence. }
  unfold check_tag. rewrite Hsa.
  destruct (sa_check_tag_spec c addr Hwf Ha)
    as [(j & t & Hj & Hck & Ht & Hc & Hfirst)|[Hck Hnone]].
  - left. exists j, t. split; [assumption|]. split; [exact Hck|].
    destruct (way_position c (set_index c addr) j Hwf Hidx Hj) as (_ & _ & Hpos).
    split; [fold base in Hpos; lia|]. split; [exact Ht|].
    apply Hcmp in Hc. split; [exact Hc|]. split.
    + apply (f_equal (fun z => Z.testbit z 63)) in Hc. revert Hc. subst tag. cbv beta.
      flag_bits. flag_consts. rewrite andb_true_r, orb_true_r. auto.
    + intros j' t' Hj' Ht'. apply Hncmp. eapply Hfirst; eauto.
  - right. split; [exact Hck|]. intros j t Hj Ht. apply Hncmp. eapply Hnone; eauto.
Qed.

Lemma check_tag_first_match_witness :
  exists c : cache_sim_t (list call),
    scenario "16:4:64" [call_access 4096 8 true] = Some c /\
    0 <= set_index c 4096 < sets c.
Proof.
  eexists. split; [vm_compute; reflexivity|].
  match goal with |- _ <= set_index ?c _ < _ => set (c0 := c) end.
  assert (Hwf : well_formed c0).
  { constructor; cbn; try lia; try exact I; try reflexivity. unfold is_u32. cbn. lia. }
  assert (Ha : is_u64 4096) by (unfold is_u64; lia).
  exact (proj1 (check_tag_first_match c0 4096 Hwf Ha eq_refl)).
Defined.

(** ** Engines that are only read *)

Section ReadOnly.

Context {N : Type} {MH : MissHandler N}.
Implicit Types (c : cache_sim_t N) (p q : slot).

(** The words [victimize] leaves: the one it installs, and words that
    were there before; the word it returns was there before, or is the
    0 of a map that is not full. *)
Lemma victimize_loads c addr victim cv :
  well_formed c -> is_u64 addr -> victimize c addr = Some (victim, cv) ->
  (victim = 0 \/ exists q, load c q = Some victim) /\
  forall q v, load cv q = Some v ->
    v = Z.lor (line_tag c addr) VALID \/ load c q = Some v.
Proof.
  intros Hwf Ha Hv. unfold victimize in Hv.
  destruct (fa_tags c) as [m|] eqn:Ef.
  - destruct (fa_victimize_installs c m addr victim cv Hwf Ef Hv)
      as (m0 & l0 & Hcase & -> & _).
    assert (Hord : std_map.ordered m) by (destruct Hwf as [_ _ _ _ _ _ _ H]; rewrite Ef in H; tauto).
    split.
    + destruct Hcase as [(_ & (k & Hk) & _)|(_ & -> & _)]; [|auto].
      right. exists (map_slot k). unfold load. rewrite Ef. cbn.
      eapply find_at_offset; eauto.
    + intros [i|k2] v; unfold load; cbn; [auto|]. rewrite Ef. cbn.
      destruct (Z.eq_dec (line_tag c addr) k2) as [<-|Hne].
      * rewrite find_set_eq. intros [= <-]. auto.
      * rewrite find_set_ne by assumption.
        destruct Hcase as [(_ & (k & Hk) & -> & _)|(_ & _ & -> & _)]; [|auto].
        rewrite (find_erase _ k victim k2 m Hord Hk).
        destruct (k2 =? k); [discriminate|auto].
  - destruct (sa_victimize_installs c addr victim cv Hwf Ha Ef Hv)
      as (pos & way & _ & _ & _ & Hvic & -> & _).
    split; [right; exists (array_slot pos); exact Hvic|].
    intros [i|k2] v; unfold load; cbn; [|auto].
    destruct (Nat.eq_dec pos i) as [<-|Hne].
    + rewrite list_lookup_insert_eq by (apply lookup_lt_is_Some; eauto).
      intros [= <-]. auto.
    + rewrite list_lookup_insert_ne by assumption. auto.
Qed.

Lemma installed_clean c addr :
  well_formed c -> is_u64 addr ->
  Z.testbit (Z.lor (line_tag c addr) VALID) 62 = false.
Proof.
  intros Hwf Ha. pose proof (line_tag_bound c addr Hwf Ha) as Hb.
  flag_bits. flag_consts. rewrite orb_false_r.
  apply (testbit_above _ 61); lia.
Qed.

Lemma issued_nil (mh : option N) : issued mh [] = Some mh.
Proof. destruct mh; reflexivity. Qed.

(** A read of an engine without dirty lines. *)
Lemma read_keeps_clean c addr bytes c' :
  well_formed c -> is_u64 addr -> no_dirty c ->
  access c addr bytes false = Some c' ->
  well_formed c' /\ no_dirty c' /\
  writebacks c' = writebacks c /\ write_accesses c' = write_accesses c /\
  write_misses c' = write_misses c /\ bytes_written c' = bytes_written c /\
  read_accesses c' = wrap64 (read_accesses c + 1) /\
  issued (miss_handler c)
    (if bool_decide (check_tag c addr = Some None)
     then [call_access (line_addr c addr) (linesz c) false] else [])
  = Some (miss_handler c').
Proof.
  intros Hwf Ha Hnd Hacc.
  split; [eapply access_well_formed; eauto|].
  destruct (access_structure c addr bytes false c' Hacc) as [Hcf Hrest].
  destruct (check_tag c addr) as [[p|]|] eqn:Hck; [| |contradiction].
  - rewrite bool_decide_eq_false_2 by discriminate.
    destruct Hrest as (cs & [= <-] & Hts & _ & Hmh & Hst).
    destruct (tag_store_lookups c c' Hcf Hts) as [_ Hl].
    split; [intros q v; rewrite Hl; apply Hnd|].
    unfold statistics in Hst. cbn in Hst. injection Hst as -> _ _ -> -> -> ->.
    rewrite Hmh, issued_nil. auto 10.
  - rewrite bool_decide_eq_true_2 by reflexivity.
    destruct Hrest as (victim & cv & cs & Hv & [= <-] & Hts & _ & Hiss & Hst).
    destruct (victimize_loads c addr victim cv Hwf Ha Hv) as [Hvic Hloads].
    assert (Hvb : Z.testbit victim 62 = false).
    { destruct Hvic as [->|[q Hq]]; [apply Z.testbit_0_l|eapply Hnd; eauto]. }
    destruct (victimize_configuration c addr victim cv Hv) as (Hcfv & _).
    assert (Hcf' : configuration c' = configuration cv) by congruence.
    destruct (tag_store_lookups cv c' Hcf' Hts) as [_ Hl].
    split.
    { intros q v. rewrite Hl. intros Hq.
      destruct (Hloads q v Hq) as [->|Hold]; [apply installed_clean; assumption|].
      eapply Hnd; eauto. }
    unfold miss_calls in Hiss. rewrite Hvb, andb_false_r in Hiss. cbn [app] in Hiss.
    rewrite Hvb, andb_false_r in Hst.
    unfold statistics in Hst. cbn in Hst. injection Hst as -> _ _ -> -> -> ->.
    auto 10.
Qed.

Lemma icache_trace_clean (t : cache_memtracer_t N) addr bytes type t' :
  well_formed (cache t) -> is_u64 addr -> no_dirty (cache t) ->
  icache_sim_t_trace t addr bytes type = Some t' ->
  well_formed (cache t') /\ no_dirty (cache t') /\
  writebacks (cache t') = writebacks (cache t) /\
  write_accesses (cache t') = write_accesses (cache t) /\
  write_misses (cache t') = write_misses (cache t) /\
  bytes_written (cache t') = bytes_written (cache t) /\
  read_accesses (cache t') =
    if bool_decide (type = FETCH) then wrap64 (read_accesses (cache t) + 1)
    else read_accesses (cache t).
Proof.
  intros Hwf Ha Hnd. unfold icache_sim_t_trace.
  destruct (bool_decide (type = FETCH)).
  - destruct (access (cache t) addr bytes false) as [c'|] eqn:Hacc; [|discriminate].
    cbn. intros [= <-]. cbn [cache].
    destruct (read_keeps_clean (cache t) addr bytes c' Hwf Ha Hnd Hacc)
      as (H1 & H2 & H3 & H4 & H5 & H6 & H7 & _).
    auto 10.
  - intros [= <-]. auto 10.
Qed.

End ReadOnly.

(** X9. A read of an engine that holds no dirty line writes nothing
    back: the engine holds no dirty line afterwards, [writebacks] and the
    three store counters keep their values, and a linked next level
    receives the fetch of the line on a miss and nothing on a hit; it
    never receives a write. *)
Theorem read_access_keeps_clean {N : Type} {MH : MissHandler N}
    (c : cache_sim_t N) (addr bytes : Z) (c' : cache_sim_t N)
    (Hwf : well_formed c) (Ha : is_u64 addr) (Hnd : no_dirty c)
    (Hacc : access c addr bytes false = Some c') :
  no_dirty c' /\
  writebacks c' = writebacks c /\ write_accesses c' = write_accesses c /\
  write_misses c' = write_misses c /\ bytes_written c' = bytes_written c /\
  issued (miss_handler c)
    (if bool_decide (check_tag c addr = Some None)
     then [call_access (line_addr c addr) (linesz c) false] else [])
  = Some (miss_handler c').
Proof.
  destruct (read_keeps_clean c addr bytes c' Hwf Ha Hnd Hacc)
    as (_ & H2 & H3 & H4 & H5 & H6 & _ & H8).
  auto 10.
Qed.

Lemma read_access_keeps_clean_witness :
  exists c c' : cache_sim_t (list call),
    scenario "1:1:64" [call_access 0 8 false] = Some c /\
    access c 64 8 false = Some c' /\
    writebacks c' = 0 /\
    miss_handler c' = Some [call_access 0 64 false; call_access 64 64 false].
Proof.
  eexists.
  match goal with |- exists c', ?s = Some ?c /\ _ => assert (Hs : s = Some c) end.
  { vm_compute. reflexivity. }
  match type of Hs with _ = Some ?c => set (c0 := c) in * end.
  assert (Hwf : well_formed c0).
  { constructor; cbn; try lia; try exact I; try reflexivity. unfold is_u32. cbn. lia. }
  assert (Ha : is_u64 64) by (unfold is_u64; lia).
  assert (Hnd : no_dirty c0).
  { intros [[|i]|k] v; cbn; try discriminate. intros [= <-]. reflexivity. }
  destruct (access c0 64 8 false) as [c'|] eqn:Hacc; [|vm_compute in Hacc; discriminate].
  destruct (read_access_keeps_clean c0 64 8 c' Hwf Ha Hnd Hacc) as (_ & Hwb & _ & _ & _ & Hiss).
  exists c'. split; [exact Hs|]. split; [reflexivity|]. split; [exact Hwb|].
  change (Some (Some [call_access 0 64 false; call_access 64 64 false])
          = Some (miss_handler c')) in Hiss.
  injection Hiss as <-. reflexivity.
Defined.

(** X10. An instruction cache never writes back.  The adapter
    [icache_sim_t] built on a new engine, linked to any next level or to
    none, passes on the FETCH events only, always as reads: after any
    trace of events that returns, [writebacks] and the three store
    counters are still 0, no line is dirty, and [read_accesses] has
    counted the FETCH events of the trace. *)
Theorem icache_never_writes_back {N : Type} {MH : MissHandler N}
    (config nm : string) (t0 : cache_memtracer_t N) (mh : option N)
    (evs : list event) (t' : cache_memtracer_t N)
    (Hnew : new_cache_memtracer_t config nm = inr t0)
    (Hevs : Forall (fun e => is_u64 (ev_addr e)) evs)
    (Hrun : icache_trace_all (memtracer_set_miss_handler t0 mh) evs = Some t') :
  no_dirty (cache t') /\
  writebacks (cache t') = 0 /\ write_accesses (cache t') = 0 /\
  write_misses (cache t') = 0 /\ bytes_written (cache t') = 0 /\
  read_accesses (cache t') =
    incremented (length (List.filter (fun e => bool_decide (ev_type e = FETCH)) evs)) 0.
Proof.
  unfold new_cache_memtracer_t in Hnew.
  destruct (construct config nm) as [f|c0] eqn:Hc; [discriminate|].
  apply (inj inr) in Hnew. subst t0.
  destruct (construct_zeroed config nm c0 Hc) as (Hst & Hload).
  destruct (construct_well_formed config nm c0 Hc) as (_ & _ & _ & _ & Hwf0 & _).
  set (t := memtracer_set_miss_handler (mk_memtracer c0) mh) in *.
  assert (Hwf : well_formed (cache t)) by (revert Hwf0; apply well_formed_ext; reflexivity).
  assert (Hnd : no_dirty (cache t)).
  { intros p v Hv. rewrite (Hload p v); [apply Z.testbit_0_l|].
    rewrite <- Hv. symmetry. apply load_ext; reflexivity. }
  assert (Hzero : writebacks (cache t) = 0 /\ write_accesses (cache t) = 0 /\
                  write_misses (cache t) = 0 /\ bytes_written (cache t) = 0 /\
                  read_accesses (cache t) = 0).
  { unfold statistics in Hst. injection Hst as H1 _ _ H4 H5 H6 H7. cbn. auto. }
  destruct Hzero as (Z1 & Z2 & Z3 & Z4 & Z5).
  rewrite <- Z1, <- Z2 at 1. rewrite <- Z3, <- Z4 at 1. rewrite <- Z5.
  clear Z1 Z2 Z3 Z4 Z5 Hst Hload Hc Hwf0.
  clearbody t. revert t t' Hwf Hnd Hrun.
  induction evs as [|e evs IH]; intros t t' Hwf Hnd Hrun; cbn [icache_trace_all] in Hrun.
  - injection Hrun as <-. auto 10.
  - apply Forall_cons in Hevs. destruct Hevs as [He Hevs].
    destruct (icache_sim_t_trace t (ev_addr e) (ev_bytes e) (ev_type e)) as [t1|] eqn:E1;
      [|discriminate].
    cbn [mbind option_bind] in Hrun.
    destruct (icache_trace_clean t _ _ _ t1 Hwf He Hnd E1)
      as (Hwf1 & Hnd1 & H3 & H4 & H5 & H6 & H7).
    destruct (IH Hevs t1 t' Hwf1 Hnd1 Hrun) as (I1 & I2 & I3 & I4 & I5 & I6).
    split; [assumption|]. split; [congruence|]. split; [congruence|].
    split; [congruence|]. split; [congruence|].
    rewrite I6, H7. cbn [List.filter].
    destruct (bool_decide (ev_type e = FETCH)); [|reflexivity].
    cbn [length]. unfold incremented.
    rewrite Nat.iter_succ_r. reflexivity.
Qed.

Lemma icache_never_writes_back_witness :
  exists t0 t' : cache_memtracer_t (list call),
    new_cache_memtracer_t "2:1:64" "I$" = inr t0 /\
    icache_trace_all (memtracer_set_miss_handler t0 (Some []))
      [mk_event 0 4 FETCH; mk_event 8 8 STORE; mk_event 128 4 FETCH;
       mk_event 4 4 FETCH; mk_event 16 8 LOAD] = Some t' /\
    writebacks (cache t') = 0 /\ read_accesses (cache t') = 3.
Proof.
  eexists. eexists.
  match goal with
  | |- ?s = inr ?c /\ ?r = Some ?t /\ _ =>
      assert (Hs : s = inr c); [vm_compute; reflexivity|];
      assert (Hr : r = Some t); [vm_compute; reflexivity|]
  end.
  split; [exact Hs|]. split; [exact Hr|].
  match type of Hr with _ = Some ?t => set (t1 := t) in * end.
  assert (Hevs : Forall (fun e => is_u64 (ev_addr e))
                   [mk_event 0 4 FETCH; mk_event 8 8 STORE; mk_event 128 4 FETCH;
                    mk_event 4 4 FETCH; mk_event 16 8 LOAD])
    by (repeat constructor; cbn; unfold is_u64; lia).
  destruct (icache_never_writes_back "2:1:64" "I$" _ (Some []) _ t1 Hs Hevs Hr)
    as (_ & Hwb & _ & _ & _ & Hra).
  split; [exact Hwb|]. rewrite Hra. reflexivity.
Defined.

(** X11. The two adapters split the events between them: a FETCH event
    reaches the engine of the instruction cache as one read and leaves
    the data cache as it is; a LOAD or STORE event reaches the engine of
    the data cache as one read or one write and leaves the instruction
    cache as it is.  Each adapter acts exactly on the events its
    [interested_in_range] accepts, whatever the range. *)
Theorem adapters_split_events {N : Type} {MH : MissHandler N}
    (ti td : cache_memtracer_t N) (addr bytes : Z) (type : access_type)
    (b e : Z) :
  xorb (icache_sim_t_interested_in_range b e type)
       (dcache_sim_t_interested_in_range b e type) = true /\
  icache_sim_t_trace ti addr bytes type =
    (if icache_sim_t_interested_in_range b e type
     then mk_memtracer <$> access (cache ti) addr bytes false
     else Some ti) /\
  dcache_sim_t_trace td addr bytes type =
    (if dcache_sim_t_interested_in_range b e type
     then mk_memtracer <$> access (cache td) addr bytes
                             (bool_decide (type = STORE))
     else Some td) /\
  (icache_sim_t_interested_in_range b e type = true ->
   dcache_sim_t_trace td addr bytes type = Some td) /\
  (dcache_sim_t_interested_in_range b e type = true ->
   icache_sim_t_trace ti addr bytes type = Some ti).
Proof.
  unfold icache_sim_t_interested_in_range, dcache_sim_t_interested_in_range,
    icache_sim_t_trace, dcache_sim_t_trace.
  destruct type; cbn; repeat split; auto; discriminate.
Qed.

(** ** Which slots an access writes *)

Lemma scan_ways_ext_range tags tags' tag base n : forall i,
  (forall j, i <= j < i + Z.of_nat n ->
     tags !! Z.to_nat (wrap64 (base + j)) = tags' !! Z.to_nat (wrap64 (base + j))) ->
  scan_ways tags tag base i n = scan_ways tags' tag base i n.
Proof.
  induction n as [|n IH]; intros i Hext; cbn [scan_ways]; [reflexivity|].
  rewrite <- (Hext i) by lia.
  destruct (tags !! _) as [t|]; cbn [mbind option_bind]; [|reflexivity].
  destruct (tag =? Z.land t (Z.lnot DIRTY)); [reflexivity|].
  apply IH. intros j Hj. apply Hext. lia.
Qed.

Lemma length_set_absent k v m :
  std_map.find k m = None -> length (std_map.set k v m) = S (length m).
Proof.
  induction m as [|[k' v'] r IH]; cbn [std_map.find std_map.set]; [reflexivity|].
  rewrite (Z.eqb_sym k k').
  destruct (k <? k'); [reflexivity|].
  destruct (k' =? k); [discriminate|]. intros Hf. cbn [length]. rewrite IH; auto.
Qed.

Section Frames.

Context {N : Type} {MH : MissHandler N}.
Implicit Types (c : cache_sim_t N) (p q : slot).

Lemma or_into_array c i mask cs :
  or_into c (array_slot i) mask = Some cs ->
  exists v, tags c !! i = Some v /\
            tags cs = <[i := Z.lor v mask]> (tags c) /\ fa_tags cs = fa_tags c.
Proof.
  unfold or_into, load, store. destruct (tags c !! i) as [v|]; [|discriminate].
  cbn. intros [= <-]. exists v. auto.
Qed.

Lemma or_into_map c k mask cs :
  or_into c (map_slot k) mask = Some cs ->
  exists m v, fa_tags c = Some m /\ std_map.find k m = Some v /\
              fa_tags cs = Some (std_map.set k (Z.lor v mask) m) /\ tags cs = tags c.
Proof.
  unfold or_into, load, store. destruct (fa_tags c) as [m|]; [|discriminate]. cbn.
  destruct (std_map.find k m) as [v|] eqn:Hfind; [|discriminate].
  cbn. intros [= <-]. exists m, v. repeat split. exact Hfind.
Qed.

(** The lookup of a set-associative engine reads the ways of one set. *)
Lemma sa_check_tag_frame c c' b :
  well_formed c -> is_u64 b ->
  sets c' = sets c -> ways c' = ways c -> idx_shift c' = idx_shift c ->
  fa_tags c = None -> fa_tags c' = None ->
  (forall j, 0 <= j < ways c ->
     tags c' !! Z.to_nat (set_index c b * ways c + j)
     = tags c !! Z.to_nat (set_index c b * ways c + j)) ->
  check_tag c' b = check_tag c b.
Proof.
  intros Hwf Hb Hs Hw Hi Hf Hf' Hext.
  unfold check_tag, cache_sim_t_check_tag, set_index in *. rewrite Hf, Hf', Hs, Hw, Hi.
  fold (set_index c b) in *.
  pose proof (set_index_range c b Hwf Hb) as Hidx.
  apply scan_ways_ext_range. intros j Hj.
  destruct (way_position c (set_index c b) j Hwf Hidx) as (-> & -> & _); [lia|].
  apply Hext. lia.
Qed.

(** A set-associative engine writes one slot on an access, a way of
    the set the address indexes: the slot it hits, which keeps its
    word or gets DIRTY, or the slot of the victim, which gets the tag
    with VALID, and DIRTY on a store. *)
Lemma sa_access_slot c a bytes (st : bool) c' :
  well_formed c -> is_u64 a -> fa_tags c = None ->
  access c a bytes st = Some c' ->
  fa_tags c' = None /\
  exists j w,
    0 <= j < ways c /\
    (forall i, i <> Z.to_nat (set_index c a * ways c + j) ->
               tags c' !! i = tags c !! i) /\
    tags c' !! Z.to_nat (set_index c a * ways c + j) = Some w /\
    ((exists v, tags c !! Z.to_nat (set_index c a * ways c + j) = Some v /\
                w = (if st then Z.lor v DIRTY else v) /\
                check_tag c a
                = Some (Some (array_slot (Z.to_nat (set_index c a * ways c + j)))))
     \/ (check_tag c a = Some None /\
         w = Z.lor (Z.lor (line_tag c a) VALID) (if st then DIRTY else 0))).
Proof.
  intros Hwf Ha Hsa Hacc.
  destruct (access_structure c a bytes st c' Hacc) as [Hcf Hrest].
  destruct (check_tag c a) as [[p|]|] eqn:Hck; [| |contradiction].
  - destruct Hrest as (cs & Hcs & [Ht Hf]%tag_store_eq & _).
    pose proof Hck as Hck0. unfold check_tag in Hck0. rewrite Hsa in Hck0.
    destruct (sa_check_tag_spec c a Hwf Ha)
      as [(j & t & Hj & Hck1 & Hlk & _)|[Hck1 _]]; [|congruence].
    rewrite Hck0 in Hck1. injection Hck1 as ->.
    destruct st.
    + apply or_into_array in Hcs. destruct Hcs as (v & Hv & Hts & Hfs).
      split; [congruence|]. exists j, (Z.lor v DIRTY). split; [assumption|].
      split; [intros i Hi; rewrite Ht, Hts; apply list_lookup_insert_ne; congruence|].
      split; [rewrite Ht, Hts; apply list_lookup_insert_eq;
              apply lookup_lt_is_Some; eauto|].
      left. exists v. auto.
    + injection Hcs as <-. split; [congruence|]. exists j, t. split; [assumption|].
      split; [intros i _; rewrite Ht; reflexivity|].
      split; [rewrite Ht; assumption|]. left. exists t. auto.
  - destruct Hrest as (victim & cv & cs & Hv & Hcs & [Ht Hf]%tag_store_eq & _).
    pose proof Hv as Hv0. unfold victimize in Hv0. rewrite Hsa in Hv0.
    destruct (sa_victimize_installs c a victim cv Hwf Ha Hsa Hv0)
      as (pos & way & Hway & Hpos & _ & Hvic & Hcv & _ & _ & Hckv).
    specialize (Hckv Hck).
    assert (Htv : tags cv = <[pos := Z.lor (line_tag c a) VALID]> (tags c))
      by (rewrite Hcv; reflexivity).
    assert (Hfv : fa_tags cv = None) by (rewrite Hcv; exact Hsa).
    assert (Hlt : (pos < length (tags c))%nat) by (apply lookup_lt_is_Some; eauto).
    destruct st.
    + rewrite Hckv in Hcs. cbn [mbind option_bind] in Hcs.
      apply or_into_array in Hcs. destruct Hcs as (v & Hv1 & Hts & Hfs).
      rewrite Htv, list_lookup_insert_eq in Hv1 by assumption. injection Hv1 as <-.
      split; [congruence|]. exists way, (Z.lor (Z.lor (line_tag c a) VALID) DIRTY).
      rewrite <- !Hpos. split; [assumption|].
      split; [intros i Hi; rewrite Ht, Hts, Htv;
              rewrite !list_lookup_insert_ne by congruence; reflexivity|].
      split; [rewrite Ht, Hts; apply list_lookup_insert_eq;
              rewrite Htv, length_insert; assumption|].
      right. auto.
    + injection Hcs as <-. split; [congruence|].
      exists way, (Z.lor (line_tag c a) VALID). rewrite <- !Hpos. split; [assumption|].
      split; [intros i Hi; rewrite Ht, Htv; apply list_lookup_insert_ne; congruence|].
      split; [rewrite Ht, Htv; apply list_lookup_insert_eq; assumption|].
      right. rewrite Z.lor_0_r. auto.
Qed.

Lemma sa_access_frame c a bytes (st : bool) c' :
  well_formed c -> is_u64 a -> fa_tags c = None ->
  access c a bytes st = Some c' ->
  fa_tags c' = None /\
  exists j, 0 <= j < ways c /\
    forall i, i <> Z.to_nat (set_index c a * ways c + j) -> tags c' !! i = tags c !! i.
Proof.
  intros Hwf Ha Hsa Hacc.
  destruct (sa_access_slot c a bytes st c' Hwf Ha Hsa Hacc)
    as (Hf & j & w & Hj & Hframe & _).
  split; [assumption|]. exists j. auto.
Qed.

End Frames.

(** X12. In a set-associative engine an access touches the set its
    address indexes and no other: for an address of another set the
    lookup answers as before, and a line resident there keeps its word,
    flags included. *)
Theorem access_other_sets {N : Type} {MH : MissHandler N}
    (c : cache_sim_t N) (a bytes : Z) (st : bool) (c' : cache_sim_t N) (b : Z)
    (Hwf : well_formed c) (Hsa : fa_tags c = None)
    (Ha : is_u64 a) (Hb : is_u64 b)
    (Hsets : set_index c a <> set_index c b)
    (Hacc : access c a bytes st = Some c') :
  check_tag c' b = check_tag c b /\ resident_entry c' b = resident_entry c b.
Proof.
  destruct (sa_access_frame c a bytes st c' Hwf Ha Hsa Hacc) as (Hf' & j & Hj & Hframe).
  destruct (access_structure c a bytes st c' Hacc) as [Hcf _].
  apply configuration_fields in Hcf. destruct Hcf as (Hs & Hw & _ & Hi & _).
  pose proof (set_index_range c a Hwf Ha) as Hia.
  pose proof (set_index_range c b Hwf Hb) as Hib.
  assert (Hother : forall j', 0 <= j' < ways c ->
            tags c' !! Z.to_nat (set_index c b * ways c + j')
            = tags c !! Z.to_nat (set_index c b * ways c + j')).
  { intros j' Hj'. apply Hframe.
    destruct (way_position c (set_index c a) j Hwf Hia Hj) as (_ & _ & Hpa).
    destruct (way_position c (set_index c b) j' Hwf Hib Hj') as (_ & _ & Hpb).
    intros E. apply Z2Nat.inj in E; [|lia..]. nia. }
  assert (Hck : check_tag c' b = check_tag c b)
    by (apply sa_check_tag_frame; assumption).
  split; [assumption|]. unfold resident_entry. rewrite Hck.
  destruct (check_tag c b) as [[p|]|] eqn:Hckb; try reflexivity.
  unfold check_tag in Hckb. rewrite Hsa in Hckb.
  destruct (sa_check_tag_spec c b Hwf Hb)
    as [(j' & t & Hj' & Hck1 & _)|[Hck1 _]]; [|congruence].
  rewrite Hckb in Hck1. injection Hck1 as ->. cbn [load]. apply Hother. assumption.
Qed.

Lemma access_other_sets_witness :
  exists c c' : cache_sim_t (list call),
    scenario "2:1:64" [call_access 64 8 true] = Some c /\
    access c 128 8 false = Some c' /\
    resident_dirty c' 64 = true.
Proof.
  eexists.
  match goal with |- exists c', ?s = Some ?c /\ _ => assert (Hs : s = Some c) end.
  { vm_compute. reflexivity. }
  match type of Hs with _ = Some ?c => set (c0 := c) in * end.
  assert (Hwf : well_formed c0).
  { constructor; cbn; try lia; try exact I; try reflexivity. unfold is_u32. cbn. lia. }
  assert (Ha : is_u64 128) by (unfold is_u64; lia).
  assert (Hb : is_u64 64) by (unfold is_u64; lia).
  destruct (access c0 128 8 false) as [c'|] eqn:Hacc; [|vm_compute in Hacc; discriminate].
  destruct (access_other_sets c0 128 8 false c' 64 Hwf eq_refl Ha Hb) as [_ Hres].
  - vm_compute. discriminate.
  - exact Hacc.
  - exists c'. split; [exact Hs|]. split; [reflexivity|].
    unfold resident_dirty. rewrite Hres. reflexivity.
Defined.

(** X13. A fully-associative engine that is not full evicts nothing: a
    missing access adds the line without drawing from the generator and
    without a writeback, the map grows by one entry, every line that hit
    before hits the same slot holding the same word, and a linked next
    level receives the fetch alone. *)
Theorem fa_miss_below_capacity {N : Type} {MH : MissHandler N}
    (c : cache_sim_t N) (m : std_map) (a bytes : Z) (st : bool) (c' : cache_sim_t N)
    (Hwf : well_formed c) (Hfa : fa_tags c = Some m) (Ha : is_u64 a)
    (Hmiss : is_miss c a) (Hroom : std_map.size m < ways c)
    (Hacc : access c a bytes st = Some c') :
  lfsr c' = lfsr c /\ writebacks c' = writebacks c /\
  (exists m', fa_tags c' = Some m' /\ std_map.size m' = std_map.size m + 1) /\
  (forall b p, check_tag c b = Some (Some p) ->
     check_tag c' b = Some (Some p) /\ load c' p = load c p) /\
  issued (miss_handler c) [call_access (line_addr c a) (linesz c) false]
    = Some (miss_handler c').
Proof.
  destruct (access_structure c a bytes st c' Hacc) as [Hcf Hrest].
  unfold is_miss in Hmiss. rewrite Hmiss in Hrest.
  destruct Hrest as (victim & cv & cs & Hv & Hcs & [Ht Hf]%tag_store_eq & Hlf & Hiss & Hst).
  pose proof Hv as Hv0. unfold victimize in Hv0. rewrite Hfa in Hv0.
  destruct (fa_victimize_installs c m a victim cv Hwf Hfa Hv0)
    as (m0 & l0 & Hcase & Hcv & Hwfv).
  destruct Hcase as [(Hfull & _)|(_ & -> & -> & ->)]; [lia|].
  set (k := line_tag c a) in *.
  assert (Hord : std_map.ordered m)
    by (destruct Hwf as [_ _ _ _ _ _ _ H]; rewrite Hfa in H; tauto).
  assert (Hk : std_map.find k m = None).
  { unfold check_tag in Hmiss. rewrite Hfa in Hmiss.
    unfold fa_cache_sim_t_check_tag in Hmiss. fold (line_tag c a) in Hmiss. fold k in Hmiss.
    destruct (std_map.find k m); [discriminate|reflexivity]. }
  assert (Hfv : fa_tags cv = Some (std_map.set k (Z.lor k VALID) m))
    by (rewrite Hcv; reflexivity).
  assert (Hlv : lfsr cv = lfsr c) by (rewrite Hcv; reflexivity).
  assert (Hckv : check_tag cv a = Some (Some (map_slot k))).
  { unfold check_tag. rewrite Hfv. unfold fa_cache_sim_t_check_tag.
    replace (idx_shift cv) with (idx_shift c) by (rewrite Hcv; reflexivity).
    fold (line_tag c a). fold k. rewrite find_set_eq. reflexivity. }
  assert (Hm' : exists fl, fa_tags c' = Some (std_map.set k (Z.lor (Z.lor k VALID) fl) m)).
  { destruct st.
    - rewrite Hckv in Hcs. cbn [mbind option_bind] in Hcs.
      apply or_into_map in Hcs. destruct Hcs as (m1 & v & Hm1 & Hfind & Hfs & _).
      rewrite Hfv in Hm1. injection Hm1 as <-.
      rewrite find_set_eq in Hfind. injection Hfind as <-.
      exists DIRTY. rewrite Hf, Hfs. f_equal.
      clear. induction m as [|[k' v'] r IH]; cbn [std_map.set].
      + rewrite Z.ltb_irrefl, Z.eqb_refl. reflexivity.
      + destruct (k <? k') eqn:E1; cbn [std_map.set].
        * rewrite Z.ltb_irrefl, Z.eqb_refl. reflexivity.
        * destruct (k =? k') eqn:E2; cbn [std_map.set].
          -- rewrite Z.ltb_irrefl, Z.eqb_refl. reflexivity.
          -- rewrite E1, E2, IH. reflexivity.
    - injection Hcs as <-. exists 0. rewrite Hf, Hfv, Z.lor_0_r. reflexivity. }
  destruct Hm' as (fl & Hm').
  split; [congruence|]. split.
  { unfold statistics in Hst. change (Z.testbit 0 63) with false in Hst.
    cbn [andb] in Hst. destruct st; cbn in Hst; injection Hst as _ _ _ _ _ _ ->; reflexivity. }
  split.
  { eexists. split; [exact Hm'|]. unfold std_map.size.
    rewrite length_set_absent by assumption. lia. }
  split.
  - intros b p Hckb. unfold check_tag in Hckb |- *. rewrite Hfa in Hckb. rewrite Hm'.
    apply configuration_fields in Hcf. destruct Hcf as (_ & _ & _ & Hi & _).
    unfold fa_cache_sim_t_check_tag in *. rewrite Hi.
    destruct (std_map.find (Z.shiftr b (idx_shift c)) m) as [v|] eqn:Hfb; [|discriminate].
    injection Hckb as <-.
    assert (Hne : k <> Z.shiftr b (idx_shift c)) by congruence.
    rewrite find_set_ne, Hfb by assumption. split; [reflexivity|].
    unfold load. rewrite Hm', Hfa. cbn. apply find_set_ne. assumption.
  - unfold miss_calls in Hiss. change (Z.testbit 0 63) with false in Hiss. exact Hiss.
Qed.

Lemma fa_miss_below_capacity_witness :
  exists c c' : cache_sim_t (list call),
    scenario "1:8:64" [call_access 0 8 true] = Some c /\
    access c 64 8 false = Some c' /\
    lfsr c' = lfsr_t.new /\ resident_dirty c' 0 = true.
Proof.
  eexists.
  match goal with |- exists c', ?s = Some ?c /\ _ => assert (Hs : s = Some c) end.
  { vm_compute. reflexivity. }
  match type of Hs with _ = Some ?c => set (c0 := c) in * end.
  assert (Hwf : well_formed c0).
  { constructor; cbn; try lia; try exact I; try reflexivity.
    - unfold is_u32. cbn. lia.
    - split; [repeat constructor|unfold std_map.size; cbn; lia]. }
  assert (Ha : is_u64 64) by (unfold is_u64; lia).
  destruct (access c0 64 8 false) as [c'|] eqn:Hacc; [|vm_compute in Hacc; discriminate].
  destruct (fa_miss_below_capacity c0 _ 64 8 false c' Hwf eq_refl Ha) as (Hl & _ & _ & Hres & _).
  - reflexivity.
  - unfold std_map.size. cbn. lia.
  - exact Hacc.
  - exists c'. split; [exact Hs|]. split; [reflexivity|]. split; [exact Hl|].
    destruct (Hres 0 (map_slot 0) eq_refl) as [Hck Hld].
    unfold resident_dirty, resident_entry. rewrite Hck, Hld. reflexivity.
Defined.

(** ** Direct-mapped engines *)

Section DirectMapped.

Context {N : Type} {MH : MissHandler N}.
Implicit Types (c : cache_sim_t N) (p q : slot).

(** With one way, two lines of one set cannot both be resident. *)
Lemma direct_mapped_exclusive c x y :
  well_formed c -> fa_tags c = None -> ways c = 1 ->
  is_u64 x -> is_u64 y ->
  set_index c x = set_index c y -> line_tag c x <> line_tag c y ->
  is_hit c x -> is_miss c y.
Proof.
  intros Hwf Hsa Hw Hx Hy Hset Htag [p Hp]. unfold is_miss.
  unfold check_tag in *. rewrite Hsa in *.
  destruct (sa_check_tag_spec c x Hwf Hx)
    as [(j & t & Hj & _ & Ht & Hc & _)|[Hck _]]; [|congruence].
  destruct (sa_check_tag_spec c y Hwf Hy)
    as [(j' & t' & Hj' & _ & Ht' & Hc' & _)|[Hck _]]; [|assumption].
  exfalso. assert (j = 0) as -> by lia. assert (j' = 0) as -> by lia.
  rewrite Hset, Ht' in Ht. injection Ht as ->.
  pose proof (line_tag_bound c x Hwf Hx). pose proof (line_tag_bound c y Hwf Hy).
  apply Htag. eapply compares_tag; eauto; lia.
Qed.

Lemma dirty_word T v :
  Z.land v (Z.lnot DIRTY) = Z.lor T VALID -> Z.testbit v 62 = true ->
  v = Z.lor T (Z.lor VALID DIRTY).
Proof.
  intros Hm Hd. apply Z.bits_inj'. intros i Hi.
  apply (f_equal (fun z => Z.testbit z i)) in Hm. revert Hm. cbv beta. flag_bits.
  destruct (Z.eqb_spec i 62) as [->|Hne].
  - rewrite Hd. flag_consts. rewrite !orb_true_r. reflexivity.
  - cbn [negb]. rewrite andb_true_r, orb_false_r. auto.
Qed.

End DirectMapped.

(** X14. In a direct-mapped engine a store followed by an access to
    another line of the same set evicts the stored line and writes it
    back: the second access misses, [writebacks] goes up by one, a linked
    next level receives the write of the line of the first address and
    then the fetch of the line of the second, and afterwards the second
    line is resident and the first one is not. *)
Theorem direct_mapped_conflict {N : Type} {MH : MissHandler N}
    (c : cache_sim_t N) (a b bytes1 bytes2 : Z) (st2 : bool) (c1 c2 : cache_sim_t N)
    (Hwf : well_formed c) (Hsa : fa_tags c = None) (Hways : ways c = 1)
    (Ha : is_u64 a) (Hb : is_u64 b)
    (Hset : set_index c a = set_index c b) (Htag : line_tag c a <> line_tag c b)
    (H1 : access c a bytes1 true = Some c1)
    (H2 : access c1 b bytes2 st2 = Some c2) :
  is_miss c1 b /\
  writebacks c2 = wrap64 (writebacks c1 + 1) /\
  issued (miss_handler c1)
    [call_access (line_addr c a) (linesz c) true;
     call_access (line_addr c b) (linesz c) false] = Some (miss_handler c2) /\
  is_hit c2 b /\ is_miss c2 a.
Proof.
  pose proof (access_well_formed c a bytes1 true c1 Hwf Ha H1) as Hwf1.
  pose proof (access_well_formed c1 b bytes2 st2 c2 Hwf1 Hb H2) as Hwf2.
  destruct (access_structure c a bytes1 true c1 H1) as [Hcf1 _].
  destruct (access_structure c1 b bytes2 st2 c2 H2) as [Hcf2 Hrest].
  apply configuration_fields in Hcf1. destruct Hcf1 as (Hs1 & Hw1 & Hl1 & Hi1 & _).
  apply configuration_fields in Hcf2. destruct Hcf2 as (Hs2 & Hw2 & Hl2 & Hi2 & _).
  destruct (sa_access_frame c a bytes1 true c1 Hwf Ha Hsa H1) as (Hsa1 & _).
  destruct (sa_access_frame c1 b bytes2 st2 c2 Hwf1 Hb Hsa1 H2) as (Hsa2 & _).
  assert (Hset1 : set_index c1 a = set_index c1 b)
    by (unfold set_index in *; rewrite Hi1, Hs1; assumption).
  assert (Htag1 : line_tag c1 a <> line_tag c1 b)
    by (unfold line_tag in *; rewrite Hi1; assumption).
  assert (Hset2 : set_index c2 b = set_index c2 a)
    by (unfold set_index in *; rewrite Hi2, Hs2; auto).
  assert (Htag2 : line_tag c2 b <> line_tag c2 a)
    by (unfold line_tag in *; rewrite Hi2; auto).
  destruct (access_resident c a bytes1 true c1 Hwf Ha H1) as (p & v & Hck1 & Hv & Hd).
  specialize (Hd eq_refl).
  destruct (access_resident c1 b bytes2 st2 c2 Hwf1 Hb H2) as (p2 & v2 & Hck2 & _).
  assert (Hmiss1 : is_miss c1 b).
  { apply (direct_mapped_exclusive c1 a b); try assumption; [lia|exists p; assumption]. }
  assert (Hmiss2 : is_miss c2 a).
  { apply (direct_mapped_exclusive c2 b a); try assumption; [lia|exists p2; assumption]. }
  split; [assumption|].
  unfold is_miss in Hmiss1. rewrite Hmiss1 in Hrest.
  destruct Hrest as (victim & cv & cs & Hvic & _ & _ & _ & Hiss & Hst).
  (* the victim is the word of the stored line *)
  assert (Hvictim : victim = Z.lor (line_tag c1 a) (Z.lor VALID DIRTY)).
  { pose proof Hvic as Hv0. unfold victimize in Hv0. rewrite Hsa1 in Hv0.
    destruct (sa_victimize_installs c1 b victim cv Hwf1 Hb Hsa1 Hv0)
      as (pos & way & Hway & Hpos & _ & Htv & _).
    assert (way = 0) as -> by lia.
    destruct (sa_hit_valid c1 a p Hwf1 Ha Hsa1 Hck1) as (v' & Hv' & _ & Hmask).
    rewrite Hv in Hv'. injection Hv' as <-.
    pose proof Hck1 as Hck0. unfold check_tag in Hck0. rewrite Hsa1 in Hck0.
    destruct (sa_check_tag_spec c1 a Hwf1 Ha)
      as [(j & t & Hj & Hcka & _)|[Hcka _]]; [|congruence].
    assert (j = 0) as -> by lia.
    rewrite Hck0 in Hcka. injection Hcka as ->.
    cbn [load] in Hv. rewrite Hset1, <- Hpos, Htv in Hv. injection Hv as ->.
    apply dirty_word; assumption. }
  assert (Hflags : Z.testbit victim 63 && Z.testbit victim 62 = true).
  { rewrite Hvictim. flag_bits. flag_consts. rewrite !orb_true_r. reflexivity. }
  assert (Hda : dirty_addr c1 victim = line_addr c a).
  { rewrite Hvictim. rewrite (dirty_addr_line c1 a (Z.lor VALID DIRTY) Hwf1 Ha).
    - unfold line_addr. rewrite Hl1. reflexivity.
    - by_bits i Hi. rewrite Z.testbit_0_l.
      destruct (i =? 63), (i =? 62); reflexivity. }
  split.
  { rewrite Hflags in Hst. unfold statistics in Hst.
    destruct st2; cbn in Hst; injection Hst as _ _ _ _ _ _ ->; reflexivity. }
  split.
  { unfold miss_calls in Hiss. rewrite Hflags in Hiss. cbn [app] in Hiss.
    rewrite Hda, Hl1 in Hiss. unfold line_addr in Hiss |- *. rewrite Hl1 in Hiss.
    exact Hiss. }
  split; [exists p2; assumption|assumption].
Qed.

Lemma direct_mapped_conflict_witness :
  exists c c1 c2 : cache_sim_t (list call),
    construct "2:1:64" "D$" = inr c /\
    access (set_miss_handler c (Some [])) 64 8 true = Some c1 /\
    access c1 320 4 false = Some c2 /\
    writebacks c2 = 1 /\
    miss_handler c2 = Some [call_access 64 64 false; call_access 64 64 true;
                            call_access 320 64 false].
Proof.
  eexists.
  match goal with |- exists c1 c2, ?s = inr ?c /\ _ => assert (Hs : s = inr c) end.
  { vm_compute. reflexivity. }
  match type of Hs with _ = inr ?c => set (c0 := set_miss_handler c (Some [])) in * end.
  assert (Hwf : well_formed c0).
  { constructor; cbn; try lia; try exact I; try reflexivity. unfold is_u32. cbn. lia. }
  assert (Ha : is_u64 64) by (unfold is_u64; lia).
  assert (Hb : is_u64 320) by (unfold is_u64; lia).
  destruct (access c0 64 8 true) as [c1|] eqn:H1; [|vm_compute in H1; discriminate].
  destruct (access c1 320 4 false) as [c2|] eqn:H2;
    [|vm_compute in H1; injection H1 as <-; vm_compute in H2; discriminate].
  destruct (direct_mapped_conflict c0 64 320 8 4 false c1 c2 Hwf eq_refl eq_refl Ha Hb)
    as (_ & Hwb & Hiss & _); [reflexivity|vm_compute; discriminate|exact H1|exact H2|].
  exists c1, c2. split; [exact Hs|]. split; [reflexivity|]. split; [exact H2|].
  vm_compute in H1. injection H1 as <-.
  split; [rewrite Hwb; reflexivity|].
  change (Some (Some [call_access 64 64 false; call_access 64 64 true;
                      call_access 320 64 false]) = Some (miss_handler c2)) in Hiss.
  injection Hiss as <-. reflexivity.
Defined.

(** ** Cleaning twice *)

Section CleanTwice.

Context {N : Type} {MH : MissHandler N}.
Implicit Types (c : cache_sim_t N) (p q : slot).

(** The loop of [clean_invalidate] runs the body on the visited lines
    in turn, whether or not the end address wraps. *)
Lemma loop_visited_lines c addr bytes (clean inval : bool) :
  well_formed c -> is_u64 addr -> is_u64 bytes ->
  clean_invalidate_loop (rounds c addr bytes) c
    (start_addr c addr) (end_addr c addr bytes) clean inval =
  clean_invalidate_lines c (visited_lines c addr bytes) clean inval.
Proof.
  intros Hwf Ha Hb.
  destruct (range_bounds c addr bytes Hwf Ha Hb) as (E1 & E2 & H0 & H1 & Hlt & En).
  pose proof (linesz_pos c Hwf) as HL.
  destruct (rounds c addr bytes) as [|n] eqn:Er.
  - unfold visited_lines. rewrite Er. reflexivity.
  - rewrite <- Er.
    rewrite (loop_lines clean inval (rounds c addr bytes) c (start_addr c addr)
               (end_addr c addr bytes)); try assumption.
    + reflexivity.
    + rewrite E1. nia.
    + rewrite E1, E2, Er, En. rewrite Z2Nat.id by lia. ring.
    + rewrite E2. assumption.
Qed.

Lemma clean_invalidate_result c addr bytes (clean inval : bool) c' :
  well_formed c -> is_u64 addr -> is_u64 bytes ->
  clean_invalidate c addr bytes clean inval = Some c' ->
  exists c1, maintained_from c c1 clean inval (visited_lines c addr bytes) /\
             c' = set_miss_handler c1 (miss_handler c').
Proof.
  intros Hwf Ha Hb. unfold clean_invalidate.
  rewrite loop_visited_lines by assumption.
  destruct (maintained_from_lines c clean inval (visited_lines c addr bytes) [] c Hwf
              (Forall_nil_2 _) (visited_lines_u64 c addr bytes Hwf Ha Hb)
              (visited_lines_tags c addr bytes Hwf Ha Hb)
              (maintained_from_start c clean inval Hwf))
    as (c1 & -> & Hmf).
  cbn [mbind option_bind app] in *. intros Htm.
  exists c1. split; [assumption|]. eapply to_miss_handler_shape; eauto.
Qed.

(** After the loop has cleaned the visited lines, none of them is
    resident and dirty. *)
Lemma cleaned_lines c c1 lines a :
  well_formed c -> Forall is_u64 lines ->
  maintained_from c c1 true false lines -> a ∈ lines -> resident_dirty c1 a = false.
Proof.
  intros Hwf Hu [Hwf1 _ _ _ Hload Hckc _] Hin.
  assert (Hau : is_u64 a) by (rewrite Forall_forall in Hu; auto).
  unfold resident_dirty, resident_entry. rewrite (Hckc eq_refl).
  destruct (check_tag c a) as [[p|]|] eqn:Hck; try reflexivity.
  destruct (hit_load c a p Hwf Hau Hck) as (v & Hv & _).
  rewrite (Hload p v Hv).
  assert (touched c lines p = true) as -> by (apply touched_true; eauto).
  unfold maintained. cbn [andb]. rewrite !has_flag_testbit_DIRTY.
  destruct (Z.testbit v 62) eqn:Hd; [|assumption].
  flag_bits. flag_consts. apply andb_false_r.
Qed.

End CleanTwice.

(** X15. Cleaning is idempotent: a second [clean_invalidate] of the same
    range with [clean] set and [inval] clear, right after the first,
    counts no writeback, leaves every slot its word and every lookup its
    answer. *)
Theorem clean_twice {N : Type} {MH : MissHandler N}
    (c : cache_sim_t N) (addr bytes : Z) (c1 c2 : cache_sim_t N)
    (Hwf : well_formed c) (Ha : is_u64 addr) (Hb : is_u64 bytes)
    (H1 : clean_invalidate c addr bytes true false = Some c1)
    (H2 : clean_invalidate c1 addr bytes true false = Some c2) :
  writebacks c2 = writebacks c1 /\
  (forall p v, load c1 p = Some v -> load c2 p = Some v) /\
  (forall b, check_tag c2 b = check_tag c1 b).
Proof.
  pose proof (clean_invalidate_well_formed c addr bytes true false c1 Hwf H1) as Hwf1.
  destruct (clean_invalidate_result c addr bytes true false c1 Hwf Ha Hb H1)
    as (m1 & Hmf1 & Hc1).
  destruct (clean_invalidate_result c1 addr bytes true false c2 Hwf1 Ha Hb H2)
    as (m2 & Hmf2 & Hc2).
  set (lines := visited_lines c addr bytes) in *.
  assert (Hlines : visited_lines c1 addr bytes = lines).
  { unfold lines, visited_lines, rounds, start_addr, end_addr, line_addr.
    replace (linesz c1) with (linesz c); [reflexivity|].
    rewrite Hc1. destruct Hmf1 as [_ Hsh _ _ _ _ _]. rewrite Hsh. reflexivity. }
  rewrite Hlines in Hmf2.
  pose proof (visited_lines_u64 c addr bytes Hwf Ha Hb) as Hu. fold lines in Hu.
  assert (Hclean : forall a, a ∈ lines -> resident_dirty c1 a = false).
  { intros a Hin. pose proof (cleaned_lines c m1 lines a Hwf Hu Hmf1 Hin) as Hd.
    rewrite <- Hd. unfold resident_dirty, resident_entry.
    replace (check_tag c1 a) with (check_tag m1 a)
      by (rewrite Hc1; apply check_tag_ext; reflexivity).
    destruct (check_tag m1 a) as [[p|]|]; try reflexivity.
    replace (load c1 p) with (load m1 p) by (rewrite Hc1; apply load_ext; reflexivity).
    reflexivity. }
  destruct Hmf2 as [_ _ _ Hw Hload Hckc _].
  split.
  { rewrite Hc2. cbn [writebacks set_miss_handler]. rewrite Hw.
    assert (dirty_lines c1 lines = O) as ->; [|reflexivity].
    unfold dirty_lines. apply length_zero_iff_nil.
    clear -Hclean. induction lines as [|a r IH]; [reflexivity|].
    cbn [List.filter]. rewrite (Hclean a) by (left).
    apply IH. intros x Hx. apply Hclean. right. assumption. }
  split.
  - intros p v Hv. rewrite Hc2.
    replace (load (set_miss_handler m2 (miss_handler c2)) p) with (load m2 p)
      by (apply load_ext; reflexivity).
    rewrite (Hload p v Hv).
    destruct (touched c1 lines p) eqn:Ht; [|reflexivity].
    apply touched_true in Ht. destruct Ht as (a & Hin & Hck).
    pose proof (Hclean a Hin) as Hd. unfold resident_dirty, resident_entry in Hd.
    rewrite Hck, Hv in Hd. unfold maintained. rewrite Hd. reflexivity.
  - intros b. rewrite <- (Hckc eq_refl b). rewrite Hc2. apply check_tag_ext; reflexivity.
Qed.

Lemma clean_twice_witness :
  exists c c1 c2 : cache_sim_t (list call),
    scenario "16:4:64" [call_access 0 8 true; call_access 64 8 true] = Some c /\
    clean_invalidate c 0 128 true false = Some c1 /\
    clean_invalidate c1 0 128 true false = Some c2 /\
    writebacks c1 = 2 /\ writebacks c2 = 2.
Proof.
  eexists.
  match goal with |- exists c1 c2, ?s = Some ?c /\ _ => assert (Hs : s = Some c) end.
  { vm_compute. reflexivity. }
  match type of Hs with _ = Some ?c => set (c0 := c) in * end.
  assert (Hwf : well_formed c0).
  { constructor; cbn; try lia; try exact I; try reflexivity. unfold is_u32. cbn. lia. }
  assert (Ha : is_u64 0) by (unfold is_u64; lia).
  assert (Hb : is_u64 128) by (unfold is_u64; lia).
  destruct (clean_invalidate c0 0 128 true false) as [c1|] eqn:H1;
    [|vm_compute in H1; discriminate].
  destruct (clean_invalidate c1 0 128 true false) as [c2|] eqn:H2;
    [|vm_compute in H1; injection H1 as <-; vm_compute in H2; discriminate].
  pose proof (clean_twice c0 0 128 c1 c2 Hwf Ha Hb H1 H2) as (Hwb & _).
  exists c1, c2. split; [exact Hs|]. split; [reflexivity|]. split; [exact H2|].
  assert (Hw1 : writebacks c1 = 2) by (vm_compute in H1; injection H1 as <-; reflexivity).
  split; [exact Hw1|]. rewrite Hwb. exact Hw1.
Defined.

(** ** What the next level sees *)

Section Maintenance.

Context {N : Type} {MH : MissHandler N}.
Implicit Types (c : cache_sim_t N) (p q : slot).

Lemma and_not_into_shape c p mask c' :
  and_not_into c p mask = Some c' ->
  c' = set_fa_tags (set_tags c (tags c')) (fa_tags c').
Proof.
  unfold and_not_into. destruct (load c p); [|discriminate]. cbn.
  intros H. apply store_shape in H. tauto.
Qed.

(** The loop body of [clean_invalidate] counts no access. *)
Lemma clean_invalidate_line_keeps c a (clean inval : bool) c' :
  clean_invalidate_line c a clean inval = Some c' ->
  access_statistics c' = access_statistics c /\
  configuration c' = configuration c /\ miss_handler c' = miss_handler c.
Proof.
  unfold clean_invalidate_line.
  destruct (check_tag c a) as [[p|]|]; cbn [mbind option_bind]; [| |discriminate].
  - assert (Hstep1 : forall c1,
              (if clean then
                 v ← load c p;
                 if negb (Z.land v DIRTY =? 0)
                 then and_not_into (set_writebacks c (wrap64 (writebacks c + 1))) p DIRTY
                 else Some c
               else Some c) = Some c1 ->
              access_statistics c1 = access_statistics c /\
              configuration c1 = configuration c /\ miss_handler c1 = miss_handler c).
    { intros c1. destruct clean; [|intros [= <-]; auto].
      destruct (load c p) as [v|]; [|discriminate]. cbn [mbind option_bind].
      destruct (negb (Z.land v DIRTY =? 0)); [|intros [= <-]; auto].
      intros H. apply and_not_into_shape in H. rewrite H. destruct c; cbn; auto. }
    destruct (if clean then _ else _) as [c1|]; [|discriminate].
    destruct (Hstep1 c1 eq_refl) as (H1 & H2 & H3). cbn [mbind option_bind].
    destruct inval; [|intros [= <-]; auto].
    intros H. apply and_not_into_shape in H. rewrite H, <- H1, <- H2, <- H3.
    destruct c1; cbn; auto.
  - intros [= <-]. auto.
Qed.

Lemma clean_invalidate_loop_keeps (clean inval : bool) n : forall c cur e c',
  clean_invalidate_loop n c cur e clean inval = Some c' ->
  access_statistics c' = access_statistics c /\
  configuration c' = configuration c /\ miss_handler c' = miss_handler c.
Proof.
  induction n as [|n IH]; intros c cur e c'; cbn [clean_invalidate_loop].
  - intros [= <-]. auto.
  - destruct (cur <? e); [|intros [= <-]; auto].
    destruct (clean_invalidate_line c cur clean inval) as [c1|] eqn:E1; [|discriminate].
    cbn [mbind option_bind]. intros H. apply IH in H.
    apply clean_invalidate_line_keeps in E1.
    destruct H as (H1 & H2 & H3), E1 as (E1 & E2 & E3).
    rewrite H1, H2, H3. auto.
Qed.

(** [clean_invalidate] counts no access and no miss; a linked next
    level receives the call. *)
Lemma clean_invalidate_keeps c addr bytes (clean inval : bool) c' :
  clean_invalidate c addr bytes clean inval = Some c' ->
  access_statistics c' = access_statistics c /\
  configuration c' = configuration c /\
  issued (miss_handler c) [call_clean_invalidate addr bytes clean inval]
    = Some (miss_handler c').
Proof.
  unfold clean_invalidate.
  destruct (clean_invalidate_loop _ c _ _ clean inval) as [c1|] eqn:E1; [|discriminate].
  cbn [mbind option_bind].
  apply clean_invalidate_loop_keeps in E1. destruct E1 as (E1 & E2 & E3).
  change (fun n : N => mh_clean_invalidate n addr bytes clean inval)
    with (fun n : N => deliver n (call_clean_invalidate addr bytes clean inval)).
  intros H. apply to_miss_handler_step in H. destruct H as (mh' & Hiss & ->).
  rewrite <- E1, <- E2, <- E3. rewrite Hiss. destruct c1; cbn; auto.
Qed.

End Maintenance.

Section TwoLevels.

Context {N2 : Type} {MH2 : MissHandler N2}.

Lemma two_level_step (c : cache_sim_t (cache_sim_t N2)) (lower : cache_sim_t N2)
    (k : call) (c1 : cache_sim_t (cache_sim_t N2)) :
  miss_handler c = Some lower -> deliver c k = Some c1 ->
  exists lower', miss_handler c1 = Some lower' /\ linesz c1 = linesz c /\
    wrap64 (read_accesses lower' - misses c1) = wrap64 (read_accesses lower - misses c) /\
    wrap64 (bytes_read lower' - linesz c * misses c1)
      = wrap64 (bytes_read lower - linesz c * misses c) /\
    ((exists a b s, k = call_access a b s) ->
     wrap64 (write_accesses lower' - writebacks c1)
       = wrap64 (write_accesses lower - writebacks c) /\
     wrap64 (bytes_written lower' - linesz c * writebacks c1)
       = wrap64 (bytes_written lower - linesz c * writebacks c)).
Proof.
  intros Hl Hd. destruct k as [a b s|a b cl inv]; cbn [deliver mh_access
    mh_clean_invalidate cache_miss_handler] in Hd.
  - destruct (access_structure c a b s c1 Hd) as [Hcf Hrest].
    apply configuration_fields in Hcf. destruct Hcf as (_ & _ & Hlin & _).
    destruct (check_tag c a) as [[p|]|]; [| |contradiction].
    + destruct Hrest as (cs & _ & _ & _ & Hmh & Hst).
      exists lower. split; [congruence|]. split; [assumption|].
      unfold statistics in Hst. unfold misses.
      destruct s; cbn in Hst; injection Hst as _ -> _ _ -> _ ->; auto.
    + destruct Hrest as (victim & cv & cs & _ & _ & _ & _ & Hiss & Hst).
      rewrite Hl in Hiss. unfold issued, miss_calls in Hiss.
      destruct (Z.testbit victim 63 && Z.testbit victim 62);
        cbn [app deliver_all deliver mh_access cache_miss_handler] in Hiss.
      * destruct (access lower (dirty_addr c victim) (linesz c) true) as [la|] eqn:E1;
          [|discriminate].
        cbn [mbind option_bind] in Hiss.
        destruct (access la (line_addr c a) (linesz c) false) as [lb|] eqn:E2;
          [|discriminate].
        cbn in Hiss. injection Hiss as Hmh.
        destruct (access_counters la _ _ false lb E2)
          as [(R1 & R2 & _ & R4 & R5 & _) _].
        destruct (access_counters lower _ _ true la E1)
          as [(W1 & W2 & _ & W4 & W5 & _) _].
        exists lb. split; [auto|]. split; [assumption|].
        rewrite R1, R2, R4, R5, W1, W2, W4, W5.
        unfold statistics in Hst. unfold misses.
        destruct s; cbn in Hst; injection Hst as _ -> _ _ -> _ ->;
          (split; [unfold wrap64; Z.div_mod_to_equations; lia|]);
          (split; [unfold wrap64; Z.div_mod_to_equations; nia|]);
          intros _;
          (split; unfold wrap64; Z.div_mod_to_equations; nia).
      * destruct (access lower (line_addr c a) (linesz c) false) as [lb|] eqn:E2;
          [|discriminate].
        cbn in Hiss. injection Hiss as Hmh.
        destruct (access_counters lower _ _ false lb E2)
          as [(R1 & R2 & _ & R4 & R5 & _) _].
        exists lb. split; [auto|]. split; [assumption|].
        rewrite R1, R2, R4, R5.
        unfold statistics in Hst. unfold misses.
        destruct s; cbn in Hst; injection Hst as _ -> _ _ -> _ ->;
          (split; [unfold wrap64; Z.div_mod_to_equations; lia|]);
          (split; [unfold wrap64; Z.div_mod_to_equations; nia|]);
          intros _; (split; reflexivity).
  - destruct (clean_invalidate_keeps c a b cl inv c1 Hd) as (Hst & Hcf & Hiss).
    apply configuration_fields in Hcf. destruct Hcf as (_ & _ & Hlin & _).
    rewrite Hl in Hiss. unfold issued in Hiss.
    cbn [deliver_all deliver mh_clean_invalidate cache_miss_handler] in Hiss.
    destruct (clean_invalidate lower a b cl inv) as [lb|] eqn:E; [|discriminate].
    cbn in Hiss. injection Hiss as Hmh.
    destruct (clean_invalidate_keeps lower a b cl inv lb E) as (Hst2 & _).
    exists lb. split; [auto|]. split; [assumption|].
    unfold access_statistics in Hst, Hst2. unfold misses.
    injection Hst as _ -> _ _ -> _. injection Hst2 as -> _ -> _ _ _.
    split; [reflexivity|]. split; [reflexivity|].
    intros (? & ? & ? & [=]).
Qed.

End TwoLevels.

(** X16. Between two linked engines the counters agree: over any
    sequence of calls that returns, the read accesses of the second
    level grow as the misses of the first level do, and its bytes read
    by [linesz] of the first level for each miss.  Over a sequence of
    accesses its write accesses grow as the writebacks of the first
    level do, by [linesz] bytes each; a [clean_invalidate] counts
    writebacks in the first level without a write to the second.  All
    differences are taken modulo 2^64, as the counters are. *)
Theorem next_level_counts_misses {N2 : Type} {MH2 : MissHandler N2}
    (ks : list call) (c : cache_sim_t (cache_sim_t N2)) (lower : cache_sim_t N2)
    (c' : cache_sim_t (cache_sim_t N2))
    (Hl : miss_handler c = Some lower) (Hrun : deliver_all c ks = Some c') :
  exists lower', miss_handler c' = Some lower' /\ linesz c' = linesz c /\
    wrap64 (read_accesses lower' - misses c') = wrap64 (read_accesses lower - misses c) /\
    wrap64 (bytes_read lower' - linesz c * misses c')
      = wrap64 (bytes_read lower - linesz c * misses c) /\
    (Forall (fun k => exists a b s, k = call_access a b s) ks ->
     wrap64 (write_accesses lower' - writebacks c')
       = wrap64 (write_accesses lower - writebacks c) /\
     wrap64 (bytes_written lower' - linesz c * writebacks c')
       = wrap64 (bytes_written lower - linesz c * writebacks c)).
Proof.
  revert c lower Hl Hrun. induction ks as [|k ks IH]; intros c lower Hl Hrun;
    cbn [deliver_all] in Hrun.
  - injection Hrun as <-. exists lower. auto 10.
  - destruct (deliver c k) as [c1|] eqn:Hd; [|discriminate]. cbn [mbind option_bind] in Hrun.
    destruct (two_level_step c lower k c1 Hl Hd) as (l1 & Hl1 & Hlin1 & R1 & R2 & W).
    destruct (IH c1 l1 Hl1 Hrun) as (l' & Hl' & Hlin' & R1' & R2' & W').
    rewrite Hlin1 in *.
    exists l'. split; [assumption|]. split; [assumption|].
    split; [congruence|]. split; [congruence|].
    intros Hacc. apply Forall_cons in Hacc. destruct Hacc as [Hk Hks].
    destruct (W Hk) as [W1 W2]. destruct (W' Hks) as [W1' W2'].
    split; congruence.
Qed.

Lemma next_level_counts_misses_witness :
  exists (lower : hierarchy 0) (c c' : hierarchy 1) (lower' : hierarchy 0),
    construct "16:4:64" "L2$" = inr lower /\ construct "1:1:64" "D$" = inr c /\
    deliver_all (set_miss_handler c (Some lower))
      [call_access 0 8 true; call_access 64 8 false; call_access 0 8 false] = Some c' /\
    miss_handler c' = Some lower' /\
    misses c' = 3 /\ wrap64 (read_accesses lower' - 3) = 0.
Proof.
  eexists. eexists.
  match goal with
  | |- exists c' l', ?s2 = inr ?c2 /\ ?s1 = inr ?c1 /\ _ =>
      assert (H2 : s2 = inr c2); [vm_compute; reflexivity|];
      assert (H1 : s1 = inr c1); [vm_compute; reflexivity|];
      set (l2 := c2) in *; set (l1 := set_miss_handler c1 (Some l2)) in *
  end.
  destruct (deliver_all l1 [call_access 0 8 true; call_access 64 8 false;
                            call_access 0 8 false]) as [c'|] eqn:Hrun;
    [|vm_compute in Hrun; discriminate].
  destruct (next_level_counts_misses _ l1 l2 c' eq_refl Hrun) as (l' & Hl' & _ & R1 & _).
  exists c', l'. split; [exact H2|]. split; [exact H1|]. split; [exact Hrun|].
  split; [exact Hl'|].
  assert (Hm : misses c' = 3) by (vm_compute in Hrun; injection Hrun as <-; reflexivity).
  split; [exact Hm|]. rewrite Hm in R1. exact R1.
Defined.

(** ** One valid copy of a line in a set *)

Lemma pos_inj w idx j idx0 j0 :
  0 <= idx -> 0 <= idx0 -> 0 <= j < w -> 0 <= j0 < w ->
  Z.to_nat (idx * w + j) = Z.to_nat (idx0 * w + j0) -> idx = idx0 /\ j = j0.
Proof.
  intros Hi Hi0 Hj Hj0 E. apply Z2Nat.inj in E; [|nia..].
  assert (idx = idx0) by (destruct (Z.lt_trichotomy idx idx0) as [|[|]]; [nia|assumption|nia]).
  subst. lia.
Qed.

(** The loop body of [clean_invalidate] clears flags: a word that still
    has VALID had it before and holds the same line. *)
Lemma maintained_key (clean inval touched : bool) v :
  let m := if touched then maintained clean inval v else v in
  Z.testbit m 63 = true ->
  Z.testbit v 63 = true /\ Z.land m (Z.lnot DIRTY) = Z.land v (Z.lnot DIRTY).
Proof.
  destruct touched; cbn zeta; [|auto]. unfold maintained.
  destruct (clean && has_flag v DIRTY), inval.
  - flag_bits. flag_consts. rewrite andb_false_r. discriminate.
  - flag_bits. flag_consts. rewrite andb_true_r. intros ->.
    split; [reflexivity|apply land_lnot_DIRTY_idem].
  - flag_bits. flag_consts. rewrite andb_false_r. discriminate.
  - auto.
Qed.

Lemma valid_key t t' :
  Z.testbit t 63 = true -> Z.land t (Z.lnot DIRTY) = Z.land t' (Z.lnot DIRTY) ->
  Z.testbit t' 63 = true.
Proof.
  intros Hv Hk. apply (f_equal (fun z => Z.testbit z 63)) in Hk. revert Hk. cbv beta.
  flag_bits. flag_consts. rewrite Hv, !andb_true_r. auto.
Qed.

Section Unique.

Context {N : Type} {MH : MissHandler N}.
Implicit Types (c : cache_sim_t N) (p q : slot).

(** A write to one slot keeps the ways of every set distinct when it
    changes flags only, clears VALID, or installs a line that no way
    of the set holds. *)
Lemma unique_ways_update c c' idx0 j0 :
  sets c' = sets c -> ways c' = ways c ->
  (fa_tags c' = None -> fa_tags c = None) ->
  0 <= idx0 < sets c -> 0 <= j0 < ways c ->
  (forall i, i <> Z.to_nat (idx0 * ways c + j0) -> tags c' !! i = tags c !! i) ->
  (forall w, tags c' !! Z.to_nat (idx0 * ways c + j0) = Some w ->
     (exists v, tags c !! Z.to_nat (idx0 * ways c + j0) = Some v /\
                Z.land w (Z.lnot DIRTY) = Z.land v (Z.lnot DIRTY) /\
                Z.testbit w 63 = Z.testbit v 63)
     \/ Z.testbit w 63 = false
     \/ (forall j t, 0 <= j < ways c ->
           tags c !! Z.to_nat (idx0 * ways c + j) = Some t ->
           Z.land t (Z.lnot DIRTY) <> Z.land w (Z.lnot DIRTY))) ->
  unique_ways c -> unique_ways c'.
Proof.
  intros Hs Hw Hfa Hidx0 Hj0 Hframe Hword Huniq Hfa' idx j j' t t' Hidx Hj Hj' Ht Ht' Hv Hk.
  rewrite Hs in Hidx. rewrite Hw in *. specialize (Huniq (Hfa Hfa')).
  destruct (decide (Z.to_nat (idx * ways c + j) = Z.to_nat (idx0 * ways c + j0))) as [E|E];
    destruct (decide (Z.to_nat (idx * ways c + j') = Z.to_nat (idx0 * ways c + j0)))
      as [E'|E'].
  - apply pos_inj in E; [|lia..]. apply pos_inj in E'; [|lia..]. lia.
  - apply pos_inj in E; [|lia..]. destruct E as [-> ->].
    rewrite (Hframe _ E') in Ht'.
    destruct (Hword t Ht) as [(v & Hv0 & Hkv & Hbv)|[Hb|Hnone]].
    + apply (Huniq idx0 j0 j' v t'); try assumption; congruence.
    + congruence.
    + exfalso. apply (Hnone j' t'); auto.
  - apply pos_inj in E'; [|lia..]. destruct E' as [-> ->].
    rewrite (Hframe _ E) in Ht.
    destruct (Hword t' Ht') as [(v & Hv0 & Hkv & Hbv)|[Hb|Hnone]].
    + apply (Huniq idx0 j j0 t v); try assumption; congruence.
    + pose proof (valid_key t t' Hv Hk). congruence.
    + exfalso. apply (Hnone j t); auto.
  - rewrite (Hframe _ E) in Ht. rewrite (Hframe _ E') in Ht'.
    apply (Huniq idx j j' t t'); assumption.
Qed.

Lemma access_variant c a bytes (st : bool) c' :
  access c a bytes st = Some c' ->
  is_fully_associative c' = is_fully_associative c.
Proof.
  intros Hacc. destruct (access_structure c a bytes st c' Hacc) as [_ Hrest].
  assert (Hor : forall c0 p cs, or_into c0 p DIRTY = Some cs ->
            is_fully_associative cs = is_fully_associative c0).
  { intros c0 p cs. unfold or_into. destruct (load c0 p); [|discriminate]. cbn.
    intros H. apply store_shape in H. tauto. }
  assert (Hts : forall c1 c2, tag_store c1 = tag_store c2 ->
            is_fully_associative c1 = is_fully_associative c2).
  { intros c1 c2 [_ Hf]%tag_store_eq. unfold is_fully_associative. rewrite Hf. reflexivity. }
  destruct (check_tag c a) as [[p|]|]; [| |contradiction].
  - destruct Hrest as (cs & Hcs & Ht & _). rewrite (Hts _ _ Ht).
    destruct st; [eapply Hor; eauto|congruence].
  - destruct Hrest as (victim & cv & cs & Hv & Hcs & Ht & _). rewrite (Hts _ _ Ht).
    destruct (victimize_configuration c a victim cv Hv) as (_ & _ & _ & <-).
    destruct st; [|congruence].
    destruct (check_tag cv a) as [[p|]|]; try discriminate.
    cbn [mbind option_bind] in Hcs. eapply Hor; eauto.
Qed.

Lemma access_unique_ways c a bytes (st : bool) c' :
  well_formed c -> is_u64 a -> unique_ways c ->
  access c a bytes st = Some c' -> unique_ways c'.
Proof.
  intros Hwf Ha Hu Hacc.
  pose proof (access_variant c a bytes st c' Hacc) as Hvar.
  destruct (fa_tags c) as [m|] eqn:Hsa.
  { intros Hfa'. unfold is_fully_associative in Hvar. rewrite Hfa', Hsa in Hvar.
    discriminate. }
  destruct (access_structure c a bytes st c' Hacc) as [Hcf _].
  apply configuration_fields in Hcf. destruct Hcf as (Hs & Hw & _).
  destruct (sa_access_slot c a bytes st c' Hwf Ha Hsa Hacc)
    as (Hf' & j & w & Hj & Hframe & Hw' & Hcase).
  pose proof (set_index_range c a Hwf Ha) as Hidx.
  apply (unique_ways_update c c' (set_index c a) j); try assumption; [auto|].
  intros w0 Hw0. rewrite Hw' in Hw0. injection Hw0 as <-.
  destruct Hcase as [(v & Hv & -> & _)|[Hmiss ->]].
  - left. exists v. split; [assumption|]. destruct st; [|auto].
    split; [apply lor_DIRTY_compare|].
    flag_bits. flag_consts. apply orb_false_r.
  - right. right. intros j1 t Hj1 Ht.
    unfold check_tag in Hmiss. rewrite Hsa in Hmiss.
    destruct (sa_check_tag_spec c a Hwf Ha) as [(? & ? & _ & Hck & _)|[_ Hnone]];
      [congruence|].
    specialize (Hnone j1 t Hj1 Ht). unfold compares in Hnone.
    apply Z.eqb_neq in Hnone.
    pose proof (line_tag_bound c a Hwf Ha) as Hb.
    assert (Hkey : Z.land (Z.lor (Z.lor (line_tag c a) VALID) (if st then DIRTY else 0))
                     (Z.lnot DIRTY) = Z.lor (line_tag c a) VALID).
    { destruct st; [rewrite lor_DIRTY_compare|rewrite Z.lor_0_r];
        apply stored_tag_clean; lia. }
    rewrite Hkey. congruence.
Qed.

Lemma clean_invalidate_unique_ways c addr bytes (clean inval : bool) c' :
  well_formed c -> is_u64 addr -> is_u64 bytes -> unique_ways c ->
  clean_invalidate c addr bytes clean inval = Some c' -> unique_ways c'.
Proof.
  intros Hwf Ha Hb Hu Hci.
  destruct (clean_invalidate_result c addr bytes clean inval c' Hwf Ha Hb Hci)
    as (c1 & [Hwf1 Hsh Hvar _ Hload _ _] & Hc').
  assert (Hs : sets c1 = sets c) by (rewrite Hsh; reflexivity).
  assert (Hw : ways c1 = ways c) by (rewrite Hsh; reflexivity).
  intros Hfa' idx j j' t1 t1' Hidx Hj Hj' Ht1 Ht1' Hv Hk.
  rewrite Hc' in *. cbn [sets ways tags fa_tags set_miss_handler] in *.
  rewrite Hs in Hidx. rewrite Hw in *.
  assert (Hfa : fa_tags c = None).
  { unfold is_fully_associative in Hvar. rewrite Hfa' in Hvar.
    destruct (fa_tags c); [discriminate|reflexivity]. }
  assert (Hlen : length (tags c1) = length (tags c)).
  { destruct Hwf as [_ _ _ _ _ Hl _ _], Hwf1 as [_ _ _ _ _ Hl1 _ _].
    rewrite Hs, Hw in Hl1. lia. }
  assert (Hold : forall i t1, tags c1 !! i = Some t1 ->
            exists t (b : bool), tags c !! i = Some t /\
                        t1 = if b then maintained clean inval t else t).
  { intros i u Hi. destruct (tags c !! i) as [t|] eqn:Hti.
    - pose proof (Hload (array_slot i) t Hti) as Hl. cbn [load] in Hl.
      rewrite Hi in Hl. injection Hl as ->. eauto.
    - apply lookup_lt_Some in Hi. apply lookup_ge_None in Hti. lia. }
  destruct (Hold _ _ Ht1) as (t & b & Ht & ->).
  destruct (Hold _ _ Ht1') as (t' & b' & Ht' & ->).
  pose proof (valid_key _ _ Hv Hk) as Hv'.
  destruct (maintained_key clean inval b t Hv) as [Hvt Hkt].
  destruct (maintained_key clean inval b' t' Hv') as [_ Hkt'].
  apply (Hu Hfa idx j j' t t'); try assumption. congruence.
Qed.

(** *** The array of a fully-associative engine *)

Lemma fa_check_tag_slot c m a p :
  fa_tags c = Some m -> check_tag c a = Some (Some p) -> exists k, p = map_slot k.
Proof.
  intros Hfa. unfold check_tag, fa_cache_sim_t_check_tag. rewrite Hfa.
  destruct (std_map.find _ m); intros [= <-]. eauto.
Qed.

Lemma fa_victimize_tags c m a victim cv :
  fa_tags c = Some m -> victimize c a = Some (victim, cv) ->
  tags cv = tags c /\ exists m', fa_tags cv = Some m'.
Proof.
  intros Hfa. unfold victimize, fa_cache_sim_t_victimize. rewrite Hfa.
  destruct (std_map.size m =? ways c).
  - destruct (lfsr_t.next (lfsr c)) as [r l]. destruct (ways c =? 0); [discriminate|].
    destruct (std_map.at_offset _ m) as [it|]; [|discriminate]. cbn.
    intros [= <- <-]. cbn. eauto.
  - cbn. intros [= <- <-]. cbn. eauto.
Qed.

(** A fully-associative engine never writes the array. *)
Lemma fa_access_tags c m a bytes (st : bool) c' :
  fa_tags c = Some m -> access c a bytes st = Some c' -> tags c' = tags c.
Proof.
  intros Hfa Hacc. destruct (access_structure c a bytes st c' Hacc) as [_ Hrest].
  destruct (check_tag c a) as [[p|]|] eqn:Hck; [| |contradiction].
  - destruct Hrest as (cs & Hcs & [Ht _]%tag_store_eq & _). rewrite Ht.
    destruct st; [|congruence].
    destruct (fa_check_tag_slot c m a p Hfa Hck) as [k ->].
    apply or_into_map in Hcs. destruct Hcs as (_ & _ & _ & _ & _ & Hts). exact Hts.
  - destruct Hrest as (victim & cv & cs & Hv & Hcs & [Ht _]%tag_store_eq & _).
    rewrite Ht. destruct (fa_victimize_tags c m a victim cv Hfa Hv) as (Htv & m' & Hfv).
    destruct st; [|congruence].
    destruct (check_tag cv a) as [[p|]|] eqn:Hckv; try discriminate.
    cbn [mbind option_bind] in Hcs.
    destruct (fa_check_tag_slot cv m' a p Hfv Hckv) as [k ->].
    apply or_into_map in Hcs. destruct Hcs as (_ & _ & _ & _ & _ & Hts). congruence.
Qed.

Lemma maintained_zero (clean inval b : bool) :
  (if b then maintained clean inval 0 else 0) = 0.
Proof. destruct b, clean, inval; reflexivity. Qed.

Lemma access_base_array_unused c a bytes (st : bool) c' :
  base_array_unused c -> access c a bytes st = Some c' -> base_array_unused c'.
Proof.
  intros Hz Hacc Hfa'. rewrite (access_variant c a bytes st c' Hacc) in Hfa'.
  specialize (Hz Hfa'). unfold is_fully_associative in Hfa'.
  destruct (fa_tags c) as [m|] eqn:Hfa; [|discriminate].
  rewrite (fa_access_tags c m a bytes st c' Hfa Hacc). exact Hz.
Qed.

Lemma clean_invalidate_base_array_unused c addr bytes (clean inval : bool) c' :
  well_formed c -> is_u64 addr -> is_u64 bytes -> base_array_unused c ->
  clean_invalidate c addr bytes clean inval = Some c' -> base_array_unused c'.
Proof.
  intros Hwf Ha Hb Hz Hci.
  destruct (clean_invalidate_result c addr bytes clean inval c' Hwf Ha Hb Hci)
    as (c1 & [Hwf1 Hsh Hvar _ Hload _ _] & Hc').
  intros Hfa' i t1. rewrite Hc' in *.
  unfold is_fully_associative in Hfa'. cbn [tags fa_tags set_miss_handler] in *.
  fold (is_fully_associative c1) in Hfa'. rewrite Hvar in Hfa'. specialize (Hz Hfa').
  assert (Hlen : length (tags c1) = length (tags c)).
  { destruct Hwf as [_ _ _ _ _ Hl _ _], Hwf1 as [_ _ _ _ _ Hl1 _ _].
    replace (sets c1) with (sets c) in Hl1 by (rewrite Hsh; reflexivity).
    replace (ways c1) with (ways c) in Hl1 by (rewrite Hsh; reflexivity). lia. }
  intros Hi. destruct (tags c !! i) as [t|] eqn:Hti.
  - pose proof (Hload (array_slot i) t Hti) as Hl. cbn [load] in Hl.
    rewrite Hi in Hl. injection Hl as ->. rewrite (Hz i t Hti).
    apply maintained_zero.
  - apply lookup_lt_Some in Hi. apply lookup_ge_None in Hti. lia.
Qed.

(** The two facts about the array that every reachable engine has. *)
Lemma reachable_array c : reachable c -> unique_ways c /\ base_array_unused c.
Proof.
  induction 1 as [config nm c Hc|c addr bytes st c' Hr [IHu IHz] Ha _ Hacc
                 |c addr bytes clean inval c' Hr [IHu IHz] Ha Hb Hci
                 |c b _ IH|c mh _ IH|u c Hr [IHu IHz]|u c m Hr [IHu IHz] Hfa].
  - destruct (construct_zeroed config nm c Hc) as [_ Hload]. split.
    + intros _ idx j j' t t' _ _ _ Ht _ Hv _.
      rewrite (Hload (array_slot _) t Ht) in Hv. discriminate.
    + intros _ i t Ht. exact (Hload (array_slot i) t Ht).
  - split.
    + exact (access_unique_ways c addr bytes st c' (reachable_well_formed c Hr) Ha IHu Hacc).
    + exact (access_base_array_unused c addr bytes st c' IHz Hacc).
  - split.
    + exact (clean_invalidate_unique_ways c addr bytes clean inval c'
               (reachable_well_formed c Hr) Ha Hb IHu Hci).
    + exact (clean_invalidate_base_array_unused c addr bytes clean inval c'
               (reachable_well_formed c Hr) Ha Hb IHz Hci).
  - exact IH.
  - exact IH.
  - (* the copy of the base class: a set-associative engine *)
    destruct (copy_tag_store u c (reachable_well_formed c Hr)) as (Ht & Hf & _).
    split; [|intros Hfa; unfold is_fully_associative in Hfa; rewrite Hf in Hfa;
             discriminate].
    intros _ idx j j' t t'. rewrite Ht.
    destruct (fa_tags c) as [m|] eqn:Hfa.
    + intros _ _ _ Hl _ Hv _.
      rewrite (IHz ltac:(unfold is_fully_associative; rewrite Hfa; reflexivity) _ t Hl)
        in Hv. discriminate.
    + apply (IHu Hfa).
  - (* the copy of the subclass *)
    destruct (fa_copy_tag_store u c (reachable_well_formed c Hr)) as (Ht & Hf).
    split.
    + intros Hnone. rewrite Hf, Hfa in Hnone. discriminate.
    + intros _ i t. rewrite Ht. apply IHz.
      unfold is_fully_associative. rewrite Hfa. reflexivity.
Qed.

Lemma reachable_unique_ways c : reachable c -> unique_ways c.
Proof. intros Hr. apply reachable_array. assumption. Qed.

Lemma line_tag_line_addr c x :
  well_formed c -> line_tag c (line_addr c x) = line_tag c x.
Proof.
  intros Hwf. rewrite (line_addr_div c x Hwf), (line_tag_mul c _ Hwf).
  unfold line_tag. destruct Hwf as [_ _ _ Hi Hl _ _ _].
  rewrite Z.shiftr_div_pow2, Hl by lia. reflexivity.
Qed.

End Unique.

(** X17. Every engine reached from [construct] by [access],
    [clean_invalidate], [set_log], [set_miss_handler] and the two copy
    constructors, the one of [cache_sim_t], which slices a
    fully-associative source, and the one of [fa_cache_sim_t], is well
    formed and holds a valid line at most once in a set: [tags] has
    [sets * ways] words, [linesz] is [2 ^ idx_shift], the generator is a
    32-bit word, a fully-associative map has ascending keys and at most
    [ways] entries, no two ways of a set hold the same valid tag, and the
    array of a fully-associative engine holds zeros. *)
Theorem reachable_invariants {N : Type} {MH : MissHandler N}
    (c : cache_sim_t N) (Hr : reachable c) :
  well_formed c /\ unique_ways c /\ base_array_unused c /\
  Z.of_nat (length (tags c)) = sets c * ways c /\
  linesz c = 2 ^ idx_shift c /\
  (forall m, fa_tags c = Some m -> std_map.ordered m /\ std_map.size m <= ways c).
Proof.
  pose proof (reachable_well_formed c Hr) as Hwf.
  destruct (reachable_array c Hr) as [Hu Hz].
  split; [assumption|]. split; [assumption|]. split; [assumption|].
  destruct Hwf as [_ _ _ _ Hl Ht _ Hfa].
  split; [assumption|]. split; [assumption|].
  intros m Hm. rewrite Hm in Hfa. assumption.
Qed.

Lemma reachable_invariants_witness :
  exists c : cache_sim_t (list call),
    scenario "1:8:64" [call_access 0 8 true; call_access 64 8 false] = Some c /\
    (exists m, fa_tags c = Some m /\ std_map.size m <= ways c) /\
    unique_ways (copy (mk_indeterminate None 0 0 0 0 0 0 0) c).
Proof.
  eexists.
  match goal with |- ?s = Some ?c /\ _ => assert (Hs : s = Some c) end.
  { vm_compute. reflexivity. }
  split; [exact Hs|].
  match type of Hs with _ = Some ?c => set (c0 := c) in * end.
  assert (Hr : reachable c0).
  { eapply scenario_reachable; [exact Hs|]. repeat constructor; unfold is_u64; lia. }
  split.
  - destruct (reachable_invariants c0 Hr) as (_ & _ & _ & _ & _ & Hfa).
    eexists. split; [reflexivity|]. apply (Hfa _ eq_refl).
  - apply (reachable_invariants _ (reach_copy _ c0 Hr)).
Defined.

(** X18. In a set-associative engine [clean_invalidate] with [inval]
    set leaves no line of the range resident: provided the engine is well
    formed, holds a valid line at most once in a set, and the end of the
    range does not wrap, every address of [addr, addr + bytes) misses
    afterwards. *)
Theorem sa_invalidate_misses {N : Type} {MH : MissHandler N}
    (c : cache_sim_t N) (addr bytes : Z) (clean : bool) (c' : cache_sim_t N) (x : Z)
    (Hwf : well_formed c) (Hu : unique_ways c) (Hsa : fa_tags c = None)
    (Ha : is_u64 addr) (Hb : is_u64 bytes)
    (Hnw : addr + bytes + linesz c - 1 < 2 ^ 64)
    (Hx : addr <= x < addr + bytes)
    (Hci : clean_invalidate c addr bytes clean true = Some c') :
  is_miss c' x.
Proof.
  destruct (clean_invalidate_result c addr bytes clean true c' Hwf Ha Hb Hci)
    as (c1 & [Hwf1 Hsh Hvar _ Hload _ _] & Hc').
  assert (Hxu : is_u64 x).
  { pose proof (linesz_pos c Hwf). unfold is_u64 in *. lia. }
  assert (Hs : sets c1 = sets c) by (rewrite Hsh; reflexivity).
  assert (Hw : ways c1 = ways c) by (rewrite Hsh; reflexivity).
  assert (Hi : idx_shift c1 = idx_shift c) by (rewrite Hsh; reflexivity).
  assert (Hfa1 : fa_tags c1 = None).
  { unfold is_fully_associative in Hvar. rewrite Hsa in Hvar.
    destruct (fa_tags c1); [discriminate|reflexivity]. }
  unfold is_miss.
  replace (check_tag c' x) with (check_tag c1 x)
    by (rewrite Hc'; symmetry; apply check_tag_ext; reflexivity).
  unfold check_tag. rewrite Hfa1.
  destruct (sa_check_tag_spec c1 x Hwf1 Hxu)
    as [(j & t1 & Hj & _ & Ht1 & Hc1 & _)|[Hck _]]; [exfalso|assumption].
  assert (Hidx : set_index c1 x = set_index c x)
    by (unfold set_index; rewrite Hi, Hs; reflexivity).
  assert (Htag : line_tag c1 x = line_tag c x) by (unfold line_tag; rewrite Hi; reflexivity).
  rewrite Hidx, Hw, Htag in *.
  set (pos := Z.to_nat (set_index c x * ways c + j)) in *.
  assert (Hlen : length (tags c1) = length (tags c)).
  { destruct Hwf as [_ _ _ _ _ Hl _ _], Hwf1 as [_ _ _ _ _ Hl1 _ _].
    rewrite Hs, Hw in Hl1. lia. }
  destruct (tags c !! pos) as [t|] eqn:Ht;
    [|apply lookup_lt_Some in Ht1; apply lookup_ge_None in Ht; lia].
  pose proof (Hload (array_slot pos) t Ht) as Hl. cbn [load] in Hl.
  rewrite Ht1 in Hl. injection Hl as Hl.
  destruct (touched c (visited_lines c addr bytes) (array_slot pos)) eqn:Htouch.
  - (* the slot was visited: VALID is clear *)
    rewrite Hl in Hc1. unfold compares, maintained in Hc1. apply Z.eqb_eq in Hc1.
    symmetry in Hc1. revert Hc1. apply land_lnot_VALID_compare.
  - (* the slot was not visited: the line was resident there before *)
    subst t1.
    assert (Hckx : check_tag c x = Some (Some (array_slot pos))).
    { unfold check_tag. rewrite Hsa.
      destruct (sa_check_tag_spec c x Hwf Hxu)
        as [(j0 & t0 & Hj0 & Hck0 & Ht0 & Hc0 & _)|[_ Hnone]].
      - assert (j0 = j); [|subst j0; exact Hck0].
        pose proof (set_index_range c x Hwf Hxu) as Hir.
        unfold compares in Hc0, Hc1. apply Z.eqb_eq in Hc0, Hc1.
        apply (Hu Hsa (set_index c x) j0 j t0 t); try assumption; [|congruence].
        apply (f_equal (fun z => Z.testbit z 63)) in Hc0. revert Hc0. cbv beta.
        flag_bits. flag_consts. rewrite orb_true_r, andb_true_r. auto.
      - rewrite (Hnone j t Hj Ht) in Hc1. discriminate. }
    assert (Hin : line_addr c x ∈ visited_lines c addr bytes)
      by (apply visited_lines_cover; assumption).
    assert (Htrue : touched c (visited_lines c addr bytes) (array_slot pos) = true).
    { apply touched_true. exists (line_addr c x). split; [assumption|].
      rewrite <- Hckx. apply check_tag_line. apply line_tag_line_addr. assumption. }
    congruence.
Qed.

Lemma sa_invalidate_misses_witness :
  exists c c' : cache_sim_t (list call),
    scenario "16:4:64" [call_access 4096 8 true] = Some c /\
    clean_invalidate c 4100 4 true true = Some c' /\
    is_hit c 4100 /\ is_miss c' 4100.
Proof.
  eexists.
  match goal with |- exists c', ?s = Some ?c /\ _ => assert (Hs : s = Some c) end.
  { vm_compute. reflexivity. }
  match type of Hs with _ = Some ?c => set (c0 := c) in * end.
  assert (Hr : reachable c0).
  { eapply scenario_reachable; [exact Hs|]. repeat constructor; unfold is_u64; lia. }
  pose proof (reachable_well_formed c0 Hr) as Hwf.
  pose proof (reachable_unique_ways c0 Hr) as Hu.
  destruct (clean_invalidate c0 4100 4 true true) as [c'|] eqn:Hci;
    [|vm_compute in Hci; discriminate].
  exists c'. split; [exact Hs|]. split; [reflexivity|].
  split; [eexists; vm_compute; reflexivity|].
  assert (Ha : is_u64 4100) by (unfold is_u64; lia).
  assert (Hb : is_u64 4) by (unfold is_u64; lia).
  apply (sa_invalidate_misses c0 4100 4 true c' 4100 Hwf Hu eq_refl Ha Hb);
    [cbn; lia|lia|exact Hci].
Defined.

(** X19. An engine without ways fails on every access: the lookup finds
    nothing and [victimize] takes the remainder of a division by
    [ways], which is 0.  [construct] does not refuse such a
    configuration. *)
Theorem access_without_ways {N : Type} {MH : MissHandler N}
    (c : cache_sim_t N) (addr bytes : Z) (st : bool)
    (Hwf : well_formed c) (Hways : ways c = 0) :
  access c addr bytes st = None.
Proof.
  unfold access. destruct (check_tag_count c bytes st addr) as [_ ->].
  assert (Hck : check_tag c addr = Some None).
  { unfold check_tag, cache_sim_t_check_tag, fa_cache_sim_t_check_tag.
    destruct Hwf as [_ _ _ _ _ _ _ Hfa].
    destruct (fa_tags c) as [m|].
    - destruct Hfa as [_ Hsz]. destruct m; [reflexivity|].
      unfold std_map.size in Hsz. cbn [length] in Hsz. lia.
    - rewrite Hways. reflexivity. }
  rewrite Hck. cbn [mbind option_bind]. rewrite victimize_count.
  unfold victimize, cache_sim_t_victimize, fa_cache_sim_t_victimize.
  destruct Hwf as [_ _ _ _ _ _ _ Hfa].
  destruct (fa_tags c) as [m|].
  - destruct Hfa as [_ Hsz].
    assert (std_map.size m = 0) as -> by (unfold std_map.size in *; lia).
    rewrite Hways. cbn. destruct (lfsr_t.next (lfsr c)). reflexivity.
  - destruct (lfsr_t.next (lfsr c)). rewrite Hways. reflexivity.
Qed.

Lemma access_without_ways_witness :
  exists c : cache_sim_t (list call),
    construct "4:0:64" "D$" = inr c /\ access c 0 1 false = None.
Proof.
  eexists.
  match goal with |- ?s = inr ?c /\ _ => assert (Hs : s = inr c) end.
  { vm_compute. reflexivity. }
  split; [exact Hs|].
  match type of Hs with _ = inr ?c => set (c0 := c) in * end.
  apply access_without_ways; [|reflexivity].
  constructor; cbn; try lia; try exact I; try reflexivity. unfold is_u32. cbn. lia.
Defined.

(** ** Counting in [clean_invalidate] and in the data cache *)

(** X20. [clean_invalidate] counts no access: whatever the arguments,
    and whether or not the range wraps, the six access, miss and byte
    counters and the configuration are as before, and a linked next
    level has received the call once. *)
Theorem clean_invalidate_counts_no_access {N : Type} {MH : MissHandler N}
    (c : cache_sim_t N) (addr bytes : Z) (clean inval : bool) (c' : cache_sim_t N)
    (Hci : clean_invalidate c addr bytes clean inval = Some c') :
  access_statistics c' = access_statistics c /\
  configuration c' = configuration c /\
  issued (miss_handler c) [call_clean_invalidate addr bytes clean inval]
    = Some (miss_handler c').
Proof. exact (clean_invalidate_keeps c addr bytes clean inval c' Hci). Qed.

Lemma clean_invalidate_counts_no_access_witness :
  exists c c' : cache_sim_t (list call),
    scenario "16:4:64" [call_access (2 ^ 64 - 64) 8 true] = Some c /\
    clean_invalidate c (2 ^ 64 - 64) 64 true true = Some c' /\
    access_statistics c' = (0, 0, 0, 1, 1, 8) /\
    miss_handler c' = Some [call_access (2 ^ 64 - 64) 64 false;
                            call_clean_invalidate (2 ^ 64 - 64) 64 true true].
Proof.
  eexists.
  match goal with |- exists c', ?s = Some ?c /\ _ => assert (Hs : s = Some c) end.
  { vm_compute. reflexivity. }
  match type of Hs with _ = Some ?c => set (c0 := c) in * end.
  destruct (clean_invalidate c0 (2 ^ 64 - 64) 64 true true) as [c'|] eqn:Hci;
    [|vm_compute in Hci; discriminate].
  destruct (clean_invalidate_counts_no_access c0 _ _ _ _ c' Hci) as (Hst & _ & Hiss).
  exists c'. split; [exact Hs|]. split; [reflexivity|]. split; [exact Hst|].
  change (Some (Some [call_access (2 ^ 64 - 64) 64 false;
                      call_clean_invalidate (2 ^ 64 - 64) 64 true true])
          = Some (miss_handler c')) in Hiss.
  injection Hiss as <-. reflexivity.
Defined.

Section DataCache.

Context {N : Type} {MH : MissHandler N}.

Lemma dcache_trace_counts (t : cache_memtracer_t N) addr bytes type t' :
  dcache_sim_t_trace t addr bytes type = Some t' ->
  read_accesses (cache t') =
    (if bool_decide (type = LOAD) then wrap64 (read_accesses (cache t) + 1)
     else read_accesses (cache t)) /\
  write_accesses (cache t') =
    (if bool_decide (type = STORE) then wrap64 (write_accesses (cache t) + 1)
     else write_accesses (cache t)) /\
  (type = FETCH -> t' = t).
Proof.
  unfold dcache_sim_t_trace. destruct type.
  - change (bool_decide (LOAD = LOAD) || bool_decide (LOAD = STORE)) with true.
    change (bool_decide (LOAD = STORE)) with false. cbv iota.
    destruct (access (cache t) addr bytes false) as [c'|] eqn:E; cbn [fmap option_fmap option_map];
      [|discriminate].
    intros [= <-]. cbn [cache].
    destruct (access_counters (cache t) addr bytes false c' E) as [(H1 & _ & _ & H4 & _) _].
    split; [assumption|]. split; [assumption|intros [=]].
  - change (bool_decide (STORE = LOAD) || bool_decide (STORE = STORE)) with true.
    change (bool_decide (STORE = STORE)) with true.
    change (bool_decide (STORE = LOAD)) with false. cbv iota.
    destruct (access (cache t) addr bytes true) as [c'|] eqn:E; cbn [fmap option_fmap option_map];
      [|discriminate].
    intros [= <-]. cbn [cache].
    destruct (access_counters (cache t) addr bytes true c' E) as [(H1 & _ & _ & H4 & _) _].
    split; [assumption|]. split; [assumption|intros [=]].
  - change (bool_decide (FETCH = LOAD) || bool_decide (FETCH = STORE)) with false.
    change (bool_decide (FETCH = LOAD)) with false.
    change (bool_decide (FETCH = STORE)) with false. cbv iota.
    intros [= <-]. auto.
Qed.

End DataCache.

(** X21. The data cache counts the LOAD and STORE events it is offered
    and nothing else: after a trace that returns, [read_accesses] has
    gone up by the number of LOAD events and [write_accesses] by the
    number of STORE events, modulo 2^64, and FETCH events have changed
    nothing. *)
Theorem dcache_counts_events {N : Type} {MH : MissHandler N}
    (evs : list event) (t t' : cache_memtracer_t N)
    (Hrun : dcache_trace_all t evs = Some t') :
  read_accesses (cache t') = incremented (count_events LOAD evs) (read_accesses (cache t)) /\
  write_accesses (cache t') = incremented (count_events STORE evs) (write_accesses (cache t)) /\
  (Forall (fun e => ev_type e = FETCH) evs -> t' = t).
Proof.
  revert t Hrun. induction evs as [|e evs IH]; intros t Hrun; cbn [dcache_trace_all] in Hrun.
  - injection Hrun as <-. auto.
  - destruct (dcache_sim_t_trace t (ev_addr e) (ev_bytes e) (ev_type e)) as [t1|] eqn:E1;
      [|discriminate].
    cbn [mbind option_bind] in Hrun.
    destruct (dcache_trace_counts t _ _ _ t1 E1) as (H1 & H2 & H3).
    destruct (IH t1 Hrun) as (I1 & I2 & I3).
    unfold count_events in *. cbn [List.filter].
    split; [|split].
    + rewrite I1, H1. destruct (bool_decide (ev_type e = LOAD)); [|reflexivity].
      cbn [length]. unfold incremented. rewrite Nat.iter_succ_r. reflexivity.
    + rewrite I2, H2. destruct (bool_decide (ev_type e = STORE)); [|reflexivity].
      cbn [length]. unfold incremented. rewrite Nat.iter_succ_r. reflexivity.
    + intros Hall. apply Forall_cons in Hall. destruct Hall as [He Hall].
      rewrite (I3 Hall). auto.
Qed.

Lemma dcache_counts_events_witness :
  exists t0 t' : cache_memtracer_t (list call),
    new_cache_memtracer_t "16:4:64" "D$" = inr t0 /\
    dcache_trace_all t0
      [mk_event 0 8 LOAD; mk_event 8 8 STORE; mk_event 128 4 FETCH;
       mk_event 64 4 STORE; mk_event 0 8 LOAD; mk_event 8 1 LOAD] = Some t' /\
    read_accesses (cache t') = 3 /\ write_accesses (cache t') = 2.
Proof.
  eexists. eexists.
  match goal with
  | |- ?s = inr ?c /\ ?r = Some ?t /\ _ =>
      assert (Hs : s = inr c); [vm_compute; reflexivity|];
      assert (Hr : r = Some t); [vm_compute; reflexivity|]
  end.
  split; [exact Hs|]. split; [exact Hr|].
  destruct (dcache_counts_events _ _ _ Hr) as (H1 & H2 & _).
  rewrite H1, H2. split; reflexivity.
Defined.
